(** * Membership resolution of the MultiplePlaylists plugin

    A shallow embedding of the membership-resolution subsystem of the
    plugin: the playlist membership lookups
    ([checkSongInUserPlaylists], [checkSongInUserPlaylistsByMeta]), the
    cached, deduplicating, concurrency-gated resolver ([getMembership],
    [enqueueMembership]), the recently-added overlay
    ([rememberRecentlyAdded]), the row annotation pipeline
    ([processTrackRow]) and the playlist-add operation
    ([addToSelectedPlaylists]).

    Conventions.
    - JavaScript strings are [string]s whose characters are the code units
      0..255; every character class used by the source (ASCII letters and
      digits, white space including U+00A0) lives in that range.
    - JavaScript numbers that occur here are identifiers and counters; they
      are integers, modelled by [Z]: [Js.Number n] is the Number whose value
      is [n].  Such a Number exists for every [n] below 2^53 in magnitude
      and, beyond, for the integers that a double holds.
    - A computation that may throw (or a promise that may reject) returns a
      [Js.completion]; [try ... catch] is [Js.try_catch].
    - The event loop is single threaded.  Asynchronous code is cut at its
      suspension points into atomic steps; the environment chooses the order
      in which enabled steps run. *)

From Stdlib Require Import ZArith Ascii String List Bool Lia.
From stdpp Require Import base option list gmap sets strings pretty.

Open Scope string_scope.
Open Scope list_scope.

(** ** JavaScript values and completions *)

Module Js.

Inductive value : Type :=
| Undefined
| Null
| Boolean (b : bool)
| Number (n : Z)
| Str (s : string).

(** [if (v)], [!v], [a && b]. *)
Definition truthy (v : value) : bool :=
  match v with
  | Undefined | Null => false
  | Boolean b => b
  | Number n => negb (n =? 0)%Z
  | Str s => negb (String.eqb s "")
  end.

(** The test behind [??] and [?.]. *)
Definition nullish (v : value) : bool :=
  match v with
  | Undefined | Null => true
  | _ => false
  end.

(** [a === b]. *)
Definition strict_eq (a b : value) : bool :=
  match a, b with
  | Undefined, Undefined => true
  | Null, Null => true
  | Boolean x, Boolean y => Bool.eqb x y
  | Number x, Number y => (x =? y)%Z
  | Str x, Str y => String.eqb x y
  | _, _ => false
  end.

(** [String(x)] of a Number [x] of at least 2^53 (Number::toString of
    ECMAScript): the digits are those of the shortest decimal that is read
    back as [x], the one nearest to [x] when there are several, and the
    exponent notation is used from 21 digits before the point on.

    [roundsTo x v]: the integer [v] is read back as the double [x], which
    it is when it lies between the midpoints to the neighbours of [x],
    the midpoints included when the significand of [x] is even. *)
Definition roundsTo (x v : Z) : bool :=
  let u := (2 ^ (Z.log2 x - 52))%Z in
  let up := u in
  let down := if (x / u =? 4503599627370496)%Z then (u / 2)%Z else u in
  if Z.even (x / u)
  then (2 * x - down <=? 2 * v)%Z && (2 * v <=? 2 * x + up)%Z
  else (2 * x - down <? 2 * v)%Z && (2 * v <? 2 * x + up)%Z.

Definition decimalDigits (v : Z) : nat := String.length (pretty v).

(** The multiple of [p] that is read back as [x] and is nearest to [x],
    if there is one. *)
Definition shortestAt (x p : Z) : option Z :=
  let lo := (x / p * p)%Z in
  let hi := (lo + p)%Z in
  match roundsTo x lo, roundsTo x hi with
  | true, true =>
      if (x - lo <? hi - x)%Z then Some lo
      else if (hi - x <? x - lo)%Z then Some hi
      else if Z.even (lo / p) then Some lo else Some hi
  | true, false => Some lo
  | false, true => Some hi
  | false, false => None
  end.

(** The first of the precisions [ks] (numbers of leading digits of an
    [n]-digit number) at which a decimal is read back as [x]. *)
Fixpoint shortest (x : Z) (n : nat) (ks : list nat) : Z :=
  match ks with
  | [] => x
  | k :: ks' =>
      match shortestAt x (10 ^ Z.of_nat (n - k)) with
      | Some v => v
      | None => shortest x n ks'
      end
  end.

Fixpoint dropZeros (l : list ascii) : list ascii :=
  match l with
  | "0"%char :: l' => dropZeros l'
  | _ => l
  end.

Definition numberToString (x : Z) : string :=
  let n := decimalDigits x in
  let v := shortest x n (seq 1 n) in
  let n := decimalDigits v in
  if (n <=? 21)%nat then pretty v
  else
    match rev (dropZeros (rev (String.list_ascii_of_string (pretty v)))) with
    | [] => ""
    | [d] => String d ("e+" +:+ pretty (n - 1)%nat)
    | d :: ds =>
        String d ("." +:+ String.string_of_list_ascii ds
                  +:+ "e+" +:+ pretty (n - 1)%nat)
    end.

(** [String(v)].  An integral Number below 2^53 is written with all its
    digits. *)
Definition to_String (v : value) : string :=
  match v with
  | Undefined => "undefined"
  | Null => "null"
  | Boolean true => "true"
  | Boolean false => "false"
  | Number n =>
      if (Z.abs n <? 9007199254740992)%Z then pretty n
      else if (n <? 0)%Z then "-" +:+ numberToString (- n)
      else numberToString n
  | Str s => s
  end.

(** [a ?? b]. *)
Definition coalesce (a b : value) : value :=
  if nullish a then b else a.

Inductive error : Type :=
| TypeError
| HostError (msg : string).

Inductive completion (A : Type) : Type :=
| Normal (a : A)
| Throw (e : error).
Arguments Normal {A} a.
Arguments Throw {A} e.

Definition bind {A B} (c : completion A) (k : A -> completion B)
  : completion B :=
  match c with
  | Normal a => k a
  | Throw e => Throw e
  end.

(** [try { body } catch (e) { handler e }]. *)
Definition try_catch {A} (body : completion A)
    (handler : error -> completion A) : completion A :=
  match body with
  | Normal a => Normal a
  | Throw e => handler e
  end.

Definition is_normal {A} (c : completion A) : bool :=
  match c with
  | Normal _ => true
  | Throw _ => false
  end.

End Js.

Notation "'let*' x ':=' c 'in' k" := (Js.bind c (fun x => k))
  (at level 10, x name, c at level 100, k at level 200).

(** ** playlistMembershipUtils *)

(** [{ uuid: string; title: string }]. *)
Record PlaylistRef : Type := {
  uuid : string;
  title : string
}.

Record SongInPlaylistsResult : Type := {
  existsInPlaylists : bool;
  playlists : list PlaylistRef
}.

Definition emptyResult : SongInPlaylistsResult :=
  {| existsInPlaylists := false; playlists := [] |}.

(** A playlist object of the host.  [pl_title] is [None] when the title
    is nullish; [pl_creator_id] is [pl.creator?.id]. *)
Record Playlist : Type := {
  pl_uuid : string;
  pl_title : option string;
  pl_type : Js.value;
  pl_creator_id : Js.value
}.

(** [entry.artists]: missing, some object that is not an array, or an array
    of which only the first element's [name] matters ([None]: no first
    element, or a nullish one). *)
Inductive Artists : Type :=
| ArtistsMissing
| ArtistsNotArray
| ArtistsArray (first_name : option Js.value).

(** The fields of a playlist entry the lookups read. *)
Record Entry : Type := {
  entry_id : Js.value;
  entry_mediaItemId : Js.value;
  entry_trackId : Js.value;
  entry_itemId : Js.value;
  entry_productId : Js.value;
  entry_title : Js.value;
  entry_artist_name : Js.value;
  entry_artists : Artists
}.

(** An element [it] of the item list: nullish, an entry itself, or an
    object whose [item] property holds the entry ([it?.item ?? it]). *)
Inductive RawItem : Type :=
| ItemNullish
| ItemPlain (e : Entry)
| ItemWrapped (inner : Entry).

(** What [await TidalApi.playlistItems(uuid)] evaluates to. *)
Inductive ItemsResponse : Type :=
| RespArray (l : list RawItem)
| RespWithItems (l : list RawItem)
| RespWithoutItems
| RespBadItems.

(** One fetch: its outcome and the time it takes; fetches that take equally
    long complete in the order they were issued. *)
Record Fetch : Type := {
  latency : nat;
  response : Js.completion ItemsResponse
}.

(** What [await Playlist.getUserPlaylists()] evaluates to. *)
Inductive HelperResult : Type :=
| HelperRejects (e : Js.error)
| HelperArray (arr : list (option Playlist))
| HelperNotArray.

(** [redux.store.getState()], as far as the lookups read it;
    [content_playlists] lists the record in the order in which
    [Object.values] enumerates it. *)
Record StoreState : Type := {
  user_meta_id : Js.value;
  content_playlists : option (list (string * option Playlist))
}.

(** The host as one lookup observes it.  [getState] is [Throw] when the
    call throws and [Normal None] when the state is nullish; a helper is
    [None] when [Playlist] has no such function. *)
Record Host : Type := {
  getState : Js.completion (option StoreState);
  getUserPlaylists : option HelperResult;
  getMyPlaylists : option HelperResult;
  playlistItems : string -> Fetch
}.

(** [pl && pl.type === "USER" && pl.creator?.id === currentUserId]. *)
Definition ownedBy (currentUserId : Js.value) (pl : option Playlist) : bool :=
  match pl with
  | None => false
  | Some pl =>
      Js.strict_eq (pl_type pl) (Js.Str "USER")
      && Js.strict_eq (pl_creator_id pl) currentUserId
  end.

(** [Object.values(playlistsRecord).filter(...)]. *)
Definition ownedPlaylists (currentUserId : Js.value)
    (record : list (string * option Playlist)) : list (option Playlist) :=
  filter (fun pl => ownedBy currentUserId pl = true) (map snd record).

(** The fallback to the [Playlist.*] helpers, with its own [try]/[catch]:
    a rejected helper leaves the (empty) list as it was. *)
Definition fallbackPlaylists (h : Host) : list (option Playlist) :=
  let use (r : HelperResult) :=
    match r with
    | HelperRejects _ => []
    | HelperArray arr => arr
    | HelperNotArray => []
    end in
  match getUserPlaylists h with
  | Some r => use r
  | None =>
      match getMyPlaylists h with
      | Some r => use r
      | None => []
      end
  end.

(** [Array.isArray(items) ? items : items?.items ?? []]; using a list that
    is no array throws. *)
Definition rawListOf (r : ItemsResponse) : Js.completion (list RawItem) :=
  match r with
  | RespArray l => Js.Normal l
  | RespWithItems l => Js.Normal l
  | RespWithoutItems => Js.Normal []
  | RespBadItems => Js.Throw Js.TypeError
  end.

(** [it?.item ?? it]; [None] is a nullish entry. *)
Definition entryOf (it : RawItem) : option Entry :=
  match it with
  | ItemNullish => None
  | ItemPlain e => Some e
  | ItemWrapped e => Some e
  end.

(** [entry?.f]. *)
Definition field (f : Entry -> Js.value) (entry : option Entry) : Js.value :=
  match entry with
  | None => Js.Undefined
  | Some e => f e
  end.

(** [normalize] of the id lookup:
    [v === undefined || v === null ? undefined : String(v)]. *)
Definition normalizeId (v : Js.value) : option string :=
  if Js.nullish v then None else Some (Js.to_String v).

(** The callback of [rawList.some]. *)
Definition entryMatchesId (needle : option string) (it : RawItem) : bool :=
  let entry := entryOf it in
  let candidates :=
    [ field entry_id entry; field entry_mediaItemId entry;
      field entry_trackId entry; field entry_itemId entry;
      field entry_productId entry ] in
  existsb
    (fun cid =>
       match cid with
       | None => false
       | Some c => bool_decide (Some c = needle)
       end)
    (map normalizeId candidates).

Definition refOf (pl : Playlist) : PlaylistRef :=
  {| uuid := pl_uuid pl;
     title := match pl_title pl with
              | Some t => t
              | None => "Untitled Playlist"
              end |}.

(** The [try] block of one callback of
    [userPlaylists.map(async (pl) => { try ... catch })] for a playlist
    object [pl]: when it finishes, and what it pushes, if anything.  A
    fetch error and a malformed item list end in the [catch], which logs
    and pushes nothing. *)
Definition probeItems (h : Host) (matches : RawItem -> bool)
    (pl : Playlist) : nat * option PlaylistRef :=
  let f := playlistItems h (pl_uuid pl) in
  (latency f,
   match Js.bind (response f) rawListOf with
   | Js.Normal rawList =>
       if existsb matches rawList then Some (refOf pl) else None
   | Js.Throw _ => None
   end).

(** One callback.  For a nullish [pl] the [try] block throws on [pl.uuid],
    and so does the [catch], whose message reads [pl.uuid] again: the
    promise of the callback rejects. *)
Definition probePlaylist (h : Host) (matches : RawItem -> bool)
    (pl : option Playlist) : Js.completion (nat * option PlaylistRef) :=
  match pl with
  | None => Js.Throw Js.TypeError
  | Some pl => Js.Normal (probeItems h matches pl)
  end.

(** [await Promise.all(promises)]: the values, or the rejection of a
    promise that rejects. *)
Fixpoint promiseAll {A} (l : list (Js.completion A))
  : Js.completion (list A) :=
  match l with
  | [] => Js.Normal []
  | c :: l' =>
      match c, promiseAll l' with
      | Js.Normal a, Js.Normal r => Js.Normal (a :: r)
      | Js.Throw e, _ => Js.Throw e
      | Js.Normal _, Js.Throw e => Js.Throw e
      end
  end.

(** Callbacks finish by increasing latency, ties in the order of the
    array. *)
Fixpoint insertByLatency {A} (x : nat * A) (l : list (nat * A))
  : list (nat * A) :=
  match l with
  | [] => [x]
  | y :: l' =>
      if (fst x <=? fst y)%nat then x :: y :: l'
      else y :: insertByLatency x l'
  end.

Definition completionOrder {A} (l : list (nat * A)) : list (nat * A) :=
  fold_right insertByLatency [] l.

(** [await Promise.all(userPlaylists.map(...))] and the array the
    callbacks pushed to; the [await] throws when a callback rejects. *)
Definition containingPlaylists (h : Host) (matches : RawItem -> bool)
    (userPlaylists : list (option Playlist))
  : Js.completion (list PlaylistRef) :=
  match promiseAll (map (probePlaylist h matches) userPlaylists) with
  | Js.Normal probes => Js.Normal (omap snd (completionOrder probes))
  | Js.Throw e => Js.Throw e
  end.

(** [state.content?.playlists ?? {}]. *)
Definition playlistsRecord (state : StoreState)
  : list (string * option Playlist) :=
  match content_playlists state with
  | Some r => r
  | None => []
  end.

(** The playlists a lookup enumerates: those of the store that pass the
    ownership filter or, when there are none, what the helper returns. *)
Definition userPlaylistsOf (h : Host) (state : StoreState)
  : list (option Playlist) :=
  let userPlaylists :=
    ownedPlaylists (user_meta_id state) (playlistsRecord state) in
  if (length userPlaylists =? 0)%nat then fallbackPlaylists h
  else userPlaylists.

(** The body shared by both lookups, between the outer [try] and
    [catch]. *)
Definition lookupBody (h : Host) (matches : RawItem -> bool)
  : Js.completion SongInPlaylistsResult :=
  let* state := getState h in
  match state with
  | None => Js.Throw Js.TypeError
  | Some state =>
      let currentUserId := user_meta_id state in
      if negb (Js.truthy currentUserId) then Js.Normal emptyResult
      else
        let userPlaylists := userPlaylistsOf h state in
        if (length userPlaylists =? 0)%nat then Js.Normal emptyResult
        else
          let* containing := containingPlaylists h matches userPlaylists in
          Js.Normal
            {| existsInPlaylists := (0 <? length containing)%nat;
               playlists := containing |}
  end.

Definition checkSongInUserPlaylists (h : Host) (songId : Js.value)
  : Js.completion SongInPlaylistsResult :=
  Js.try_catch
    (lookupBody h (entryMatchesId (normalizeId songId)))
    (fun _ => Js.Normal emptyResult).

(** *** The metadata lookup *)

(** [\s] on code units 0..255: tab, line feed, vertical tab, form feed,
    carriage return, space and U+00A0. *)
Definition isSpace (c : ascii) : bool :=
  let n := nat_of_ascii c in
  (n =? 9)%nat || (n =? 10)%nat || (n =? 11)%nat || (n =? 12)%nat
  || (n =? 13)%nat || (n =? 32)%nat || (n =? 160)%nat.

(** [a-zA-Z0-9]. *)
Definition isAlnum (c : ascii) : bool :=
  let n := nat_of_ascii c in
  ((97 <=? n)%nat && (n <=? 122)%nat)
  || ((65 <=? n)%nat && (n <=? 90)%nat)
  || ((48 <=? n)%nat && (n <=? 57)%nat).

(** [toLowerCase] on one code unit below 256. *)
Definition toLowerChar (c : ascii) : ascii :=
  let n := nat_of_ascii c in
  if ((65 <=? n)%nat && (n <=? 90)%nat)
     || ((192 <=? n)%nat && (n <=? 222)%nat && negb (n =? 215)%nat)
  then ascii_of_nat (n + 32)
  else c.

(** [.replace(/[\s\u00A0]+/g, " ")]; [inRun] tells that the previous
    character was white space. *)
Fixpoint collapseSpaces (inRun : bool) (l : list ascii) : list ascii :=
  match l with
  | [] => []
  | c :: l' =>
      if isSpace c then
        if inRun then collapseSpaces true l'
        else " "%char :: collapseSpaces true l'
      else c :: collapseSpaces false l'
  end.

(** [.replace(/[^a-zA-Z0-9\s]/g, "")]. *)
Definition stripPunctuation (l : list ascii) : list ascii :=
  List.filter (fun c => isAlnum c || isSpace c) l.

Fixpoint trimStart (l : list ascii) : list ascii :=
  match l with
  | [] => []
  | c :: l' => if isSpace c then trimStart l' else l
  end.

(** [.trim()]. *)
Definition trim (l : list ascii) : list ascii :=
  rev (trimStart (rev (trimStart l))).

(** [normalize] of the metadata lookup. *)
Definition normalizeMeta (s : Js.value) : string :=
  let str := Js.to_String (Js.coalesce s (Js.Str "")) in
  String.string_of_list_ascii
    (trim
       (stripPunctuation
          (collapseSpaces false
             (map toLowerChar (String.list_ascii_of_string str))))).

Record SongMeta : Type := {
  meta_title : string;
  meta_artist : option string
}.

(** [entry?.artist?.name ?? (Array.isArray(entry?.artists) &&
    entry.artists[0]?.name) ?? (entry?.artists && entry.artists[0] &&
    entry.artists[0].name)]. *)
Definition entryArtist (entry : option Entry) : Js.value :=
  let artists :=
    match entry with
    | Some e => entry_artists e
    | None => ArtistsMissing
    end in
  let viaArray :=
    match artists with
    | ArtistsArray (Some name) => name
    | ArtistsArray None => Js.Undefined
    | _ => Js.Boolean false
    end in
  let viaFirst :=
    match artists with
    | ArtistsArray (Some name) => name
    | _ => Js.Undefined
    end in
  Js.coalesce (Js.coalesce (field entry_artist_name entry) viaArray) viaFirst.

(** The callback of [rawList.some] in the metadata lookup. *)
Definition entryMatchesMeta (targetTitle targetArtist : string)
    (it : RawItem) : bool :=
  let entry := entryOf it in
  let eTitle := normalizeMeta (field entry_title entry) in
  let eArtist := normalizeMeta (entryArtist entry) in
  if String.eqb targetTitle "" then false
  else if negb (String.eqb targetArtist "") then
    String.eqb eTitle targetTitle && String.eqb eArtist targetArtist
  else String.eqb eTitle targetTitle.

Definition checkSongInUserPlaylistsByMeta (h : Host) (meta : SongMeta)
  : Js.completion SongInPlaylistsResult :=
  let targetTitle := normalizeMeta (Js.Str (meta_title meta)) in
  let targetArtist :=
    match meta_artist meta with
    | Some a =>
        if Js.truthy (Js.Str a) then normalizeMeta (Js.Str a) else ""
    | None => ""
    end in
  Js.try_catch
    (lookupBody h (entryMatchesMeta targetTitle targetArtist))
    (fun _ => Js.Normal emptyResult).

(** ** The membership resolver *)

(** How a lookup ends: [checkSongInUserPlaylists] resolved with a result or
    rejected. *)
Abbreviation Outcome := (Js.completion SongInPlaylistsResult).

(** The life of one computation created by [getMembership]: its [run]
    closure waits in the queue; the lookup is in progress; the task has
    settled (and cached its result) while the [finally] callbacks are still
    to run; the promise handed to the callers has settled. *)
Inductive Phase : Type :=
| Queued
| Running
| Settled (o : Outcome)
| Done (o : Outcome).

Record Job : Type := {
  job_track : string;
  job_phase : Phase
}.

(** The module state.  [jobs] holds the promises created so far, a promise
    being named by its index; [lookups] records the calls of
    [checkSongInUserPlaylists] in order.  A queued [run] closure is the
    promise it settles and the track id of its task. *)
Record Resolver : Type := {
  membershipResultCache : gmap string SongInPlaylistsResult;
  membershipInFlight : gmap string nat;
  inFlightCount : Z;
  membershipQueue : list (nat * string);
  jobs : list Job;
  lookups : list string
}.

Definition MAX_CONCURRENT_MEMBERSHIP : Z := 5.

Definition initialResolver : Resolver :=
  {| membershipResultCache := ∅;
     membershipInFlight := ∅;
     inFlightCount := 0;
     membershipQueue := [];
     jobs := [];
     lookups := [] |}.

(** [run]: [inFlightCount++; task()], the task calling
    [checkSongInUserPlaylists(trackId)]. *)
Definition run (next : nat * string) (r : Resolver) : Resolver :=
  let '(j, trackId) := next in
  {| membershipResultCache := membershipResultCache r;
     membershipInFlight := membershipInFlight r;
     inFlightCount := inFlightCount r + 1;
     membershipQueue := membershipQueue r;
     jobs := <[j := {| job_track := trackId; job_phase := Running |}]> (jobs r);
     lookups := lookups r ++ [trackId] |}.

(** [enqueueMembership(task)]: a new promise, whose [run] starts at once
    below the limit and is pushed on the queue otherwise. *)
Definition enqueueMembership (trackId : string) (r : Resolver)
  : nat * Resolver :=
  let j := length (jobs r) in
  let r1 :=
    {| membershipResultCache := membershipResultCache r;
       membershipInFlight := membershipInFlight r;
       inFlightCount := inFlightCount r;
       membershipQueue := membershipQueue r;
       jobs := jobs r ++ [{| job_track := trackId; job_phase := Queued |}];
       lookups := lookups r |} in
  if (inFlightCount r1 <? MAX_CONCURRENT_MEMBERSHIP)%Z then
    (j, run (j, trackId) r1)
  else
    (j,
     {| membershipResultCache := membershipResultCache r1;
        membershipInFlight := membershipInFlight r1;
        inFlightCount := inFlightCount r1;
        membershipQueue := membershipQueue r1 ++ [(j, trackId)];
        jobs := jobs r1;
        lookups := lookups r1 |}).

(** What a call of [getMembership] hands back: the cached result, or a
    promise. *)
Inductive Handle : Type :=
| Cached (result : SongInPlaylistsResult)
| Pending (j : nat).

Definition getMembership (trackId : string) (r : Resolver)
  : Handle * Resolver :=
  match membershipResultCache r !! trackId with
  | Some cached => (Cached cached, r)
  | None =>
      match membershipInFlight r !! trackId with
      | Some existing => (Pending existing, r)
      | None =>
          let '(p, r1) := enqueueMembership trackId r in
          (Pending p,
           {| membershipResultCache := membershipResultCache r1;
              membershipInFlight := <[trackId := p]> (membershipInFlight r1);
              inFlightCount := inFlightCount r1;
              membershipQueue := membershipQueue r1;
              jobs := jobs r1;
              lookups := lookups r1 |})
      end
  end.

(** The lookup of computation [j] ends with [o] and the task resumes after
    its [await]: a result is stored in the cache, a rejection passes
    through. *)
Definition settle (j : nat) (o : Outcome) (r : Resolver) : option Resolver :=
  match jobs r !! j with
  | Some {| job_track := trackId; job_phase := Running |} =>
      Some
        {| membershipResultCache :=
             match o with
             | Js.Normal result => <[trackId := result]> (membershipResultCache r)
             | Js.Throw _ => membershipResultCache r
             end;
           membershipInFlight := membershipInFlight r;
           inFlightCount := inFlightCount r;
           membershipQueue := membershipQueue r;
           jobs := <[j := {| job_track := trackId; job_phase := Settled o |}]> (jobs r);
           lookups := lookups r |}
  | _ => None
  end.

(** The two [finally] callbacks of a settled computation, which run back to
    back: [membershipInFlight.delete(trackId)], then [inFlightCount--],
    [membershipQueue.shift()] and the start of the closure shifted out. *)
Definition finalize (j : nat) (r : Resolver) : option Resolver :=
  match jobs r !! j with
  | Some {| job_track := trackId; job_phase := Settled o |} =>
      let r1 :=
        {| membershipResultCache := membershipResultCache r;
           membershipInFlight := delete trackId (membershipInFlight r);
           inFlightCount := inFlightCount r - 1;
           membershipQueue := membershipQueue r;
           jobs := <[j := {| job_track := trackId; job_phase := Done o |}]> (jobs r);
           lookups := lookups r |} in
      Some
        match membershipQueue r1 with
        | [] => r1
        | next :: rest =>
            run next
              {| membershipResultCache := membershipResultCache r1;
                 membershipInFlight := membershipInFlight r1;
                 inFlightCount := inFlightCount r1;
                 membershipQueue := rest;
                 jobs := jobs r1;
                 lookups := lookups r1 |}
        end
  | _ => None
  end.

(** [membershipResultCache.delete(trackId)]. *)
Definition invalidate (trackId : string) (r : Resolver) : Resolver :=
  {| membershipResultCache := delete trackId (membershipResultCache r);
     membershipInFlight := membershipInFlight r;
     inFlightCount := inFlightCount r;
     membershipQueue := membershipQueue r;
     jobs := jobs r;
     lookups := lookups r |}.

(** What the promise behind a handle has settled to, if it has. *)
Definition settledTo (r : Resolver) (h : Handle) : option Outcome :=
  match h with
  | Cached result => Some (Js.Normal result)
  | Pending j =>
      match jobs r !! j with
      | Some {| job_phase := Done o |} => Some o
      | _ => None
      end
  end.

(** The atomic steps of the resolver. *)
Inductive Event : Type :=
| EvGetMembership (trackId : string)
| EvSettle (j : nat) (o : Outcome)
| EvFinally (j : nat)
| EvInvalidate (trackId : string).

Definition step (r : Resolver) (e : Event) : option Resolver :=
  match e with
  | EvGetMembership trackId => Some (snd (getMembership trackId r))
  | EvSettle j o => settle j o r
  | EvFinally j => finalize j r
  | EvInvalidate trackId => Some (invalidate trackId r)
  end.

Fixpoint exec (r : Resolver) (tr : list Event) : option Resolver :=
  match tr with
  | [] => Some r
  | e :: tr' =>
      match step r e with
      | Some r' => exec r' tr'
      | None => None
      end
  end.

(** The resolver driven by the lookup of the plugin: a lookup ends with
    what [checkSongInUserPlaylists] returns on the host it observed. *)
Inductive HostEvent : Type :=
| HostGetMembership (trackId : string)
| HostSettle (j : nat) (h : Host)
| HostFinally (j : nat)
| HostInvalidate (trackId : string).

Definition eventOf (r : Resolver) (e : HostEvent) : option Event :=
  match e with
  | HostGetMembership trackId => Some (EvGetMembership trackId)
  | HostSettle j h =>
      match jobs r !! j with
      | Some job =>
          Some (EvSettle j (checkSongInUserPlaylists h (Js.Str (job_track job))))
      | None => None
      end
  | HostFinally j => Some (EvFinally j)
  | HostInvalidate trackId => Some (EvInvalidate trackId)
  end.

Definition hostStep (r : Resolver) (e : HostEvent) : option Resolver :=
  match eventOf r e with
  | Some ev => step r ev
  | None => None
  end.

Fixpoint hostExec (r : Resolver) (tr : list HostEvent) : option Resolver :=
  match tr with
  | [] => Some r
  | e :: tr' =>
      match hostStep r e with
      | Some r' => hostExec r' tr'
      | None => None
      end
  end.

(** Number of calls of the lookup for [trackId] so far. *)
Definition lookupCount (trackId : string) (r : Resolver) : nat :=
  length (filter (fun t => t = trackId) (lookups r)).

(** A computation occupies a slot of the gate from its start until its
    [finally] callback has run. *)
Definition occupiesSlot (job : Job) : bool :=
  match job_phase job with
  | Running | Settled _ => true
  | Queued | Done _ => false
  end.

Definition inFlightComputations (r : Resolver) : nat :=
  length (List.filter occupiesSlot (jobs r)).

(** ** The recently-added overlay *)

(** A pending [setTimeout] callback of [rememberRecentlyAdded]. *)
Record Timer : Type := {
  timer_due : N;
  timer_track : string;
  timer_playlist : string
}.

(** [recentlyAddedByTrack], the pending timers in the order they were set,
    and the clock in milliseconds. *)
Record Overlay : Type := {
  recentlyAddedByTrack : gmap string (gset string);
  timers : list Timer;
  now : N
}.

Definition initialOverlay : Overlay :=
  {| recentlyAddedByTrack := ∅; timers := []; now := 0 |}.

Definition EXPIRY_MS : N := 120000.

(** The callback of the timer: [s.delete(pid)], and
    [recentlyAddedByTrack.delete(tid)] when the set is left empty. *)
Definition expire (tid pid : string) (m : gmap string (gset string))
  : gmap string (gset string) :=
  match m !! tid with
  | None => m
  | Some s =>
      let s' := s ∖ {[pid]} in
      if decide (size s' = 0%nat) then delete tid m else <[tid := s']> m
  end.

Definition rememberRecentlyAdded (tid pid : string) (o : Overlay) : Overlay :=
  let set := default ∅ (recentlyAddedByTrack o !! tid) in
  {| recentlyAddedByTrack := <[tid := set ∪ {[pid]}]> (recentlyAddedByTrack o);
     timers := timers o ++
       [{| timer_due := now o + EXPIRY_MS;
           timer_track := tid;
           timer_playlist := pid |}];
     now := now o |}.

Definition isDue (t : N) (tm : Timer) : bool := (timer_due tm <=? t)%N.

(** The clock advances by [dt]; the timers that are due fire in the order
    they were set, which is the order of their due times as every timer
    has the same delay. *)
Definition advance (dt : N) (o : Overlay) : Overlay :=
  let t := (now o + dt)%N in
  {| recentlyAddedByTrack :=
       foldl (fun m tm => expire (timer_track tm) (timer_playlist tm) m)
         (recentlyAddedByTrack o)
         (List.filter (isDue t) (timers o));
     timers := List.filter (fun tm => negb (isDue t tm)) (timers o);
     now := t |}.

(** The steps of the overlay. *)
Inductive OverlayEvent : Type :=
| OvRemember (tid pid : string)
| OvAdvance (dt : N).

Definition overlayStep (o : Overlay) (e : OverlayEvent) : Overlay :=
  match e with
  | OvRemember tid pid => rememberRecentlyAdded tid pid o
  | OvAdvance dt => advance dt o
  end.

Definition overlayExec (o : Overlay) (tr : list OverlayEvent) : Overlay :=
  foldl overlayStep o tr.

(** [recentlyAddedByTrack.get(tid)?.has(pid)]. *)
Definition recentlyAdded (tid pid : string) (o : Overlay) : bool :=
  match recentlyAddedByTrack o !! tid with
  | Some s => bool_decide (pid ∈ s)
  | None => false
  end.

(** The set of playlists the modal shows as already containing the song
    ([inSet] of [populatePlaylistList]): the id lookup, the metadata lookup
    when that found nothing and a title is known, and the union with the
    recent additions.  [h1] and [h2] are the host as the two lookups
    observe it. *)
Definition uuidSet (c : Js.completion SongInPlaylistsResult) : gset string :=
  match c with
  | Js.Normal res => list_to_set (map uuid (playlists res))
  | Js.Throw _ => ∅
  end.

Definition lookedUpInSet (h1 h2 : Host) (currentSongIdForModal : Js.value)
    (currentSongMetaForModal : option SongMeta) : gset string :=
  let inSet : gset string :=
    if Js.truthy currentSongIdForModal
    then uuidSet (checkSongInUserPlaylists h1 currentSongIdForModal)
    else ∅ in
  match currentSongMetaForModal with
  | Some meta =>
      if bool_decide (size inSet = 0%nat) && Js.truthy (Js.Str (meta_title meta))
      then uuidSet (checkSongInUserPlaylistsByMeta h2 meta)
      else inSet
  | None => inSet
  end.

Definition modalInSet (h1 h2 : Host) (currentSongIdForModal : Js.value)
    (currentSongMetaForModal : option SongMeta) (o : Overlay) : gset string :=
  let inSet :=
    lookedUpInSet h1 h2 currentSongIdForModal currentSongMetaForModal in
  let recent : option (gset string) :=
    if Js.truthy currentSongIdForModal
    then recentlyAddedByTrack o !! Js.to_String currentSongIdForModal
    else None in
  match recent with
  | Some recent => inSet ∪ recent
  | None => inSet
  end.

(** ** The playlist-add operation *)

Inductive NotificationType : Type := success | warning | error.

(** The argument of [redux.actions["content/ADD_MEDIA_ITEMS_TO_PLAYLIST"]]. *)
Record AddPayload : Type := {
  playlistUUID : Js.value;
  mediaItemIdsToAdd : list Js.value;
  addToIndex : Z;
  onDupes : string;
  showNotificationFlag : bool
}.

(** The state of the plugin module: the resolver, the overlay, the
    notifications shown and the calls of the add action. *)
Record Plugin : Type := {
  resolver : Resolver;
  overlay : Overlay;
  notifications : list (string * NotificationType);
  dispatched : list AddPayload
}.

Definition initialPlugin : Plugin :=
  {| resolver := initialResolver;
     overlay := initialOverlay;
     notifications := [];
     dispatched := [] |}.

(** A check box of the modal: [:checked], [:disabled] and
    [dataset.playlistId]. *)
Record Checkbox : Type := {
  cb_checked : bool;
  cb_disabled : bool;
  cb_playlistId : Js.value
}.

(** The song: its id and whether it has a [title] method. *)
Record MediaItem : Type := {
  item_id : Js.value;
  item_hasTitle : bool
}.

Definition showNotification (message : string) (type : NotificationType)
    (p : Plugin) : Plugin :=
  {| resolver := resolver p;
     overlay := overlay p;
     notifications := notifications p ++ [(message, type)];
     dispatched := dispatched p |}.

Definition dquote : string := String (ascii_of_nat 34) EmptyString.

Definition plural (n : nat) : string := if (1 <? n)%nat then "s" else "".

(** [querySelectorAll('... input[type="checkbox"]:checked:not(:disabled)')]
    mapped to [dataset.playlistId]. *)
Definition selectedPlaylistIds (checkboxes : list Checkbox) : list Js.value :=
  map cb_playlistId
    (List.filter (fun cb => cb_checked cb && negb (cb_disabled cb)) checkboxes).

(** The argument of the add action for one playlist. *)
Definition payloadFor (song : MediaItem) (playlistId : Js.value) : AddPayload :=
  {| playlistUUID := playlistId;
     mediaItemIdsToAdd := [item_id song];
     addToIndex := -1;
     onDupes := "SKIP";
     showNotificationFlag := false |}.

(** The add action of the host: whether a call returns or throws, which
    may depend on the calls made before it. *)
Abbreviation AddAction := (list AddPayload -> AddPayload -> Js.completion unit).

(** One turn of the loop over the selection, with its [try]/[catch]. *)
Definition addOne (act : AddAction) (song : MediaItem)
    (acc : Plugin * nat * nat) (playlistId : Js.value) : Plugin * nat * nat :=
  let '(p, successCount, errorCount) := acc in
  let payload := payloadFor song playlistId in
  let p1 :=
    {| resolver := resolver p;
       overlay := overlay p;
       notifications := notifications p;
       dispatched := dispatched p ++ [payload] |} in
  match act (dispatched p) payload with
  | Js.Normal _ =>
      ({| resolver := resolver p1;
          overlay :=
            rememberRecentlyAdded (Js.to_String (item_id song))
              (Js.to_String playlistId) (overlay p1);
          notifications := notifications p1;
          dispatched := dispatched p1 |},
       S successCount, errorCount)
  | Js.Throw _ => (p1, successCount, S errorCount)
  end.

(** The operation from the point where the title is known (or its request
    has failed) to its end. *)
Definition addToSelectedPlaylists_resume
    (act : AddAction) (song : MediaItem)
    (selected : list Js.value) (songTitle : Js.completion string)
    (p : Plugin) : Plugin :=
  match songTitle with
  | Js.Throw _ => showNotification "Error adding song to playlists" error p
  | Js.Normal songTitle =>
      let '(p1, successCount, errorCount) :=
        foldl (addOne act song) (p, 0%nat, 0%nat) selected in
      let p2 :=
        {| resolver := invalidate (Js.to_String (item_id song)) (resolver p1);
           overlay := overlay p1;
           notifications := notifications p1;
           dispatched := dispatched p1 |} in
      if (0 <? errorCount)%nat then
        let message :=
          if (0 <? successCount)%nat then
            dquote +:+ songTitle +:+ dquote +:+ " added to "
            +:+ pretty successCount +:+ " playlist" +:+ plural successCount
            +:+ " (" +:+ pretty errorCount +:+ " failed)"
          else
            "Failed to add " +:+ dquote +:+ songTitle +:+ dquote
            +:+ " to playlists" in
        showNotification message error p2
      else p2
  end.

(** Where the operation stands after its first synchronous part. *)
Inductive AddProgress : Type :=
| AddFinished (p : Plugin)
| AddAwaitingTitle (selected : list Js.value) (p : Plugin).

(** [addToSelectedPlaylists(song)] up to [await song.title()]. *)
Definition addToSelectedPlaylists
    (act : AddAction) (checkboxes : list Checkbox)
    (song : MediaItem) (p : Plugin) : AddProgress :=
  let selected := selectedPlaylistIds checkboxes in
  if (length selected =? 0)%nat then
    AddFinished (showNotification "Please select at least one playlist" error p)
  else if item_hasTitle song then AddAwaitingTitle selected p
  else
    AddFinished
      (addToSelectedPlaylists_resume act song selected
         (Js.Normal "Unknown Song") p).

(** The whole operation when nothing else runs while the title is
    awaited. *)
Definition addToSelectedPlaylists_run
    (act : AddAction) (checkboxes : list Checkbox)
    (song : MediaItem) (songTitle : Js.completion string) (p : Plugin)
  : Plugin :=
  match addToSelectedPlaylists act checkboxes song p with
  | AddFinished p' => p'
  | AddAwaitingTitle selected p' =>
      addToSelectedPlaylists_resume act song selected songTitle p'
  end.

(** ** The row annotation pipeline *)

(** A DOM element: tag name in lower case, attributes, children. *)
#[warnings="-register-all"] Inductive Element : Type :=
| El (tagName : string) (attributes : gmap string string)
     (children : list Element).

Definition tagOf (e : Element) : string :=
  match e with El t _ _ => t end.

Definition getAttribute (name : string) (e : Element) : option string :=
  match e with El _ a _ => a !! name end.

Definition setAttribute (name value : string) (e : Element) : Element :=
  match e with El t a c => El t (<[name := value]> a) c end.

(** The descendants of an element in document order. *)
Fixpoint descendants (e : Element) : list Element :=
  match e with
  | El _ _ cs =>
      (fix go (l : list Element) : list Element :=
         match l with
         | [] => []
         | c :: l' => c :: descendants c ++ go l'
         end) cs
  end.

(** The rest of [s] behind the prefix [pat], if [s] starts with it. *)
Fixpoint startsWith (pat s : list ascii) : option (list ascii) :=
  match pat, s with
  | [], _ => Some s
  | p :: pat', c :: s' => if Ascii.eqb p c then startsWith pat' s' else None
  | _ :: _, [] => None
  end.

(** [s.includes(pat)], the test of the selector [[href*="pat"]]. *)
Fixpoint includes (pat s : list ascii) : bool :=
  match startsWith pat s with
  | Some _ => true
  | None =>
      match s with
      | [] => false
      | _ :: s' => includes pat s'
      end
  end.

Definition isDigit (c : ascii) : bool :=
  let n := nat_of_ascii c in (48 <=? n)%nat && (n <=? 57)%nat.

Fixpoint digitsPrefix (s : list ascii) : list ascii :=
  match s with
  | c :: s' => if isDigit c then c :: digitsPrefix s' else []
  | [] => []
  end.

(** Group 1 of [s.match(/pat(\d+)/)] for a literal [pat]: the digits behind
    the leftmost occurrence of [pat] that is followed by a digit. *)
Fixpoint matchDigitsAfter (pat s : list ascii) : option (list ascii) :=
  let here :=
    match startsWith pat s with
    | Some rest =>
        match digitsPrefix rest with
        | [] => None
        | ds => Some ds
        end
    | None => None
    end in
  match here with
  | Some ds => Some ds
  | None =>
      match s with
      | [] => None
      | _ :: s' => matchDigitsAfter pat s'
      end
  end.

(** A string or [null] used as a condition: [None] when it is falsy. *)
Definition truthyString (o : option string) : option string :=
  match o with
  | Some s => if String.eqb s "" then None else Some s
  | None => None
  end.

Definition attrCandidates : list string :=
  [ "data-track-id"; "data-id"; "data-item-id"; "data-media-item-id";
    "data-product-id"; "data-media-id"; "data-row-id" ].

(** [host.querySelector(`[${attr}]`)]. *)
Definition querySelectorAttr (attr : string) (host : Element)
  : option Element :=
  List.find
    (fun d => match getAttribute attr d with Some _ => true | None => false end)
    (descendants host).

(** [host.querySelector('a[href*="pat"]')]. *)
Definition querySelectorLink (pat : string) (host : Element)
  : option Element :=
  List.find
    (fun d =>
       String.eqb (tagOf d) "a"
       && match getAttribute "href" d with
          | Some v =>
              includes (String.list_ascii_of_string pat)
                (String.list_ascii_of_string v)
          | None => false
          end)
    (descendants host).

(** The loop over [attrCandidates]. *)
Fixpoint firstCandidate (host : Element) (attrs : list string)
  : option string :=
  match attrs with
  | [] => None
  | attr :: rest =>
      match truthyString (getAttribute attr host) with
      | Some direct => Some direct
      | None =>
          let viaChild :=
            match querySelectorAttr attr host with
            | Some child => getAttribute attr child
            | None => None
            end in
          match truthyString viaChild with
          | Some v => Some v
          | None => firstCandidate host rest
          end
      end
  end.

(** [getTrackIdFromRow(host)].  [resolveHref] is the browser's resolution
    of an [href] attribute to the [href] property of the anchor. *)
Definition getTrackIdFromRow (resolveHref : string -> string)
    (host : Element) : option string :=
  let titleCell :=
    if bool_decide (getAttribute "data-test" host = Some "table-cell-title")
    then
      match truthyString (getAttribute "data-id" host) with
      | Some id => Some id
      | None => truthyString (getAttribute "data-track-id" host)
      end
    else None in
  match titleCell with
  | Some id => Some id
  | None =>
      match firstCandidate host attrCandidates with
      | Some id => Some id
      | None =>
          let link :=
            match querySelectorLink "/track/" host with
            | Some l => Some l
            | None => querySelectorLink "track/" host
            end in
          let href :=
            match link with
            | Some l => resolveHref <$> getAttribute "href" l
            | None => None
            end in
          match truthyString href with
          | Some href =>
              let s := String.list_ascii_of_string href in
              let m :=
                match matchDigitsAfter (String.list_ascii_of_string "/track/") s with
                | Some ds => Some ds
                | None => matchDigitsAfter (String.list_ascii_of_string "track/") s
                end in
              String.string_of_list_ascii <$> m
          | None => None
          end
      end
  end.

Definition CHECKED_ATTR : string := "data-ml-playlist-checked".

(** [annotateRowWithMembership(row, result)]: two attributes and the native
    tooltip.  The source fixes [DISABLE_MEMBERSHIP_BADGES = true]; the
    branches that draw badges are dead and left out, here and in
    [processTrackRow]. *)
Definition annotateRowWithMembership (row : Element)
    (result : SongInPlaylistsResult) : Element :=
  let host := row in
  let host :=
    setAttribute "data-ml-in-playlists"
      (Js.to_String (Js.Boolean (existsInPlaylists result))) host in
  let host :=
    setAttribute "data-ml-playlist-count"
      (pretty (length (playlists result))) host in
  let count := length (playlists result) in
  let titles := String.concat ", " (map title (playlists result)) in
  setAttribute "title"
    (if (0 <? count)%nat
     then "In playlists: " +:+ pretty count +:+ " — " +:+ titles
     else "Not in any playlists")
    host.

(** What the pipeline does, in order: a run of [getTrackIdFromRow], the
    warm-up call [MediaItem.fromId], a call of [getMembership]. *)
Inductive RowEffect : Type :=
| Extraction (found : option string)
| WarmResolve (trackId : string)
| ResolverCall (trackId : string) (h : Handle).

Record Pipeline : Type := {
  pipe_resolver : Resolver;
  pipe_effects : list RowEffect
}.

Definition isExtraction (e : RowEffect) : bool :=
  match e with Extraction _ => true | _ => false end.

Definition isResolverCall (e : RowEffect) : bool :=
  match e with ResolverCall _ _ => true | _ => false end.

(** [processTrackRow(row)]: the row as it is left, and the state. *)
Definition processTrackRow (resolveHref : string -> string) (row : Element)
    (w : Pipeline) : Element * Pipeline :=
  let host := row in
  if bool_decide (getAttribute CHECKED_ATTR host = Some "1") then (row, w)
  else
    let trackId := getTrackIdFromRow resolveHref host in
    let w1 :=
      {| pipe_resolver := pipe_resolver w;
         pipe_effects := pipe_effects w ++ [Extraction trackId] |} in
    match truthyString trackId with
    | None => (setAttribute CHECKED_ATTR "1" host, w1)
    | Some trackId =>
        let host := setAttribute CHECKED_ATTR "1" host in
        let '(h, r) := getMembership trackId (pipe_resolver w1) in
        (host,
         {| pipe_resolver := r;
            pipe_effects :=
              pipe_effects w1 ++ [WarmResolve trackId; ResolverCall trackId h] |})
    end.

(** The two branches behind [getMembership(trackId)]: [.then] annotates
    the row, [.catch] reports the error. *)
Inductive RowOutcome : Type :=
| Annotated (row : Element)
| Reported (e : Js.error).

Definition onMembership (row : Element) (o : Outcome) : RowOutcome :=
  match o with
  | Js.Normal res => Annotated (annotateRowWithMembership row res)
  | Js.Throw e => Reported e
  end.

(** ** The periodic row scan *)

(** The attribute part of a simple selector: [[name]], [[name="value"]],
    [[name*="value"]]. *)
Inductive AttrTest : Type :=
| HasAttr (name : string)
| AttrIs (name value : string)
| AttrContains (name value : string).

(** A selector made of an optional tag name and an optional attribute
    test, which is all the plugin uses. *)
Record Selector : Type := {
  sel_tag : option string;
  sel_attr : option AttrTest
}.

Definition attrTestHolds (t : AttrTest) (e : Element) : bool :=
  match t with
  | HasAttr name =>
      match getAttribute name e with Some _ => true | None => false end
  | AttrIs name value =>
      match getAttribute name e with
      | Some v => String.eqb v value
      | None => false
      end
  | AttrContains name value =>
      match getAttribute name e with
      | Some v =>
          includes (String.list_ascii_of_string value)
            (String.list_ascii_of_string v)
      | None => false
      end
  end.

(** [el.matches(sel)]. *)
Definition matchesSelector (sel : Selector) (e : Element) : bool :=
  match sel_tag sel with
  | Some t => String.eqb (tagOf e) t
  | None => true
  end
  && match sel_attr sel with
     | Some t => attrTestHolds t e
     | None => true
     end.

Definition rowSelectors : list Selector :=
  [ {| sel_tag := Some "div"; sel_attr := Some (AttrIs "data-test" "tracklist-row") |};
    {| sel_tag := Some "li"; sel_attr := Some (AttrIs "data-test" "tracklist-row") |};
    {| sel_tag := None; sel_attr := Some (HasAttr "data-track-id") |};
    {| sel_tag := None; sel_attr := Some (AttrIs "data-test" "track-row") |};
    {| sel_tag := None; sel_attr := Some (AttrIs "data-test" "table-cell-title") |};
    {| sel_tag := Some "div"; sel_attr := Some (AttrIs "role" "row") |};
    {| sel_tag := None; sel_attr := Some (AttrIs "role" "row") |};
    {| sel_tag := Some "tr"; sel_attr := None |} ].

(** An element of the document is named by the path that leads to it from
    the root element: the positions of its ancestors and of itself among
    their siblings.  The scan changes attributes only, so a path names the
    same element throughout. *)
Fixpoint nodeAt (p : list nat) (e : Element) : option Element :=
  match p with
  | [] => Some e
  | i :: p' =>
      match e with
      | El _ _ cs =>
          match cs !! i with
          | Some c => nodeAt p' c
          | None => None
          end
      end
  end.

(** The document after the element at [p] has been changed by [f]. *)
Fixpoint updateAt (p : list nat) (f : Element -> Element) (e : Element)
  : Element :=
  match p with
  | [] => f e
  | i :: p' =>
      match e with
      | El t a cs =>
          match cs !! i with
          | Some c => El t a (<[i := updateAt p' f c]> cs)
          | None => e
          end
      end
  end.

(** The paths below a list of siblings, the first of which has position
    [k]. *)
Definition pathsFrom {A} (paths : A -> list (list nat))
  : nat -> list A -> list (list nat) :=
  fix go (k : nat) (l : list A) : list (list nat) :=
    match l with
    | [] => []
    | c :: l' => map (cons k) (paths c) ++ go (S k) l'
    end.

(** The elements of a document in document order. *)
Fixpoint allPaths (e : Element) : list (list nat) :=
  match e with
  | El _ _ cs => [] :: pathsFrom allPaths 0 cs
  end.

(** [document.querySelectorAll(sel)]: a static list, in document order. *)
Definition querySelectorAll (sel : Selector) (doc : Element)
  : list (list nat) :=
  List.filter
    (fun p =>
       match nodeAt p doc with
       | Some e => matchesSelector sel e
       | None => false
       end)
    (allPaths doc).

(** The callback of [nodes.forEach] in [scanRowsOnce]. *)
Definition visitRow (resolveHref : string -> string)
    (acc : Element * Pipeline) (p : list nat) : Element * Pipeline :=
  let '(doc, w) := acc in
  match nodeAt p doc with
  | None => acc
  | Some host =>
      if bool_decide (getAttribute CHECKED_ATTR host = Some "1") then acc
      else
        let '(host', w') := processTrackRow resolveHref host w in
        (updateAt p (fun _ => host') doc, w')
  end.

(** One turn of the loop over [rowSelectors]. *)
Definition scanSelector (resolveHref : string -> string)
    (acc : Element * Pipeline) (sel : Selector) : Element * Pipeline :=
  foldl (visitRow resolveHref) acc (querySelectorAll sel (fst acc)).

(** [scanRowsOnce()]: the document and the state it leaves. *)
Definition scanRowsOnce (resolveHref : string -> string)
    (doc : Element) (w : Pipeline) : Element * Pipeline :=
  foldl (scanSelector resolveHref) (doc, w) rowSelectors.

(** ** The selector observer *)

(** What [observe] reads of a node that a mutation record lists as added:
    its [nodeType], and for an element the answer of [matches(selector)]
    and the list that [querySelectorAll(selector)] returns, each [None]
    when the node has no such method.  Elements are named by numbers: two
    names are equal exactly when they denote the same object, which is
    what the [WeakSet] goes by. *)
Record AddedNode : Type := {
  an_nodeType : Z;
  an_element : nat;
  an_matches : option bool;
  an_querySelectorAll : option (list nat)
}.

Record MutationRecord : Type := {
  mr_type : string;
  mr_addedNodes : list AddedNode
}.

Section Observe.

(** The state that [onAdd] works on, and [onAdd] itself. *)
Context {St : Type}.
Variable onAdd : nat -> St -> St.

(** [if (!processed.has(el)) { processed.add(el); onAdd(el); }], on the
    [WeakSet] and the state. *)
Definition addOnce (st : gset nat * St) (el : nat) : gset nat * St :=
  if decide (el ∈ st.1) then st else ({[el]} ∪ st.1, onAdd el st.2).

(** [process(root)] for a root that has [querySelectorAll], given the
    elements it returns. *)
Definition process (nodes : list nat) (st : gset nat * St) : gset nat * St :=
  foldl addOnce st nodes.

(** The callback of [m.addedNodes.forEach]. *)
Definition onAddedNode (st : gset nat * St) (n : AddedNode) : gset nat * St :=
  if negb (an_nodeType n =? 1)%Z then st
  else
    let st1 :=
      match an_matches n with
      | Some true => addOnce st (an_element n)
      | _ => st
      end in
    match an_querySelectorAll n with
    | Some children => foldl addOnce st1 children
    | None => st1
    end.

(** The callback of the [MutationObserver]. *)
Definition onMutations (st : gset nat * St) (mutations : list MutationRecord)
  : gset nat * St :=
  foldl
    (fun st m =>
       if negb (String.eqb (mr_type m) "childList") then st
       else foldl onAddedNode st (mr_addedNodes m))
    st mutations.

(** [observe(unloads, selector, onAdd)] up to the start of the
    observer: a fresh [WeakSet], and [process(document)]. *)
Definition observe (documentMatches : list nat) (s : St) : gset nat * St :=
  process documentMatches (∅, s).

End Observe.

(** ** The list of the modal *)

(** [a || b]. *)
Definition js_or (a b : Js.value) : Js.value :=
  if Js.truthy a then a else b.

(** A playlist as the modal reads it, from the store or from a helper. *)
Record ListedPlaylist : Type := {
  lp_uuid : Js.value;
  lp_id : Js.value;
  lp_title : Js.value;
  lp_name : Js.value;
  lp_numberOfTracks : Js.value;
  lp_trackCount : Js.value;
  lp_type : Js.value;
  lp_creator_id : Js.value
}.

(** What [await Playlist.getUserPlaylists()] evaluates to in the modal,
    where the value is used without a test for an array: a rejection, an
    array, a nullish value, or another value, which has no [map] method
    and whose [length] is 0 or is not. *)
Inductive ModalHelperResult : Type :=
| MhRejects (e : Js.error)
| MhArray (arr : list (option ListedPlaylist))
| MhNullish
| MhOther (lengthIsZero : bool).

(** [redux.store.getState()] as the modal reads it: [state.user?.meta?.id]
    and [state.content?.playlists], [None] when that is falsy. *)
Record ModalStore : Type := {
  ms_user_meta_id : Js.value;
  ms_playlists : option (list (string * option ListedPlaylist))
}.

(** What the modal meets while it fills the list: whether the container
    [#playlist-list] is in the document when [populatePlaylistList] starts
    and when [populatePlaylistListFromRedux] starts after a failed helper;
    the helpers; the store; the song of the modal, which stays the same
    while the list is filled; the host as the two lookups observe it; the
    overlay when it is read. *)
Record ModalEnv : Type := {
  env_container : bool;
  env_containerLater : bool;
  env_getUserPlaylists : option ModalHelperResult;
  env_getMyPlaylists : option ModalHelperResult;
  env_store : Js.completion (option ModalStore);
  env_songId : Js.value;
  env_songMeta : option SongMeta;
  env_hostById : Host;
  env_hostByMeta : Host;
  env_overlay : Overlay
}.

(** What the template of one list entry is filled with: the id of the
    check box, whether the box is rendered [checked disabled] (and the
    entry says that the playlist contains the song already), the title and
    the number of tracks. *)
Record ListRow : Type := {
  row_uuid : Js.value;
  row_inThis : bool;
  row_title : Js.value;
  row_tracks : Js.value
}.

Inductive ListMessage : Type :=
| NoPlaylistsFound
| ErrorLoadingPlaylists
| UnableToLoadPlaylists.

(** What becomes of the container: nothing, one of the three messages, or
    the list. *)
Inductive ListView : Type :=
| ViewUntouched
| ViewMessage (m : ListMessage)
| ViewRows (rows : list ListRow).

(** [inSet.has(uuid)] for a set of strings. *)
Definition setHas (inSet : gset string) (v : Js.value) : bool :=
  match v with
  | Js.Str s => bool_decide (s ∈ inSet)
  | _ => false
  end.

(** [inSet] when the list is rendered. *)
Definition envInSet (env : ModalEnv) : gset string :=
  modalInSet (env_hostById env) (env_hostByMeta env) (env_songId env)
    (env_songMeta env) (env_overlay env).


(** The callback of [playlistsArray.map] in
    [populatePlaylistListFromRedux]. *)
Definition renderStored (inSet : gset string) (playlist : ListedPlaylist)
  : ListRow :=
  let uuid := lp_uuid playlist in
  {| row_uuid := uuid;
     row_inThis := setHas inSet uuid;
     row_title := js_or (lp_title playlist) (Js.Str "Untitled Playlist");
     row_tracks := js_or (lp_numberOfTracks playlist) (Js.Number 0) |}.

(** The callback of [Object.values(playlists).filter]. *)
Definition shownFromStore (currentUserId : Js.value)
    (playlist : option ListedPlaylist) : bool :=
  match playlist with
  | None => false
  | Some playlist =>
      if negb (Js.strict_eq (lp_type playlist) (Js.Str "USER")) then false
      else if negb (Js.truthy currentUserId) then false
      else Js.strict_eq (lp_creator_id playlist) currentUserId
  end.


(** [populatePlaylistListFromRedux()], with the container there or not
    when it starts. *)
Definition populatePlaylistListFromRedux (container : bool) (env : ModalEnv)
  : ListView :=
  if negb container then ViewUntouched
  else
    match env_store env with
    | Js.Throw _ => ViewMessage ErrorLoadingPlaylists
    | Js.Normal None => ViewMessage ErrorLoadingPlaylists
    | Js.Normal (Some state) =>
        let playlists := default [] (ms_playlists state) in
        if (length playlists =? 0)%nat then ViewMessage NoPlaylistsFound
        else
          let currentUserId := ms_user_meta_id state in
          let playlistsArray :=
            List.filter (shownFromStore currentUserId) (map snd playlists) in
          if (0 <? length playlists)%nat
             && (length playlistsArray =? 0)%nat
             && Js.truthy currentUserId
          then ViewMessage UnableToLoadPlaylists
          else
            (* the filter lets no nullish element through *)
            ViewRows
              (map (renderStored (envInSet env)) (omap id playlistsArray))
    end.


(** * Specification predicates and sample inputs *)

(** ** Membership lookups *)

(** The ownership rule read literally: every playlist of a result stems
    from an enumerated playlist that passes the ownership filter for the
    current user. *)
Definition resultOnlyOwned (h : Host) (songId : Js.value) : Prop :=
  forall state res ref,
    getState h = Js.Normal (Some state) ->
    checkSongInUserPlaylists h songId = Js.Normal res ->
    ref ∈ playlists res ->
    exists pl,
      ownedBy (user_meta_id state) (Some pl) = true
      /\ Some pl ∈ userPlaylistsOf h state
      /\ ref = refOf pl.

(** [existsInPlaylists] tells whether [playlists] has an entry. *)
Definition existsIffNonEmpty (res : SongInPlaylistsResult) : Prop :=
  existsInPlaylists res = bool_decide (playlists res <> []).

Definition sampleEntry (id : Js.value) : Entry :=
  {| entry_id := id;
     entry_mediaItemId := Js.Undefined;
     entry_trackId := Js.Undefined;
     entry_itemId := Js.Undefined;
     entry_productId := Js.Undefined;
     entry_title := Js.Str "Song";
     entry_artist_name := Js.Undefined;
     entry_artists := ArtistsMissing |}.

(** A playlist created by user 8. *)
Definition foreignPlaylist : Playlist :=
  {| pl_uuid := "X";
     pl_title := Some "Theirs";
     pl_type := Js.Str "USER";
     pl_creator_id := Js.Number 8 |}.

(** User 7 is signed in, the store holds no playlist of theirs, and the
    helper [Playlist.getUserPlaylists] returns a playlist of user 8 that
    contains track 123. *)
Definition hostWithForeignFallback : Host :=
  {| getState :=
       Js.Normal
         (Some {| user_meta_id := Js.Number 7; content_playlists := Some [] |});
     getUserPlaylists := Some (HelperArray [Some foreignPlaylist]);
     getMyPlaylists := None;
     playlistItems := fun _ =>
       {| latency := 0;
          response := Js.Normal (RespArray [ItemPlain (sampleEntry (Js.Number 123))]) |} |}.

(** A host whose store cannot be read. *)
Definition hostBroken : Host :=
  {| getState := Js.Throw (Js.HostError "store unavailable");
     getUserPlaylists := None;
     getMyPlaylists := None;
     playlistItems := fun _ => {| latency := 0; response := Js.Throw Js.TypeError |} |}.

(** User 7 owns playlist A, which contains track 123. *)
Definition ownPlaylist : Playlist :=
  {| pl_uuid := "A";
     pl_title := Some "Mine";
     pl_type := Js.Str "USER";
     pl_creator_id := Js.Number 7 |}.

Definition hostWithOwnPlaylist : Host :=
  {| getState :=
       Js.Normal
         (Some {| user_meta_id := Js.Number 7;
                  content_playlists :=
                    Some [("A", Some ownPlaylist); ("X", Some foreignPlaylist)] |});
     getUserPlaylists := None;
     getMyPlaylists := None;
     playlistItems := fun _ =>
       {| latency := 0;
          response := Js.Normal (RespArray [ItemPlain (sampleEntry (Js.Number 123))]) |} |}.

(** User 7 owns playlist A, which contains track 123, and playlist B, which
    is empty and answers first; playlist X of user 8 contains the track as
    well. *)
Definition emptyPlaylist : Playlist :=
  {| pl_uuid := "B";
     pl_title := None;
     pl_type := Js.Str "USER";
     pl_creator_id := Js.Number 7 |}.

Definition hostWithTwoPlaylists : Host :=
  {| getState :=
       Js.Normal
         (Some {| user_meta_id := Js.Number 7;
                  content_playlists :=
                    Some [("A", Some ownPlaylist); ("X", Some foreignPlaylist);
                          ("B", Some emptyPlaylist)] |});
     getUserPlaylists := Some (HelperArray [Some foreignPlaylist]);
     getMyPlaylists := None;
     playlistItems := fun u =>
       if String.eqb u "B"
       then {| latency := 1; response := Js.Normal (RespWithItems []) |}
       else {| latency := 2;
               response :=
                 Js.Normal (RespArray [ItemWrapped (sampleEntry (Js.Str "123"))]) |} |}.

(** The same user after the track has left every playlist. *)
Definition hostWithEmptyPlaylist : Host :=
  {| getState := getState hostWithOwnPlaylist;
     getUserPlaylists := None;
     getMyPlaylists := None;
     playlistItems := fun _ =>
       {| latency := 0; response := Js.Normal (RespArray []) |} |}.

(** ** Resolver *)

Definition isPending (ph : Phase) : bool :=
  match ph with
  | Queued | Running => true
  | Settled _ | Done _ => false
  end.

Definition isDone (ph : Phase) : bool :=
  match ph with
  | Done _ => true
  | _ => false
  end.

(** The states reached from the initial one, whatever the lookups
    return. *)
Definition reachable (r : Resolver) : Prop :=
  exists tr, exec initialResolver tr = Some r.

(** The states reached when the lookups are runs of
    [checkSongInUserPlaylists]. *)
Definition hostReachable (r : Resolver) : Prop :=
  exists tr, hostExec initialResolver tr = Some r.

(** What holds of every reachable state: the in-flight map names exactly
    the computations that are not done; a computation that has not settled
    has nothing cached for its track; a settled one agrees with the cache;
    the queue holds exactly the waiting closures, once each; the counter
    counts the occupied slots, is bounded by the limit, and is at the limit
    while closures wait. *)
Record ResolverInv (r : Resolver) : Prop := {
  inv_inflight : forall T j,
    membershipInFlight r !! T = Some j ->
    exists job, jobs r !! j = Some job /\ job_track job = T
                /\ isDone (job_phase job) = false;
  inv_active : forall j job,
    jobs r !! j = Some job -> isDone (job_phase job) = false ->
    membershipInFlight r !! job_track job = Some j;
  inv_pending : forall j job,
    jobs r !! j = Some job -> isPending (job_phase job) = true ->
    membershipResultCache r !! job_track job = None;
  inv_settled : forall j job o res,
    jobs r !! j = Some job -> job_phase job = Settled o ->
    membershipResultCache r !! job_track job = Some res ->
    o = Js.Normal res;
  inv_queue : forall j T,
    (j, T) ∈ membershipQueue r
    <-> jobs r !! j = Some {| job_track := T; job_phase := Queued |};
  inv_nodup : NoDup (membershipQueue r);
  inv_count : inFlightCount r = Z.of_nat (inFlightComputations r);
  inv_bound : (inFlightCount r <= MAX_CONCURRENT_MEMBERSHIP)%Z;
  inv_full : membershipQueue r <> [] ->
             inFlightCount r = MAX_CONCURRENT_MEMBERSHIP
}.

(** How many lookups for [T] can still start without an invalidation or a
    failed lookup in between: one when nothing is cached and nothing is in
    flight (or what is in flight has settled already), one when the
    computation in flight still waits in the queue. *)
Definition pendingLookups (T : string) (r : Resolver) : nat :=
  let uncached :=
    match membershipResultCache r !! T with
    | Some _ => 0%nat
    | None => 1%nat
    end in
  match membershipInFlight r !! T with
  | None => uncached
  | Some j =>
      match job_phase <$> jobs r !! j with
      | Some Queued => 1%nat
      | Some Running => 0%nat
      | Some (Settled _) => uncached
      | _ => 0%nat
      end
  end.

(** An event that neither invalidates [T] nor reports a failed lookup. *)
Definition quietFor (T : string) (e : Event) : Prop :=
  match e with
  | EvInvalidate T' => T' <> T
  | EvSettle _ (Js.Throw _) => False
  | _ => True
  end.

(** The computation in flight for [T] has settled and its result was
    dropped from the cache afterwards. *)
Definition staleInFlight (T : string) (r : Resolver) : Prop :=
  exists j job o,
    membershipInFlight r !! T = Some j
    /\ jobs r !! j = Some job
    /\ job_phase job = Settled o
    /\ membershipResultCache r !! T = None.

(** Every settled computation has a result. *)
Definition resolvedJob (job : Job) : Prop :=
  forall o,
    job_phase job = Settled o \/ job_phase job = Done o ->
    exists res, o = Js.Normal res.

Definition allResolved (r : Resolver) : Prop :=
  Forall resolvedJob (jobs r).

(** The state a run of the resolver ends in ([initialResolver] when the run
    is not possible). *)
Definition stateAfter (tr : list Event) : Resolver :=
  default initialResolver (exec initialResolver tr).

Definition hostStateAfter (tr : list HostEvent) : Resolver :=
  default initialResolver (hostExec initialResolver tr).

(** Six rows with six different tracks are processed at once. *)
Definition sixRequests : list Event :=
  [ EvGetMembership "1"; EvGetMembership "2"; EvGetMembership "3";
    EvGetMembership "4"; EvGetMembership "5"; EvGetMembership "6" ].

(** The lookup meets an error that reaches its outer [catch]: the store
    cannot be read, or a callback of [Promise.all] rejects. *)
Definition lookupFails (h : Host) (songId : Js.value) : Prop :=
  exists e, lookupBody h (entryMatchesId (normalizeId songId)) = Js.Throw e.

Definition isFinallyOf (j : nat) (e : HostEvent) : bool :=
  match e with
  | HostFinally j' => (j' =? j)%nat
  | _ => false
  end.

(** The lookup of computation [j] for [T] has ended with [res]: the cache
    holds [res] for [T], the lookup has been called [c] times for [T], and
    the computation is in the in-flight map until its [finally] callbacks
    have run ([finalized]). *)
Definition lookupStored (T : string) (j : nat) (res : SongInPlaylistsResult)
    (c : nat) (finalized : bool) (r : Resolver) : Prop :=
  membershipResultCache r !! T = Some res
  /\ lookupCount T r = c
  /\ if finalized
     then jobs r !! j
          = Some {| job_track := T; job_phase := Done (Js.Normal res) |}
          /\ membershipInFlight r !! T = None
     else jobs r !! j
          = Some {| job_track := T; job_phase := Settled (Js.Normal res) |}
          /\ membershipInFlight r !! T = Some j.

(** The failure rule read literally: after a lookup that met an error
    nothing is cached for the track, and the next call makes the lookup
    again. *)
Definition failedLookupIsRetried : Prop :=
  forall (h : Host) (T : string) (r : Resolver),
    lookupFails h (Js.Str T) ->
    hostExec initialResolver
      [ HostGetMembership T; HostSettle 0 h; HostFinally 0 ] = Some r ->
    membershipResultCache r !! T = None
    /\ lookupCount T (snd (getMembership T r)) = S (lookupCount T r).

(** Track 123 is requested, the lookup fails as the store cannot be read,
    the [finally] callbacks run, and the track is requested again. *)
Definition lookupOnBrokenHost : list HostEvent :=
  [ HostFinally 0; HostGetMembership "123" ].

(** The handle of a call for [T] is backed by the cache: a cached result is
    still cached, and a computation that has settled did so with a result
    that the cache holds. *)
Definition servedBy (T : string) (h : Handle) (r : Resolver) : Prop :=
  match h with
  | Cached res => membershipResultCache r !! T = Some res
  | Pending j =>
      exists job,
        jobs r !! j = Some job /\ job_track job = T
        /\ forall o,
             job_phase job = Settled o \/ job_phase job = Done o ->
             exists res, o = Js.Normal res
                         /\ membershipResultCache r !! T = Some res
  end.

(** [K] calls of [getMembership] for the same track with nothing in
    between. *)
Fixpoint callMany (T : string) (K : nat) (r : Resolver)
  : list Handle * Resolver :=
  match K with
  | O => ([], r)
  | S K' =>
      let '(h, r1) := getMembership T r in
      let '(hs, r2) := callMany T K' r1 in
      (h :: hs, r2)
  end.

(** Cache coherence read literally: of two calls in sequence with no
    invalidation in between, the second returns the result of the first
    from the cache. *)
Definition sequentialCallsCoherent : Prop :=
  forall (T : string) (tr0 tr : list HostEvent) (r0 r : Resolver)
         (res : SongInPlaylistsResult),
    hostExec initialResolver tr0 = Some r0 ->
    hostExec (snd (getMembership T r0)) tr = Some r ->
    HostInvalidate T ∉ tr ->
    settledTo r (fst (getMembership T r0)) = Some (Js.Normal res) ->
    getMembership T r = (Cached res, r).

(** A lookup for track 123 has stored its result, and the add operation
    drops it from the cache before the [finally] callbacks have run. *)
Definition invalidatedBeforeFinally : list HostEvent :=
  [ HostGetMembership "123";
    HostSettle 0 hostWithOwnPlaylist;
    HostInvalidate "123" ].

(** A lookup for track 123 has completed. *)
Definition completedLookup : list HostEvent :=
  [ HostGetMembership "123";
    HostSettle 0 hostWithOwnPlaylist;
    HostFinally 0 ].

(** ** Overlay *)

(** [P] is in the set kept for [T]. *)
Definition inOverlay (T P : string) (m : gmap string (gset string)) : bool :=
  match m !! T with
  | Some s => bool_decide (P ∈ s)
  | None => false
  end.

Definition timerFor (T P : string) (tm : Timer) : bool :=
  String.eqb (timer_track tm) T && String.eqb (timer_playlist tm) P.

(** A timer set by an earlier add of the pair is still pending. *)
Definition hasTimer (T P : string) (o : Overlay) : bool :=
  existsb (timerFor T P) (timers o).

(** No track is mapped to an empty set. *)
Definition noEmptySet (m : gmap string (gset string)) : Prop :=
  forall T s, m !! T = Some s -> s <> ∅.

(** What holds of every state of the overlay: each pending timer is due
    within the window ahead, and each pair in the overlay has a pending
    timer. *)
Definition overlayInv (o : Overlay) : Prop :=
  (forall tm, In tm (timers o) ->
     (now o < timer_due tm)%N /\ (timer_due tm <= now o + EXPIRY_MS)%N)
  /\ forall T P, recentlyAdded T P o = true -> hasTimer T P o = true.

(** The earliest time at which a timer pending for the pair is due, and
    [d0] when that is earlier or no such timer is pending. *)
Definition firstDue (T P : string) (o : Overlay) (d0 : N) : N :=
  fold_right
    (fun tm d => if timerFor T P tm then N.min (timer_due tm) d else d)
    d0 (timers o).

(** The pair is in the overlay; [d], which lies ahead, is the earliest
    time at which a timer pending for the pair is due. *)
Definition entryLive (T P : string) (d : N) (o : Overlay) : Prop :=
  (now o < d)%N
  /\ recentlyAdded T P o = true
  /\ (exists tm, In tm (timers o) /\ timerFor T P tm = true
                 /\ timer_due tm = d)
  /\ forall tm, In tm (timers o) -> timerFor T P tm = true ->
               (d <= timer_due tm)%N.

(** The pair has left the overlay at [d]. *)
Definition entryGone (T P : string) (d : N) (o : Overlay) : Prop :=
  (d <= now o)%N /\ recentlyAdded T P o = false.

(** The expiry rule read literally: an entry recorded at some time is
    there until the window has passed and gone from then on, when the pair
    is not added again. *)
Definition expiresAfterWindow : Prop :=
  forall (tr0 : list OverlayEvent) (T P : string) (tr : list OverlayEvent),
    OvRemember T P ∉ tr ->
    let o0 := overlayExec initialOverlay tr0 in
    let o := overlayExec (rememberRecentlyAdded T P o0) tr in
    ((now o < now o0 + EXPIRY_MS)%N -> recentlyAdded T P o = true)
    /\ ((now o0 + EXPIRY_MS <= now o)%N -> recentlyAdded T P o = false).

(** The pair is added at 0 s and at 60 s; the first timer removes it at
    120 s while the second timer stays pending; the clock reaches 150 s. *)
Definition staleTimerPending : list OverlayEvent :=
  [ OvRemember "123" "B"; OvAdvance 60000; OvRemember "123" "B";
    OvAdvance 60000; OvAdvance 30000 ].

(** Another playlist of the same track is added, and 30 s pass. *)
Definition otherEntrySameTrack : list OverlayEvent :=
  [ OvRemember "123" "C"; OvAdvance 30000 ].

(** ** The playlist-add operation *)

(** The invalidation rule read literally: once the operation is over for a
    non-empty selection, nothing is cached for the track. *)
Definition addAlwaysInvalidates : Prop :=
  forall (act : AddAction) (checkboxes : list Checkbox)
         (song : MediaItem) (songTitle : Js.completion string) (p : Plugin),
    selectedPlaylistIds checkboxes <> [] ->
    membershipResultCache
      (resolver (addToSelectedPlaylists_run act checkboxes song songTitle p))
      !! Js.to_String (item_id song) = None.

(** Track 123, whose [title] method is there. *)
Definition song123 : MediaItem :=
  {| item_id := Js.Number 123; item_hasTitle := true |}.

(** Playlist B is ticked; playlist A is ticked and disabled, as it holds
    the song already. *)
Definition tickedB : list Checkbox :=
  [ {| cb_checked := true; cb_disabled := true; cb_playlistId := Js.Str "A" |};
    {| cb_checked := true; cb_disabled := false; cb_playlistId := Js.Str "B" |} ].

Definition tickedNone : list Checkbox :=
  [ {| cb_checked := true; cb_disabled := true; cb_playlistId := Js.Str "A" |};
    {| cb_checked := false; cb_disabled := false; cb_playlistId := Js.Str "B" |} ].

(** The add action of a host on which every add succeeds. *)
Definition actOk : AddAction :=
  fun _ _ => Js.Normal tt.

(** The add action of a host on which playlist C does not exist. *)
Definition actWithoutC : AddAction :=
  fun _ payload =>
    if Js.strict_eq (playlistUUID payload) (Js.Str "C")
    then Js.Throw (Js.HostError "no such playlist")
    else Js.Normal tt.

(** Playlists B and C are ticked. *)
Definition tickedBC : list Checkbox :=
  [ {| cb_checked := true; cb_disabled := false; cb_playlistId := Js.Str "B" |};
    {| cb_checked := true; cb_disabled := false; cb_playlistId := Js.Str "C" |} ].

(** The plugin after a lookup for track 123 has completed. *)
Definition pluginWithCachedResult : Plugin :=
  {| resolver := hostStateAfter completedLookup;
     overlay := initialOverlay;
     notifications := [];
     dispatched := [] |}.

(** The plugin when the lookup for track 123 has stored its result and
    the [finally] callbacks of the computation are still to run. *)
Definition pluginWithSettledLookup : Plugin :=
  {| resolver :=
       hostStateAfter
         [ HostGetMembership "123"; HostSettle 0 hostWithOwnPlaylist ];
     overlay := initialOverlay;
     notifications := [];
     dispatched := [] |}.

(** ** Rows *)

(** A row of a track list with the id on a descendant. *)
Definition sampleRow : Element :=
  El "div" {[ "data-test" := "tracklist-row" ]}
    [ El "span" {[ "data-track-id" := "123" ]} [] ].

(** A row without any id. *)
Definition rowWithoutId : Element :=
  El "div" {[ "role" := "row" ]} [ El "span" ∅ [] ].

Definition initialPipeline : Pipeline :=
  {| pipe_resolver := initialResolver; pipe_effects := [] |}.

Definition extractions (w : Pipeline) : nat :=
  length (List.filter isExtraction (pipe_effects w)).

Definition resolverCalls (w : Pipeline) : nat :=
  length (List.filter isResolverCall (pipe_effects w)).

Definition isMarked (row : Element) : Prop :=
  getAttribute CHECKED_ATTR row = Some "1".

(** * Further properties: predicates and sample inputs *)

(** ** Lookups *)

(** The item list of a playlist as a lookup receives it, when the fetch
    succeeds and delivers a list. *)
Definition deliveredItems (h : Host) (pl : Playlist) : option (list RawItem) :=
  match Js.bind (response (playlistItems h (pl_uuid pl))) rawListOf with
  | Js.Normal rawList => Some rawList
  | Js.Throw _ => None
  end.

(** The uuids of the playlists a lookup enumerates. *)
Definition enumeratedUuids (l : list (option Playlist)) : list string :=
  omap (fun pl => pl_uuid <$> pl) l.

(** [a-z0-9]. *)
Definition isLowerAlnum (c : ascii) : bool :=
  let n := nat_of_ascii c in
  ((97 <=? n)%nat && (n <=? 122)%nat) || ((48 <=? n)%nat && (n <=? 57)%nat).

(** The characters of a normalised title or artist. *)
Definition normalChar (c : ascii) : bool :=
  isLowerAlnum c || Ascii.eqb c " ".

(** Every code unit below 256. *)
Definition allChars : list ascii := map ascii_of_nat (seq 0 256).

(** User 7 owns playlist A, whose items cannot be fetched, and playlist B,
    which contains track 123. *)
Definition storeOfFailingFetch : StoreState :=
  {| user_meta_id := Js.Number 7;
     content_playlists :=
       Some [("A", Some ownPlaylist); ("B", Some emptyPlaylist)] |}.

Definition hostWithFailingFetch : Host :=
  {| getState := Js.Normal (Some storeOfFailingFetch);
     getUserPlaylists := None;
     getMyPlaylists := None;
     playlistItems := fun u =>
       if String.eqb u "A"
       then {| latency := 1; response := Js.Throw (Js.HostError "offline") |}
       else {| latency := 2;
               response :=
                 Js.Normal (RespWithItems [ItemWrapped (sampleEntry (Js.Str "123"))]) |} |}.

(** The store of user 7 holds no playlist, and the helper returns an array
    whose first element is [null] and whose second is playlist A, which
    contains track 123. *)
Definition hostWithNullishPlaylist : Host :=
  {| getState :=
       Js.Normal
         (Some {| user_meta_id := Js.Number 7; content_playlists := Some [] |});
     getUserPlaylists := Some (HelperArray [None; Some ownPlaylist]);
     getMyPlaylists := None;
     playlistItems := fun _ =>
       {| latency := 1;
          response :=
            Js.Normal (RespArray [ItemPlain (sampleEntry (Js.Str "123"))]) |} |}.

(** An item carries the song id: the entry (the item itself, or what its
    [item] property holds) has the id, as a string, in one of the five
    fields the lookup reads. *)
Definition itemHasId (songId : Js.value) (it : RawItem) : Prop :=
  Js.nullish songId = false
  /\ exists e v,
       entryOf it = Some e
       /\ v ∈ [ entry_id e; entry_mediaItemId e; entry_trackId e;
                entry_itemId e; entry_productId e ]
       /\ Js.nullish v = false
       /\ Js.to_String v = Js.to_String songId.

(** ** Resolver *)

(** The steps a computation has ahead of it: leaving the queue, the end of
    its lookup, its [finally] callbacks. *)
Definition phaseWeight (ph : Phase) : nat :=
  match ph with
  | Queued => 3
  | Running => 2
  | Settled _ => 1
  | Done _ => 0
  end.

Definition pendingWork (r : Resolver) : nat :=
  sum_list (map (fun job => phaseWeight (job_phase job)) (jobs r)).

(** The end of a lookup and the [finally] callbacks: the events that need
    no new call of [getMembership]. *)
Definition isCompletion (e : Event) : bool :=
  match e with
  | EvSettle _ _ | EvFinally _ => true
  | _ => false
  end.

(** Nothing is left to do: every promise has settled, no closure waits, no
    slot is taken and no track is in flight. *)
Definition idle (r : Resolver) : Prop :=
  Forall (fun job => isDone (job_phase job) = true) (jobs r)
  /\ membershipQueue r = []
  /\ inFlightCount r = 0%Z
  /\ membershipInFlight r = ∅.

(** The lookups of a run end as [outcome] tells. *)
Definition endsAs (outcome : nat -> Outcome) (e : Event) : Prop :=
  match e with
  | EvSettle j o => o = outcome j
  | _ => True
  end.

(** Eight rows with eight different tracks are processed at once and the
    first lookup has ended. *)
Definition eightRequests : list Event :=
  [ EvGetMembership "1"; EvGetMembership "2"; EvGetMembership "3";
    EvGetMembership "4"; EvGetMembership "5"; EvGetMembership "6";
    EvGetMembership "7"; EvGetMembership "8";
    EvSettle 0 (Js.Normal emptyResult) ].

(** ** Overlay *)

(** The same for one pair that is not added again: its timers are due by
    [d]. *)
Definition windowInv (T P : string) (d : N) (o : Overlay) : Prop :=
  (forall tm, In tm (timers o) -> (now o < timer_due tm)%N)
  /\ (forall tm, In tm (timers o) -> timerFor T P tm = true ->
        (timer_due tm <= d)%N)
  /\ (recentlyAdded T P o = true -> hasTimer T P o = true).

(** ** The playlist-add operation *)

(** Whether the add of the [i]-th selected playlist succeeds, given the
    calls of the action made before the loop and in its earlier turns. *)
Definition addSucceeds (act : AddAction) (song : MediaItem)
    (before : list AddPayload) (selected : list Js.value) (i : nat) : bool :=
  match selected !! i with
  | Some playlistId =>
      Js.is_normal
        (act (before ++ map (payloadFor song) (take i selected))
           (payloadFor song playlistId))
  | None => false
  end.

(** ** Rows *)

Definition childrenOf (e : Element) : list Element :=
  match e with El _ _ cs => cs end.

(** The attributes the pipeline writes. *)
Definition pipelineAttributes : list string :=
  [ CHECKED_ATTR; "data-ml-in-playlists"; "data-ml-playlist-count"; "title" ].

(** The id is the value of [attr] on the row or on one of its
    descendants. *)
Definition idFromAttribute (host : Element) (attr id : string) : Prop :=
  getAttribute attr host = Some id
  \/ exists d, In d (descendants host) /\ getAttribute attr d = Some id.

(** [ds] is what the group of the regular expression [/pat(\d+)/]
    captures in [s]: the digits behind the leftmost occurrence of [pat]
    that a digit follows, up to the first character that is no digit. *)
Definition capturedDigits (pat s ds : list ascii) : Prop :=
  exists pre post,
    s = pre ++ pat ++ ds ++ post
    /\ ds <> []
    /\ forallb isDigit ds = true
    /\ (forall c post', post = c :: post' -> isDigit c = false)
    /\ (forall pre' c rest,
          s = pre' ++ pat ++ c :: rest -> isDigit c = true ->
          (length pre <= length pre')%nat).

(** The regular expression [/pat(\d+)/] does not match [s]. *)
Definition noDigitsAfter (pat s : list ascii) : Prop :=
  forall pre c rest, s = pre ++ pat ++ c :: rest -> isDigit c = false.

(** The element matches the selector [a[href*="pat"]]. *)
Definition isAnchorWith (pat : string) (d : Element) : Prop :=
  tagOf d = "a"
  /\ exists v pre post,
       getAttribute "href" d = Some v
       /\ String.list_ascii_of_string v
          = pre ++ String.list_ascii_of_string pat ++ post.

(** [link] is the first descendant of [host], in document order, that
    matches [a[href*="pat"]]. *)
Definition firstAnchorWith (pat : string) (host link : Element) : Prop :=
  exists before after,
    descendants host = before ++ link :: after
    /\ isAnchorWith pat link
    /\ forall d, In d before -> ~ isAnchorWith pat d.

(** The id comes from a link: the anchor is the first one below the row
    whose [href] attribute holds [/track/] or, when there is none, the
    first one whose attribute holds [track/]; the id is what
    [/\/track\/(\d+)/] captures in its resolved address or, when that
    does not match, what [/track\/(\d+)/] captures. *)
Definition idFromLink (resolveHref : string -> string) (host : Element)
    (id : string) : Prop :=
  exists link href,
    (firstAnchorWith "/track/" host link
     \/ ((forall d, In d (descendants host) -> ~ isAnchorWith "/track/" d)
         /\ firstAnchorWith "track/" host link))
    /\ getAttribute "href" link = Some href
    /\ let s := String.list_ascii_of_string (resolveHref href) in
       let ds := String.list_ascii_of_string id in
       capturedDigits (String.list_ascii_of_string "/track/") s ds
       \/ (noDigitsAfter (String.list_ascii_of_string "/track/") s
           /\ capturedDigits (String.list_ascii_of_string "track/") s ds).

(** A row whose only hint at the track is a link. *)
Definition rowWithLink : Element :=
  El "div" {[ "data-test" := "tracklist-row" ]}
    [ El "a" {[ "href" := "/track/4711?u" ]} [] ].

(** ** The row scan *)

(** The tag and the attributes of an element, without its children. *)
Definition shallow (e : Element) : string * gmap string string :=
  match e with El t a _ => (t, a) end.

Definition isRow (e : Element) : bool :=
  existsb (fun sel => matchesSelector sel e) rowSelectors.

Definition isMarkedb (e : Element) : bool :=
  bool_decide (getAttribute CHECKED_ATTR e = Some "1").

(** The rows of a document that the scan has not processed yet. *)
Definition unprocessedRows (doc : Element) : list (list nat) :=
  List.filter
    (fun p =>
       match nodeAt p doc with
       | Some e => isRow e && negb (isMarkedb e)
       | None => false
       end)
    (allPaths doc).

(** The name of the attribute a selector tests, if it tests one. *)
Definition selectorAttribute (sel : Selector) : option string :=
  match sel_attr sel with
  | Some (HasAttr name) => Some name
  | Some (AttrIs name _) => Some name
  | Some (AttrContains name _) => Some name
  | None => None
  end.

(** A row of a table with a title cell that carries the id, and a
    document that holds it. *)
Definition sampleTableRow : Element :=
  El "div" {[ "role" := "row" ]}
    [ El "div" {[ "data-test" := "table-cell-title"; "data-id" := "7" ]} [];
      El "span" ∅ [] ].

Definition sampleDocument : Element :=
  El "html" ∅ [ El "body" ∅ [ sampleTableRow; El "p" ∅ [] ] ].

(** The attribute [name] of the element at [q], if there is such an
    element and it has the attribute. *)
Definition attributeAt (doc : Element) (q : list nat) (name : string)
  : option string :=
  nodeAt q doc ≫= getAttribute name.

Definition markedAt (doc : Element) (q : list nat) : bool :=
  bool_decide (attributeAt doc q CHECKED_ATTR = Some "1").

Definition matchAt (sel : Selector) (doc : Element) (q : list nat) : bool :=
  match nodeAt q doc with
  | Some e => matchesSelector sel e
  | None => false
  end.

Definition rowAt (doc : Element) (q : list nat) : bool :=
  match nodeAt q doc with
  | Some e => isRow e
  | None => false
  end.

(** [doc'] is [doc] with the mark set on some rows that had none: the same
    elements at the same places, with the same tags and the same
    attributes but for the mark. *)
Definition marksAdded (doc doc' : Element) : Prop :=
  allPaths doc' = allPaths doc
  /\ forall q,
       tagOf <$> nodeAt q doc' = tagOf <$> nodeAt q doc
       /\ (forall name, name <> CHECKED_ATTR ->
             attributeAt doc' q name = attributeAt doc q name)
       /\ (attributeAt doc' q CHECKED_ATTR = attributeAt doc q CHECKED_ATTR
           \/ (rowAt doc q = true /\ markedAt doc q = false
               /\ attributeAt doc' q CHECKED_ATTR = Some "1")).

(** ** The selector observer *)

(** The elements one added node brings: itself when it is an element that
    matches, and its matching descendants. *)
Definition reportedByNode (n : AddedNode) : list nat :=
  if negb (an_nodeType n =? 1)%Z then []
  else
    match an_matches n with
    | Some true => [an_element n]
    | _ => []
    end
    ++ match an_querySelectorAll n with
       | Some children => children
       | None => []
       end.

(** The elements a batch of mutation records brings, in the order the
    callback meets them. *)
Definition reportedBy (mutations : list MutationRecord) : list nat :=
  flat_map
    (fun m =>
       if negb (String.eqb (mr_type m) "childList") then []
       else flat_map reportedByNode (mr_addedNodes m))
    mutations.

(** The calls of [onAdd] that lead from [s] to [s']. *)
Definition callsOf {St} (onAdd : nat -> St -> St) (s : St) (calls : list nat)
  : St :=
  foldl (fun s el => onAdd el s) s calls.

(** The state of an [observe] call: [onAdd] has been called once for
    each element of a list without repetition, and the [WeakSet] holds
    these elements. *)
Definition calledOnce {St} (onAdd : nat -> St -> St) (s : St)
    (st : gset nat * St) (calls : list nat) : Prop :=
  NoDup calls /\ st.1 = list_to_set calls /\ st.2 = callsOf onAdd s calls.

(** ** The list of the modal *)




Definition listedPlaylist (uuid : string) (creator : Z) : ListedPlaylist :=
  {| lp_uuid := Js.Str uuid;
     lp_id := Js.Undefined;
     lp_title := Js.Str uuid;
     lp_name := Js.Undefined;
     lp_numberOfTracks := Js.Number 3;
     lp_trackCount := Js.Undefined;
     lp_type := Js.Str "USER";
     lp_creator_id := Js.Number creator |}.

(** The modal for track 123 of user 7: the helper lists playlists A and B,
    the lookup finds the track in A, and B was added a moment ago. *)
Definition sampleModalEnv : ModalEnv :=
  {| env_container := true;
     env_containerLater := true;
     env_getUserPlaylists :=
       Some (MhArray [Some (listedPlaylist "A" 7); Some (listedPlaylist "B" 7);
                      Some (listedPlaylist "C" 7)]);
     env_getMyPlaylists := None;
     env_store :=
       Js.Normal
         (Some {| ms_user_meta_id := Js.Number 7;
                  ms_playlists :=
                    Some [("A", Some (listedPlaylist "A" 7));
                          ("X", Some (listedPlaylist "X" 8))] |});
     env_songId := Js.Str "123";
     env_songMeta := None;
     env_hostById := hostWithTwoPlaylists;
     env_hostByMeta := hostWithTwoPlaylists;
     env_overlay := rememberRecentlyAdded "123" "B" initialOverlay |}.

(** The same when no helper is there. *)
Definition sampleModalEnvRedux : ModalEnv :=
  {| env_container := true;
     env_containerLater := true;
     env_getUserPlaylists := None;
     env_getMyPlaylists := None;
     env_store := env_store sampleModalEnv;
     env_songId := Js.Str "123";
     env_songMeta := None;
     env_hostById := hostWithTwoPlaylists;
     env_hostByMeta := hostWithTwoPlaylists;
     env_overlay := initialOverlay |}.

(** ** Resolver, continued *)

(** The computation works on [T] and has left the queue. *)
Definition startedFor (T : string) (job : Job) : bool :=
  String.eqb (job_track job) T
  && match job_phase job with
     | Queued => false
     | _ => true
     end.


(** The resolver [r] as calls of [getMembership] alone leave it, seen from
    the track [T]: the cache is as in [r0], a computation for [T] that was
    in flight still is, and the lookup for [T] was called at most once
    more, and then for a track that had no cached result and no
    computation in flight. *)
Definition afterRequests (T : string) (r0 r : Resolver) : Prop :=
  membershipResultCache r = membershipResultCache r0
  /\ (is_Some (membershipInFlight r0 !! T) -> is_Some (membershipInFlight r !! T))
  /\ (lookupCount T r = lookupCount T r0
      \/ (lookupCount T r = S (lookupCount T r0)
          /\ membershipResultCache r0 !! T = None
          /\ membershipInFlight r0 !! T = None
          /\ is_Some (membershipInFlight r !! T))).

(** * Proofs *)

(** Closes a goal [x ∉ l] for a closed list [l] whose elements differ from
    [x] by their constructors or arguments. *)
Ltac not_in_closed_list :=
  let H := fresh "H" in
  intros H;
  repeat (apply elem_of_cons in H as [H|H]; [discriminate H|]);
  by apply elem_of_nil in H.

(** ** Membership lookups *)

Section Membership.

Lemma elem_of_map {A B} (f : A -> B) (l : list A) (y : B) :
  y ∈ map f l <-> exists x, y = f x /\ x ∈ l.
Proof.
  rewrite list_elem_of_In, in_map_iff.
  split; intros [x [H1 H2]]; exists x.
  - by rewrite list_elem_of_In.
  - by rewrite <- list_elem_of_In.
Qed.

Lemma strict_eq_true (a b : Js.value) : Js.strict_eq a b = true -> a = b.
Proof.
  destruct a, b; simpl; try discriminate; try reflexivity.
  - intros H. apply Bool.eqb_prop in H. congruence.
  - intros H. apply Z.eqb_eq in H. congruence.
  - intros H. apply String.eqb_eq in H. congruence.
Qed.

Lemma ownedBy_spec (uid : Js.value) (pl : Playlist) :
  ownedBy uid (Some pl) = true ->
  pl_type pl = Js.Str "USER" /\ pl_creator_id pl = uid.
Proof.
  unfold ownedBy. intros H. destruct (andb_prop _ _ H) as [H1 H2].
  split; by apply strict_eq_true.
Qed.

Lemma elem_of_insertByLatency {A} (x y : nat * A) (l : list (nat * A)) :
  x ∈ insertByLatency y l <-> x = y \/ x ∈ l.
Proof.
  induction l as [|z l IH]; simpl.
  - rewrite list_elem_of_singleton, elem_of_nil. tauto.
  - destruct (fst y <=? fst z)%nat.
    + rewrite elem_of_cons. tauto.
    + rewrite !elem_of_cons, IH. tauto.
Qed.

Lemma elem_of_completionOrder {A} (x : nat * A) (l : list (nat * A)) :
  x ∈ completionOrder l <-> x ∈ l.
Proof.
  unfold completionOrder. induction l as [|y l IH]; simpl.
  - reflexivity.
  - rewrite elem_of_insertByLatency, elem_of_cons, IH. tauto.
Qed.

(** [Promise.all] over the callbacks: it rejects exactly when a nullish
    element was enumerated. *)
Lemma promiseAll_probes (h : Host) (matches : RawItem -> bool)
    (userPlaylists : list (option Playlist)) :
  (None ∈ userPlaylists
   /\ promiseAll (map (probePlaylist h matches) userPlaylists)
      = Js.Throw Js.TypeError)
  \/ (exists pls,
        userPlaylists = map Some pls
        /\ promiseAll (map (probePlaylist h matches) userPlaylists)
           = Js.Normal (map (probeItems h matches) pls)).
Proof.
  induction userPlaylists as [|[pl|] l IH]; simpl.
  - right. by exists [].
  - destruct IH as [[Hin ->]|(pls & -> & ->)].
    + left. split; [by apply list_elem_of_further|done].
    + right. by exists (pl :: pls).
  - left. split; [apply list_elem_of_here|done].
Qed.

Lemma containingPlaylists_cases (h : Host) (matches : RawItem -> bool)
    (userPlaylists : list (option Playlist)) :
  (None ∈ userPlaylists
   /\ containingPlaylists h matches userPlaylists = Js.Throw Js.TypeError)
  \/ (exists pls,
        userPlaylists = map Some pls
        /\ containingPlaylists h matches userPlaylists
           = Js.Normal
               (omap snd (completionOrder (map (probeItems h matches) pls)))).
Proof.
  unfold containingPlaylists.
  destruct (promiseAll_probes h matches userPlaylists)
    as [[Hin ->]|(pls & E & ->)]; [by left|].
  right. by exists pls.
Qed.

Lemma elem_of_map_Some {A} (x : A) (l : list A) :
  Some x ∈ map Some l <-> x ∈ l.
Proof.
  rewrite elem_of_map. split.
  - by intros (y & [= <-] & Hy).
  - intros H. by exists x.
Qed.

(** Every playlist pushed by the callbacks is the reference of an
    enumerated playlist whose item list matched. *)
Lemma elem_of_containingPlaylists (h : Host) (matches : RawItem -> bool)
    (userPlaylists : list (option Playlist)) (containing : list PlaylistRef)
    (ref : PlaylistRef) :
  containingPlaylists h matches userPlaylists = Js.Normal containing ->
  ref ∈ containing ->
  exists pl, Some pl ∈ userPlaylists /\ ref = refOf pl.
Proof.
  destruct (containingPlaylists_cases h matches userPlaylists)
    as [[_ ->]|(pls & -> & ->)]; [discriminate|].
  intros [= <-]. rewrite list_elem_of_omap.
  intros [[lat o] [Hin Ho]]. simpl in Ho. subst o.
  rewrite elem_of_completionOrder, elem_of_map in Hin.
  destruct Hin as [pl [Hpl Hin]].
  exists pl. split; [by apply elem_of_map_Some|].
  unfold probeItems in Hpl. injection Hpl as _ Hpl.
  destruct (Js.bind _ _); [|discriminate].
  destruct (existsb _ _); congruence.
Qed.

(** The enumeration: owned playlists of the store, else the helper's. *)
Lemma elem_of_userPlaylistsOf (h : Host) (state : StoreState)
    (pl : option Playlist) :
  pl ∈ userPlaylistsOf h state ->
  (pl ∈ map snd (playlistsRecord state)
   /\ ownedBy (user_meta_id state) pl = true)
  \/ (ownedPlaylists (user_meta_id state) (playlistsRecord state) = []
      /\ pl ∈ fallbackPlaylists h).
Proof.
  unfold userPlaylistsOf.
  destruct (ownedPlaylists _ _) as [|q l] eqn:E; simpl.
  - intros H. right. done.
  - intros H. left. rewrite <- E in H.
    unfold ownedPlaylists in H. apply list_elem_of_filter in H. tauto.
Qed.

Lemma lookupBody_result (h : Host) (matches : RawItem -> bool)
    (res : SongInPlaylistsResult) :
  lookupBody h matches = Js.Normal res ->
  res = emptyResult
  \/ exists state containing,
       getState h = Js.Normal (Some state)
       /\ Js.truthy (user_meta_id state) = true
       /\ containingPlaylists h matches (userPlaylistsOf h state)
          = Js.Normal containing
       /\ res =
          {| existsInPlaylists := (0 <? length containing)%nat;
             playlists := containing |}.
Proof.
  unfold lookupBody.
  destruct (getState h) as [[state|]|e]; simpl; try discriminate.
  destruct (Js.truthy (user_meta_id state)) eqn:Hu; simpl.
  - destruct (length (userPlaylistsOf h state) =? 0)%nat.
    + intros [= <-]. by left.
    + destruct (containingPlaylists h matches (userPlaylistsOf h state))
        as [containing|e] eqn:E; simpl; [|discriminate].
      intros [= <-]. right. exists state, containing. done.
  - intros [= <-]. by left.
Qed.

Lemma lookupBody_existsIffNonEmpty (h : Host) (matches : RawItem -> bool)
    (res : SongInPlaylistsResult) :
  lookupBody h matches = Js.Normal res -> existsIffNonEmpty res.
Proof.
  intros H. apply lookupBody_result in H as [->|(state & containing & _ & _ & _ & ->)].
  - reflexivity.
  - unfold existsIffNonEmpty. simpl.
    by destruct containing.
Qed.

(** The outer [try]/[catch] turns every error into the empty result. *)
Lemma try_catch_empty (body : Js.completion SongInPlaylistsResult) :
  Js.try_catch body (fun _ => Js.Normal emptyResult)
  = match body with
    | Js.Normal res => Js.Normal res
    | Js.Throw _ => Js.Normal emptyResult
    end.
Proof. by destruct body. Qed.

Lemma checkSongInUserPlaylists_returns (h : Host) (songId : Js.value) :
  exists res, checkSongInUserPlaylists h songId = Js.Normal res.
Proof.
  unfold checkSongInUserPlaylists. rewrite try_catch_empty.
  destruct (lookupBody _ _); eauto.
Qed.

Lemma checkSongInUserPlaylists_body (h : Host) (songId : Js.value)
    (res : SongInPlaylistsResult) :
  checkSongInUserPlaylists h songId = Js.Normal res ->
  res = emptyResult
  \/ lookupBody h (entryMatchesId (normalizeId songId)) = Js.Normal res.
Proof.
  unfold checkSongInUserPlaylists. rewrite try_catch_empty.
  destruct (lookupBody _ _); intros [= <-]; auto.
Qed.

End Membership.

(** The lookup of track 123 for a user who owns A (with the track) and B
    (empty) finds A and nothing else, whether the id is given as a string or
    as a number. *)
Example lookup_two_playlists :
  checkSongInUserPlaylists hostWithTwoPlaylists (Js.Str "123")
  = Js.Normal
      {| existsInPlaylists := true;
         playlists := [{| uuid := "A"; title := "Mine" |}] |}
  /\ checkSongInUserPlaylists hostWithTwoPlaylists (Js.Number 123)
     = checkSongInUserPlaylists hostWithTwoPlaylists (Js.Str "123")
  /\ checkSongInUserPlaylists hostWithTwoPlaylists (Js.Str "124")
     = Js.Normal emptyResult.
Proof. repeat split; reflexivity. Qed.

(** Callbacks that take equally long finish in the order of the array, a
    faster one overtakes. *)
Example completion_order :
  map snd (completionOrder [(2, "a"); (2, "b"); (1, "c"); (2, "d")])%nat
  = ["c"; "a"; "b"; "d"].
Proof. reflexivity. Qed.

(** The metadata lookup compares titles without case, punctuation and
    repeated white space. *)
Example lookup_by_title :
  normalizeMeta (Js.Str "  Hello,   World! ") = "hello world"
  /\ checkSongInUserPlaylistsByMeta hostWithTwoPlaylists
       {| meta_title := " SONG! "; meta_artist := None |}
     = Js.Normal
         {| existsInPlaylists := true;
            playlists := [{| uuid := "A"; title := "Mine" |}] |}.
Proof. split; reflexivity. Qed.

(** C9: every result of [checkSongInUserPlaylists] and of
    [checkSongInUserPlaylistsByMeta] has [existsInPlaylists] true exactly
    when [playlists] holds at least one entry; both always return a
    result. *)
Theorem C9_exists_iff_playlists_nonempty :
  forall (h : Host) (songId : Js.value) (meta : SongMeta),
    (exists res,
        checkSongInUserPlaylists h songId = Js.Normal res
        /\ existsIffNonEmpty res
        /\ (existsInPlaylists res = true <-> playlists res <> []))
    /\ (exists res,
          checkSongInUserPlaylistsByMeta h meta = Js.Normal res
          /\ existsIffNonEmpty res
          /\ (existsInPlaylists res = true <-> playlists res <> [])).
Proof.
  assert (Hiff : forall res, existsIffNonEmpty res ->
            (existsInPlaylists res = true <-> playlists res <> [])).
  { intros res H. rewrite H. apply bool_decide_eq_true. }
  intros h songId meta. split.
  - unfold checkSongInUserPlaylists. rewrite try_catch_empty.
    destruct (lookupBody _ _) as [res|e] eqn:E.
    + exists res. apply lookupBody_existsIffNonEmpty in E. auto.
    + exists emptyResult. split; [done|]. split; [done|]. by apply Hiff.
  - unfold checkSongInUserPlaylistsByMeta. rewrite try_catch_empty.
    destruct (lookupBody _ _) as [res|e] eqn:E.
    + exists res. apply lookupBody_existsIffNonEmpty in E. auto.
    + exists emptyResult. split; [done|]. split; [done|]. by apply Hiff.
Qed.

(** C4, as the code has it: the lookup never raises; when the current user
    cannot be determined (the id is missing or falsy, or the store cannot be
    read) it returns the empty result; every playlist of a
    result stems either from a playlist of the store with type USER whose
    creator is the current user or, when the store holds no such playlist,
    from the list the [Playlist.*] helper returned, which is not
    filtered. *)
Theorem C4_ownership_filter :
  forall (h : Host) (songId : Js.value),
    (exists res, checkSongInUserPlaylists h songId = Js.Normal res)
    /\ (forall state,
          getState h = Js.Normal (Some state) ->
          Js.truthy (user_meta_id state) = false ->
          checkSongInUserPlaylists h songId = Js.Normal emptyResult)
    /\ ((forall state, getState h <> Js.Normal (Some state)) ->
        checkSongInUserPlaylists h songId = Js.Normal emptyResult)
    /\ (forall res ref,
          checkSongInUserPlaylists h songId = Js.Normal res ->
          ref ∈ playlists res ->
          exists state pl,
            getState h = Js.Normal (Some state)
            /\ Js.truthy (user_meta_id state) = true
            /\ ref = refOf pl
            /\ ((Some pl ∈ map snd (playlistsRecord state)
                 /\ pl_type pl = Js.Str "USER"
                 /\ pl_creator_id pl = user_meta_id state)
                \/ (ownedPlaylists (user_meta_id state) (playlistsRecord state) = []
                    /\ Some pl ∈ fallbackPlaylists h))).
Proof.
  intros h songId. split; [apply checkSongInUserPlaylists_returns|].
  split; [|split].
  - intros state Hs Hu. unfold checkSongInUserPlaylists, lookupBody.
    rewrite Hs. simpl. by rewrite Hu.
  - intros Hno. unfold checkSongInUserPlaylists, lookupBody.
    destruct (getState h) as [[state|]|e]; simpl; try done.
    by destruct (Hno state).
  - intros res ref Hres Hin.
    apply checkSongInUserPlaylists_body in Hres as [->|Hres].
    { simpl in Hin. by apply elem_of_nil in Hin. }
    apply lookupBody_result in Hres
      as [->|(state & containing & Hs & Hu & Hc & ->)].
    { simpl in Hin. by apply elem_of_nil in Hin. }
    simpl in Hin.
    destruct (elem_of_containingPlaylists _ _ _ _ _ Hc Hin) as [pl [Hpl ->]].
    exists state, pl. split; [done|]. split; [done|]. split; [done|].
    apply elem_of_userPlaylistsOf in Hpl as [[H1 H2]|[H1 H2]].
    + left. apply ownedBy_spec in H2. tauto.
    + right. done.
Qed.

Lemma C4_ownership_filter_witness :
  getState hostWithOwnPlaylist
  = Js.Normal
      (Some {| user_meta_id := Js.Number 7;
               content_playlists :=
                 Some [("A", Some ownPlaylist); ("X", Some foreignPlaylist)] |})
  /\ checkSongInUserPlaylists hostWithOwnPlaylist (Js.Str "123")
     = Js.Normal
         {| existsInPlaylists := true;
            playlists := [{| uuid := "A"; title := "Mine" |}] |}
  /\ exists state pl,
       getState hostWithOwnPlaylist = Js.Normal (Some state)
       /\ Js.truthy (user_meta_id state) = true
       /\ {| uuid := "A"; title := "Mine" |} = refOf pl
       /\ ((Some pl ∈ map snd (playlistsRecord state)
            /\ pl_type pl = Js.Str "USER"
            /\ pl_creator_id pl = user_meta_id state)
           \/ (ownedPlaylists (user_meta_id state) (playlistsRecord state) = []
               /\ Some pl ∈ fallbackPlaylists hostWithOwnPlaylist)).
Proof.
  split; [reflexivity|]. split; [reflexivity|].
  apply (proj2 (proj2 (proj2
           (C4_ownership_filter hostWithOwnPlaylist (Js.Str "123"))))
           {| existsInPlaylists := true;
              playlists := [{| uuid := "A"; title := "Mine" |}] |}).
  - reflexivity.
  - simpl. apply list_elem_of_singleton. reflexivity.
Defined.

(** The ownership rule read literally fails: a playlist of another user
    that the helper returned is part of the result. *)
Lemma C4_counterexample :
  ~ resultOnlyOwned hostWithForeignFallback (Js.Str "123").
Proof.
  intros H.
  destruct (H {| user_meta_id := Js.Number 7; content_playlists := Some [] |}
              {| existsInPlaylists := true;
                 playlists := [{| uuid := "X"; title := "Theirs" |}] |}
              {| uuid := "X"; title := "Theirs" |})
    as [pl (Hown & Hin & _)].
  - reflexivity.
  - reflexivity.
  - simpl. apply list_elem_of_singleton. reflexivity.
  - vm_compute in Hin. apply list_elem_of_singleton in Hin.
    injection Hin as ->. vm_compute in Hown. discriminate Hown.
Qed.

Lemma C9_exists_iff_playlists_nonempty_witness :
  exists res,
    checkSongInUserPlaylists hostWithOwnPlaylist (Js.Str "123") = Js.Normal res
    /\ existsIffNonEmpty res
    /\ (existsInPlaylists res = true <-> playlists res <> []).
Proof.
  exact (proj1 (C9_exists_iff_playlists_nonempty hostWithOwnPlaylist
                  (Js.Str "123")
                  {| meta_title := "Song"; meta_artist := None |})).
Defined.

(** ** The resolver: invariants *)

Section ListFacts.

Lemma insert_snoc {A} (l : list A) (x y : A) :
  <[length l := y]> (l ++ [x]) = l ++ [y].
Proof. induction l as [|a l IH]; simpl; [done|]. by rewrite IH. Qed.

Lemma lookup_snoc_inv {A} (l : list A) (x y : A) (i : nat) :
  (l ++ [x]) !! i = Some y ->
  l !! i = Some y \/ (i = length l /\ y = x).
Proof.
  intros H. apply lookup_snoc_Some in H as [[_ H]|[H1 H2]]; auto.
Qed.

Lemma lookup_snoc_old {A} (l : list A) (x y : A) (i : nat) :
  l !! i = Some y -> (l ++ [x]) !! i = Some y.
Proof. intros H. apply lookup_app_l_Some. done. Qed.

Lemma lookup_length_None {A} (l : list A) : l !! length l = None.
Proof. apply lookup_ge_None. lia. Qed.

(** Replacing one element changes the number of elements that satisfy a
    test by the difference of the two elements. *)
Lemma filter_length_insert {A} (p : A -> bool) (l : list A) (j : nat)
    (a b : A) :
  l !! j = Some a ->
  (length (List.filter p (<[j := b]> l)) + (if p a then 1 else 0)
   = length (List.filter p l) + (if p b then 1 else 0))%nat.
Proof.
  revert j. induction l as [|x l IH]; intros [|j] H; simpl in *;
    try discriminate.
  - injection H as ->. destruct (p a), (p b); simpl; lia.
  - specialize (IH j H). destruct (p x); simpl; lia.
Qed.

Lemma filter_length_snoc {A} (p : A -> bool) (l : list A) (x : A) :
  length (List.filter p (l ++ [x]))
  = (length (List.filter p l) + (if p x then 1 else 0))%nat.
Proof.
  rewrite List.filter_app, length_app. simpl. by destruct (p x).
Qed.

End ListFacts.

Section ResolverSteps.

(** [getMembership] when nothing is cached and nothing is in flight. *)
Lemma getMembership_new (T : string) (r : Resolver) :
  membershipResultCache r !! T = None ->
  membershipInFlight r !! T = None ->
  getMembership T r =
    (Pending (length (jobs r)),
     if (inFlightCount r <? MAX_CONCURRENT_MEMBERSHIP)%Z then
       {| membershipResultCache := membershipResultCache r;
          membershipInFlight := <[T := length (jobs r)]> (membershipInFlight r);
          inFlightCount := inFlightCount r + 1;
          membershipQueue := membershipQueue r;
          jobs := jobs r ++ [{| job_track := T; job_phase := Running |}];
          lookups := lookups r ++ [T] |}
     else
       {| membershipResultCache := membershipResultCache r;
          membershipInFlight := <[T := length (jobs r)]> (membershipInFlight r);
          inFlightCount := inFlightCount r;
          membershipQueue := membershipQueue r ++ [(length (jobs r), T)];
          jobs := jobs r ++ [{| job_track := T; job_phase := Queued |}];
          lookups := lookups r |}).
Proof.
  intros Hc Hi. unfold getMembership. rewrite Hc, Hi.
  unfold enqueueMembership. simpl.
  destruct (inFlightCount r <? MAX_CONCURRENT_MEMBERSHIP)%Z; simpl.
  - by rewrite insert_snoc.
  - done.
Qed.

Lemma getMembership_cached (T : string) (r : Resolver)
    (res : SongInPlaylistsResult) :
  membershipResultCache r !! T = Some res ->
  getMembership T r = (Cached res, r).
Proof. intros Hc. unfold getMembership. by rewrite Hc. Qed.

Lemma getMembership_inflight (T : string) (r : Resolver) (j : nat) :
  membershipResultCache r !! T = None ->
  membershipInFlight r !! T = Some j ->
  getMembership T r = (Pending j, r).
Proof. intros Hc Hi. unfold getMembership. by rewrite Hc, Hi. Qed.

(** The three ways a call of [getMembership] can go. *)
Lemma getMembership_cases (T : string) (r : Resolver) :
  (exists res, membershipResultCache r !! T = Some res
               /\ getMembership T r = (Cached res, r))
  \/ (exists j, membershipResultCache r !! T = None
                /\ membershipInFlight r !! T = Some j
                /\ getMembership T r = (Pending j, r))
  \/ (membershipResultCache r !! T = None
      /\ membershipInFlight r !! T = None).
Proof.
  destruct (membershipResultCache r !! T) as [res|] eqn:Hc.
  - left. exists res. split; [done|]. by apply getMembership_cached.
  - destruct (membershipInFlight r !! T) as [j|] eqn:Hi.
    + right. left. exists j. split; [done|]. split; [done|].
      by apply getMembership_inflight.
    + right. right. done.
Qed.

(** [finalize] spelled out. *)
Lemma finalize_spec (j : nat) (r : Resolver) (T : string) (o : Outcome) :
  jobs r !! j = Some {| job_track := T; job_phase := Settled o |} ->
  finalize j r =
    Some
      match membershipQueue r with
      | [] =>
          {| membershipResultCache := membershipResultCache r;
             membershipInFlight := delete T (membershipInFlight r);
             inFlightCount := inFlightCount r - 1;
             membershipQueue := [];
             jobs := <[j := {| job_track := T; job_phase := Done o |}]> (jobs r);
             lookups := lookups r |}
      | (n, Tn) :: rest =>
          {| membershipResultCache := membershipResultCache r;
             membershipInFlight := delete T (membershipInFlight r);
             inFlightCount := inFlightCount r - 1 + 1;
             membershipQueue := rest;
             jobs :=
               <[n := {| job_track := Tn; job_phase := Running |}]>
                 (<[j := {| job_track := T; job_phase := Done o |}]> (jobs r));
             lookups := lookups r ++ [Tn] |}
      end.
Proof.
  intros Hj. unfold finalize. rewrite Hj. simpl.
  destruct (membershipQueue r) as [|[n Tn] rest]; reflexivity.
Qed.

Lemma finalize_enabled (j : nat) (r r' : Resolver) :
  finalize j r = Some r' ->
  exists T o, jobs r !! j = Some {| job_track := T; job_phase := Settled o |}.
Proof.
  unfold finalize. destruct (jobs r !! j) as [[T [| |o|o]]|]; try discriminate.
  eauto.
Qed.

Lemma settle_spec (j : nat) (o : Outcome) (r : Resolver) (T : string) :
  jobs r !! j = Some {| job_track := T; job_phase := Running |} ->
  settle j o r =
    Some
      {| membershipResultCache :=
           match o with
           | Js.Normal result => <[T := result]> (membershipResultCache r)
           | Js.Throw _ => membershipResultCache r
           end;
         membershipInFlight := membershipInFlight r;
         inFlightCount := inFlightCount r;
         membershipQueue := membershipQueue r;
         jobs := <[j := {| job_track := T; job_phase := Settled o |}]> (jobs r);
         lookups := lookups r |}.
Proof. intros Hj. unfold settle. by rewrite Hj. Qed.

Lemma settle_enabled (j : nat) (o : Outcome) (r r' : Resolver) :
  settle j o r = Some r' ->
  exists T, jobs r !! j = Some {| job_track := T; job_phase := Running |}.
Proof.
  unfold settle. destruct (jobs r !! j) as [[T [| |o'|o']]|]; try discriminate.
  eauto.
Qed.

End ResolverSteps.

Section ResolverInvariant.

Lemma inv_initial : ResolverInv initialResolver.
Proof.
  split; simpl; try done.
  - intros j T. rewrite elem_of_nil. split; [done|discriminate].
  - constructor.
Qed.

Lemma inv_getMembership (T : string) (r : Resolver) :
  ResolverInv r -> ResolverInv (snd (getMembership T r)).
Proof.
  intros I.
  destruct (getMembership_cases T r)
    as [(res & _ & ->)|[(j & _ & _ & ->)|[Hc Hi]]]; try done.
  rewrite (getMembership_new T r Hc Hi). simpl.
  destruct I as [Iinf Iact Ipend Iset Iq Ind Icnt Ibnd Ifull].
  unfold inFlightComputations, MAX_CONCURRENT_MEMBERSHIP in *.
  destruct (inFlightCount r <? 5)%Z eqn:Hlt.
  - apply Z.ltb_lt in Hlt.
    split; simpl; unfold inFlightComputations, MAX_CONCURRENT_MEMBERSHIP; simpl.
    + intros T' j'. rewrite lookup_insert. case_decide as HT.
      * intros [= <-]. subst T'. eexists. split.
        { apply lookup_snoc_Some. right. split; reflexivity. }
        done.
      * intros H. destruct (Iinf _ _ H) as (job & H1 & H2 & H3).
        exists job. split; [by apply lookup_snoc_old|done].
    + intros j' job H Hd. apply lookup_snoc_inv in H as [H|[-> ->]].
      * pose proof (Iact _ _ H Hd) as H'.
        rewrite lookup_insert_ne; [done|]. intros E. rewrite <- E in H'.
        congruence.
      * simpl. apply lookup_insert_eq.
    + intros j' job H Hp. apply lookup_snoc_inv in H as [H|[-> ->]]; eauto.
    + intros j' job o res H Hp. apply lookup_snoc_inv in H as [H|[-> ->]];
        [eauto|discriminate].
    + intros j' T'. rewrite Iq. split.
      * apply lookup_snoc_old.
      * intros H. apply lookup_snoc_inv in H as [H|[_ [=]]]. done.
    + done.
    + rewrite filter_length_snoc. simpl. lia.
    + lia.
    + intros H. specialize (Ifull H). lia.
  - apply Z.ltb_ge in Hlt.
    split; simpl; unfold inFlightComputations, MAX_CONCURRENT_MEMBERSHIP; simpl.
    + intros T' j'. rewrite lookup_insert. case_decide as HT.
      * intros [= <-]. subst T'. eexists. split.
        { apply lookup_snoc_Some. right. split; reflexivity. }
        done.
      * intros H. destruct (Iinf _ _ H) as (job & H1 & H2 & H3).
        exists job. split; [by apply lookup_snoc_old|done].
    + intros j' job H Hd. apply lookup_snoc_inv in H as [H|[-> ->]].
      * pose proof (Iact _ _ H Hd) as H'.
        rewrite lookup_insert_ne; [done|]. intros E. rewrite <- E in H'.
        congruence.
      * simpl. apply lookup_insert_eq.
    + intros j' job H Hp. apply lookup_snoc_inv in H as [H|[-> ->]]; eauto.
    + intros j' job o res H Hp. apply lookup_snoc_inv in H as [H|[-> ->]];
        [eauto|discriminate].
    + intros j' T'. rewrite elem_of_app, list_elem_of_singleton, Iq. split.
      * intros [H|[= -> ->]]; [by apply lookup_snoc_old|].
        apply lookup_snoc_Some. right. done.
      * intros H. apply lookup_snoc_inv in H as [H|[-> [= ->]]]; auto.
    + apply NoDup_app. split; [done|]. split; [|apply NoDup_singleton].
      intros [j' T'] H. rewrite list_elem_of_singleton. intros [= -> ->].
      apply Iq in H. rewrite lookup_length_None in H. discriminate.
    + rewrite filter_length_snoc. simpl. lia.
    + lia.
    + intros _. lia.
Qed.

Lemma inv_invalidate (T : string) (r : Resolver) :
  ResolverInv r -> ResolverInv (invalidate T r).
Proof.
  intros [Iinf Iact Ipend Iset Iq Ind Icnt Ibnd Ifull].
  split; simpl; try done.
  - intros j job H Hp. apply lookup_delete_None. right. eauto.
  - intros j job o res H Hp Hc. apply lookup_delete_Some in Hc as [_ Hc].
    eauto.
Qed.

Lemma inv_settle (j : nat) (o : Outcome) (r r' : Resolver) :
  settle j o r = Some r' -> ResolverInv r -> ResolverInv r'.
Proof.
  intros Hs I. destruct (settle_enabled _ _ _ _ Hs) as [T Hj].
  rewrite (settle_spec _ o _ _ Hj) in Hs. injection Hs as <-.
  destruct I as [Iinf Iact Ipend Iset Iq Ind Icnt Ibnd Ifull].
  pose proof (Iact _ _ Hj eq_refl) as HjT. simpl in HjT.
  pose proof (Ipend _ _ Hj eq_refl) as HcT. simpl in HcT.
  assert (Hother : forall j' job', j <> j' -> jobs r !! j' = Some job' ->
            isDone (job_phase job') = false -> job_track job' <> T).
  { intros j' job' Hne H Hd E. pose proof (Iact _ _ H Hd) as H'.
    rewrite E in H'. congruence. }
  split; simpl; unfold inFlightComputations; simpl.
  - intros T' j' H. destruct (Iinf _ _ H) as (job & H1 & H2 & H3).
    destruct (decide (j = j')) as [<-|Hne].
    + rewrite Hj in H1. injection H1 as <-. simpl in H2. subst T'.
      eexists. split.
      { apply list_lookup_insert_Some. left.
        split; [done|]. split; [done|]. by eapply lookup_lt_Some. }
      done.
    + exists job. split; [|done]. by rewrite list_lookup_insert_ne.
  - intros j' job' H Hd.
    apply list_lookup_insert_Some in H as [(<- & <- & _)|[Hne H]]; eauto.
  - intros j' job' H Hp.
    apply list_lookup_insert_Some in H as [(<- & <- & _)|[Hne H]];
      [discriminate|].
    pose proof (Ipend _ _ H Hp) as Hc.
    destruct o as [res|e]; [|done].
    rewrite lookup_insert_ne; [done|].
    intros E. eapply Hother; eauto. by destruct (job_phase job').
  - intros j' job' o' res' H Hp Hc.
    apply list_lookup_insert_Some in H as [(<- & <- & _)|[Hne H]].
    + simpl in *. injection Hp as <-. destruct o as [res|e].
      * rewrite lookup_insert_eq in Hc. congruence.
      * congruence.
    + destruct o as [res|e]; [|eauto].
      rewrite lookup_insert_ne in Hc; [eauto|].
      intros E. eapply Hother; eauto. by rewrite Hp.
  - intros j' T'. rewrite Iq, list_lookup_insert_Some. split.
    + intros H. right. split; [|done]. intros <-. congruence.
    + intros [(_ & [=] & _)|[_ H]]. done.
  - done.
  - pose proof (filter_length_insert occupiesSlot _ _ _
                  {| job_track := T; job_phase := Settled o |} Hj) as E.
    simpl in E. fold (inFlightComputations r) in E. lia.
  - done.
  - done.
Qed.

Lemma inv_finalize (j : nat) (r r' : Resolver) :
  finalize j r = Some r' -> ResolverInv r -> ResolverInv r'.
Proof.
  intros Hf I. destruct (finalize_enabled _ _ _ Hf) as (T & o & Hj).
  rewrite (finalize_spec _ _ _ _ Hj) in Hf. injection Hf as <-.
  destruct I as [Iinf Iact Ipend Iset Iq Ind Icnt Ibnd Ifull].
  pose proof (Iact _ _ Hj eq_refl) as HjT. simpl in HjT.
  assert (Hother : forall j' job', j <> j' -> jobs r !! j' = Some job' ->
            isDone (job_phase job') = false -> job_track job' <> T).
  { intros j' job' Hne H Hd E. pose proof (Iact _ _ H Hd) as H'.
    rewrite E in H'. congruence. }
  assert (Hinf : forall T' j', delete T (membershipInFlight r) !! T' = Some j' ->
            j <> j' /\ exists job, jobs r !! j' = Some job /\ job_track job = T'
              /\ isDone (job_phase job) = false).
  { intros T' j' H. apply lookup_delete_Some in H as [Hne H].
    destruct (Iinf _ _ H) as (job & H1 & H2 & H3).
    split; [|eauto]. intros <-. rewrite Hj in H1. injection H1 as <-.
    simpl in H2. congruence. }
  pose proof (filter_length_insert occupiesSlot _ _ _
                {| job_track := T; job_phase := Done o |} Hj) as E1.
  simpl in E1. fold (inFlightComputations r) in E1.
  unfold MAX_CONCURRENT_MEMBERSHIP in *.
  destruct (membershipQueue r) as [|[n Tn] rest] eqn:Hq.
  - split; simpl; unfold inFlightComputations, MAX_CONCURRENT_MEMBERSHIP; simpl.
    + intros T' j' H. destruct (Hinf _ _ H) as (Hne & job & H1 & H2 & H3).
      exists job. split; [|done]. by rewrite list_lookup_insert_ne.
    + intros j' job' H Hd.
      apply list_lookup_insert_Some in H as [(<- & <- & _)|[Hne H]];
        [discriminate|].
      rewrite lookup_delete_ne; [eauto|]. intros E. eapply Hother; eauto.
    + intros j' job' H Hp.
      apply list_lookup_insert_Some in H as [(<- & <- & _)|[Hne H]];
        [discriminate|eauto].
    + intros j' job' o' res' H Hp.
      apply list_lookup_insert_Some in H as [(<- & <- & _)|[Hne H]];
        [discriminate|eauto].
    + intros j' T'. rewrite list_lookup_insert_Some. split.
      * intros H. by apply elem_of_nil in H.
      * intros [(_ & [=] & _)|[_ H]]. by apply Iq in H.
    + constructor.
    + lia.
    + lia.
    + done.
  - assert (Hn : jobs r !! n = Some {| job_track := Tn; job_phase := Queued |}).
    { apply Iq. apply list_elem_of_here. }
    assert (Hjn : j <> n) by (intros <-; congruence).
    apply NoDup_cons in Ind as [Hnotin Ind].
    pose proof (Iact _ _ Hn eq_refl) as HnT. simpl in HnT.
    assert (HTn : Tn <> T).
    { intros E. eapply (Hother n); eauto. }
    assert (Hn1 : <[j := {| job_track := T; job_phase := Done o |}]> (jobs r) !! n
                  = Some {| job_track := Tn; job_phase := Queued |}).
    { by rewrite list_lookup_insert_ne. }
    pose proof (filter_length_insert occupiesSlot _ _ _
                  {| job_track := Tn; job_phase := Running |} Hn1) as E2.
    simpl in E2.
    split; simpl; unfold inFlightComputations, MAX_CONCURRENT_MEMBERSHIP; simpl.
    + intros T' j' H. destruct (Hinf _ _ H) as (Hne & job & H1 & H2 & H3).
      destruct (decide (n = j')) as [<-|Hne'].
      * rewrite Hn in H1. injection H1 as <-. simpl in H2. subst T'.
        eexists. split.
        { apply list_lookup_insert_Some. left.
          split; [done|]. split; [done|]. by eapply lookup_lt_Some. }
        done.
      * exists job. split; [|done]. by rewrite !list_lookup_insert_ne.
    + intros j' job' H Hd.
      apply list_lookup_insert_Some in H as [(<- & <- & _)|[Hne' H]].
      * simpl. by rewrite lookup_delete_ne.
      * apply list_lookup_insert_Some in H as [(<- & <- & _)|[Hne H]];
          [discriminate|].
        rewrite lookup_delete_ne; [eauto|]. intros E. eapply Hother; eauto.
    + intros j' job' H Hp.
      apply list_lookup_insert_Some in H as [(<- & <- & _)|[Hne' H]].
      * apply (Ipend _ _ Hn eq_refl).
      * apply list_lookup_insert_Some in H as [(<- & <- & _)|[Hne H]];
          [discriminate|eauto].
    + intros j' job' o' res' H Hp.
      apply list_lookup_insert_Some in H as [(<- & <- & _)|[Hne' H]];
        [discriminate|].
      apply list_lookup_insert_Some in H as [(<- & <- & _)|[Hne H]];
        [discriminate|eauto].
    + intros j' T'. rewrite !list_lookup_insert_Some. split.
      * intros H. assert (H' : (j', T') ∈ (n, Tn) :: rest) by by right.
        apply Iq in H'. right. split.
        { intros <-. rewrite Hn in H'. injection H' as <-. done. }
        right. split; [|done]. intros <-. congruence.
      * intros [(_ & [=] & _)|[Hne' [(_ & [=] & _)|[Hne H]]]].
        apply Iq in H. apply elem_of_cons in H as [[= -> ->]|H]; done.
    + done.
    + lia.
    + lia.
    + intros _. assert (H : (n, Tn) :: rest <> []) by done.
      specialize (Ifull H). lia.
Qed.

Lemma inv_step (r r' : Resolver) (e : Event) :
  step r e = Some r' -> ResolverInv r -> ResolverInv r'.
Proof.
  destruct e as [T|j o|j|T]; simpl.
  - intros [= <-]. apply inv_getMembership.
  - apply inv_settle.
  - apply inv_finalize.
  - intros [= <-]. apply inv_invalidate.
Qed.

Create HintDb resolver.
#[local] Hint Resolve inv_initial inv_step : resolver.

Lemma inv_exec (tr : list Event) (r r' : Resolver) :
  exec r tr = Some r' -> ResolverInv r -> ResolverInv r'.
Proof.
  revert r. induction tr as [|e tr IH]; simpl; intros r.
  - by intros [= <-].
  - destruct (step r e) as [r1|] eqn:Hs; [|discriminate].
    intros H I. eapply IH; eauto with resolver.
Qed.

Lemma inv_reachable (r : Resolver) : reachable r -> ResolverInv r.
Proof. intros [tr H]. eapply inv_exec; eauto with resolver. Qed.

(** A run driven by the plugin's lookup is a run of the resolver. *)
Lemma hostStep_step (r r' : Resolver) (e : HostEvent) :
  hostStep r e = Some r' -> exists ev, step r ev = Some r'.
Proof.
  unfold hostStep. destruct (eventOf r e) as [ev|]; [eauto|discriminate].
Qed.

Lemma hostExec_exec (tr : list HostEvent) (r r' : Resolver) :
  hostExec r tr = Some r' -> exists tr', exec r tr' = Some r'.
Proof.
  revert r. induction tr as [|e tr IH]; simpl; intros r.
  - intros [= <-]. by exists [].
  - destruct (hostStep r e) as [r1|] eqn:Hs; [|discriminate].
    intros H. destruct (IH _ H) as [tr' H'].
    destruct (hostStep_step _ _ _ Hs) as [ev Hev].
    exists (ev :: tr'). simpl. by rewrite Hev.
Qed.

Lemma hostReachable_reachable (r : Resolver) :
  hostReachable r -> reachable r.
Proof. intros [tr H]. by apply hostExec_exec in H. Qed.

End ResolverInvariant.

(** ** The resolver: the concurrency gate *)

Section Gate.

Lemma inFlight_le (r : Resolver) :
  ResolverInv r -> (inFlightComputations r <= 5)%nat.
Proof.
  intros I. pose proof (inv_count r I). pose proof (inv_bound r I).
  unfold MAX_CONCURRENT_MEMBERSHIP in *. lia.
Qed.

(** A request beyond the limit is queued behind the others. *)
Lemma gate_queues (r : Resolver) (T : string) :
  ResolverInv r ->
  membershipResultCache r !! T = None ->
  membershipInFlight r !! T = None ->
  inFlightComputations r = 5%nat ->
  let r' := snd (getMembership T r) in
  membershipQueue r' = membershipQueue r ++ [(length (jobs r), T)]
  /\ jobs r' !! length (jobs r)
     = Some {| job_track := T; job_phase := Queued |}
  /\ lookups r' = lookups r
  /\ inFlightComputations r' = 5%nat.
Proof.
  intros I Hc Hi H5. simpl. rewrite (getMembership_new T r Hc Hi). simpl.
  pose proof (inv_count r I) as Hcnt.
  assert (Hlt : (inFlightCount r <? MAX_CONCURRENT_MEMBERSHIP)%Z = false).
  { apply Z.ltb_ge. unfold MAX_CONCURRENT_MEMBERSHIP. lia. }
  rewrite Hlt. simpl. split; [done|]. split.
  { apply lookup_snoc_Some. right. done. }
  split; [done|]. unfold inFlightComputations in *. simpl.
  rewrite filter_length_snoc. simpl. lia.
Qed.

(** A request below the limit starts at once. *)
Lemma gate_admits (r : Resolver) (T : string) :
  ResolverInv r ->
  membershipResultCache r !! T = None ->
  membershipInFlight r !! T = None ->
  (inFlightComputations r < 5)%nat ->
  let r' := snd (getMembership T r) in
  membershipQueue r' = membershipQueue r
  /\ jobs r' !! length (jobs r)
     = Some {| job_track := T; job_phase := Running |}
  /\ lookups r' = lookups r ++ [T]
  /\ inFlightComputations r' = S (inFlightComputations r).
Proof.
  intros I Hc Hi H5. simpl. rewrite (getMembership_new T r Hc Hi). simpl.
  pose proof (inv_count r I) as Hcnt.
  assert (Hlt : (inFlightCount r <? MAX_CONCURRENT_MEMBERSHIP)%Z = true).
  { apply Z.ltb_lt. unfold MAX_CONCURRENT_MEMBERSHIP. lia. }
  rewrite Hlt. simpl. split; [done|]. split.
  { apply lookup_snoc_Some. right. done. }
  split; [done|]. unfold inFlightComputations in *. simpl.
  rewrite filter_length_snoc. simpl. lia.
Qed.

(** The [finally] callback of a settled computation frees its slot and
    hands it to the head of the queue, if there is one. *)
Lemma gate_releases (r : Resolver) (j : nat) (T : string) (o : Outcome) :
  ResolverInv r ->
  jobs r !! j = Some {| job_track := T; job_phase := Settled o |} ->
  exists r',
    finalize j r = Some r'
    /\ match membershipQueue r with
       | [] =>
           membershipQueue r' = []
           /\ lookups r' = lookups r
           /\ S (inFlightComputations r') = inFlightComputations r
       | (n, Tn) :: rest =>
           membershipQueue r' = rest
           /\ jobs r' !! n = Some {| job_track := Tn; job_phase := Running |}
           /\ lookups r' = lookups r ++ [Tn]
           /\ inFlightComputations r' = inFlightComputations r
           /\ (forall m Tm, (m, Tm) ∈ rest ->
                 jobs r' !! m = Some {| job_track := Tm; job_phase := Queued |})
       end.
Proof.
  intros I Hj. pose proof (finalize_spec _ _ _ _ Hj) as Hf.
  eexists. split; [exact Hf|].
  pose proof (inv_finalize _ _ _ Hf I) as I'.
  pose proof (inv_count _ I) as Hc. pose proof (inv_count _ I') as Hc'.
  destruct (membershipQueue r) as [|[n Tn] rest] eqn:Hq; simpl in *.
  - split; [done|]. split; [done|].
    assert (0 < inFlightComputations r)%nat; [|lia].
    pose proof (filter_length_insert occupiesSlot _ _ _
                  {| job_track := T; job_phase := Done o |} Hj) as E.
    simpl in E. unfold inFlightComputations. lia.
  - split; [done|].
    assert (Hn : jobs r !! n = Some {| job_track := Tn; job_phase := Queued |}).
    { apply (inv_queue _ I). rewrite Hq. apply list_elem_of_here. }
    split.
    { apply list_lookup_insert_Some. left. split; [done|]. split; [done|].
      rewrite length_insert. by eapply lookup_lt_Some. }
    split; [done|]. split; [lia|].
    intros m Tm Hm. by apply (inv_queue _ I').
Qed.

End Gate.

(** C2: in every state the resolver can reach, whatever the lookups return,
    at most 5 computations are in flight, and [inFlightCount] is their
    number; closures wait only while all 5 slots are taken; a request that
    finds the gate full is appended to the queue and starts no lookup, one
    that finds a free slot starts at once; and when the [finally] callback
    of a settled computation runs, after a result or an error alike, exactly
    the head of the queue is started while the rest of the queue stays
    queued in its order (with an empty queue the slot is freed). *)
Theorem C2_concurrency_gate :
  forall (tr : list Event) (r : Resolver),
    exec initialResolver tr = Some r ->
    (inFlightComputations r <= 5)%nat
    /\ inFlightCount r = Z.of_nat (inFlightComputations r)
    /\ (membershipQueue r <> [] -> inFlightComputations r = 5%nat)
    /\ (forall T,
          membershipResultCache r !! T = None ->
          membershipInFlight r !! T = None ->
          inFlightComputations r = 5%nat ->
          let r' := snd (getMembership T r) in
          membershipQueue r' = membershipQueue r ++ [(length (jobs r), T)]
          /\ jobs r' !! length (jobs r)
             = Some {| job_track := T; job_phase := Queued |}
          /\ lookups r' = lookups r
          /\ inFlightComputations r' = 5%nat)
    /\ (forall T,
          membershipResultCache r !! T = None ->
          membershipInFlight r !! T = None ->
          (inFlightComputations r < 5)%nat ->
          let r' := snd (getMembership T r) in
          membershipQueue r' = membershipQueue r
          /\ jobs r' !! length (jobs r)
             = Some {| job_track := T; job_phase := Running |}
          /\ lookups r' = lookups r ++ [T]
          /\ inFlightComputations r' = S (inFlightComputations r))
    /\ (forall j T o,
          jobs r !! j = Some {| job_track := T; job_phase := Settled o |} ->
          exists r',
            finalize j r = Some r'
            /\ match membershipQueue r with
               | [] =>
                   membershipQueue r' = []
                   /\ lookups r' = lookups r
                   /\ S (inFlightComputations r') = inFlightComputations r
               | (n, Tn) :: rest =>
                   membershipQueue r' = rest
                   /\ jobs r' !! n
                      = Some {| job_track := Tn; job_phase := Running |}
                   /\ lookups r' = lookups r ++ [Tn]
                   /\ inFlightComputations r' = inFlightComputations r
                   /\ (forall m Tm, (m, Tm) ∈ rest ->
                         jobs r' !! m
                         = Some {| job_track := Tm; job_phase := Queued |})
               end).
Proof.
  intros tr r Hr.
  assert (I : ResolverInv r) by (apply inv_reachable; by exists tr).
  split; [by apply inFlight_le|].
  split; [by apply inv_count|].
  split.
  { intros Hq. pose proof (inv_full _ I Hq). pose proof (inv_count _ I).
    unfold MAX_CONCURRENT_MEMBERSHIP in *. lia. }
  split; [intros T; by apply gate_queues|].
  split; [intros T; by apply gate_admits|].
  intros j T o. by apply gate_releases.
Qed.

Lemma C2_concurrency_gate_witness :
  exec initialResolver sixRequests = Some (stateAfter sixRequests)
  /\ (inFlightComputations (stateAfter sixRequests) <= 5)%nat
  /\ inFlightCount (stateAfter sixRequests)
     = Z.of_nat (inFlightComputations (stateAfter sixRequests)).
Proof.
  split; [vm_compute; reflexivity|].
  pose proof (C2_concurrency_gate sixRequests (stateAfter sixRequests)) as H.
  split; apply H; vm_compute; reflexivity.
Defined.

(** ** The resolver: cache and in-flight map *)

Section Potential.

Lemma lookupCount_snoc (T T' : string) (l : list string) :
  length (filter (fun t => t = T) (l ++ [T']))
  = (length (filter (fun t => t = T) l) + (if decide (T' = T) then 1 else 0))%nat.
Proof.
  rewrite filter_app, length_app. f_equal.
  rewrite filter_cons, filter_nil. by case_decide.
Qed.

Lemma pendingLookups_le (T : string) (r : Resolver) :
  (pendingLookups T r <= 1)%nat.
Proof.
  unfold pendingLookups.
  destruct (membershipResultCache r !! T), (membershipInFlight r !! T) as [j|];
    try lia;
    destruct (job_phase <$> jobs r !! j) as [[| | |]|]; lia.
Qed.

(** The count does not change when the cache and the in-flight entry of
    [T] and the computation in flight for [T] stay as they are. *)
Lemma pendingLookups_same (T : string) (r r' : Resolver) :
  membershipResultCache r' !! T = membershipResultCache r !! T ->
  membershipInFlight r' !! T = membershipInFlight r !! T ->
  (forall j, membershipInFlight r !! T = Some j -> jobs r' !! j = jobs r !! j) ->
  pendingLookups T r' = pendingLookups T r.
Proof.
  intros Hc Hi Hj. unfold pendingLookups. rewrite Hc, Hi.
  destruct (membershipInFlight r !! T) as [j|]; [|done].
  by rewrite (Hj j eq_refl).
Qed.

Lemma pendingLookups_at (T : string) (r : Resolver) (j : nat) (job : Job) :
  membershipInFlight r !! T = Some j ->
  jobs r !! j = Some job ->
  pendingLookups T r
  = match job_phase job with
    | Queued => 1%nat
    | Running => 0%nat
    | Settled _ =>
        match membershipResultCache r !! T with
        | Some _ => 0%nat
        | None => 1%nat
        end
    | Done _ => 0%nat
    end.
Proof.
  intros Hi Hj. unfold pendingLookups. rewrite Hi, Hj. simpl.
  by destruct (job_phase job).
Qed.

Lemma pendingLookups_idle (T : string) (r : Resolver) :
  membershipInFlight r !! T = None ->
  pendingLookups T r
  = match membershipResultCache r !! T with
    | Some _ => 0%nat
    | None => 1%nat
    end.
Proof. intros Hi. unfold pendingLookups. by rewrite Hi. Qed.

(** The computation in flight for [T], if any, is not [j] when [j] works
    on another track. *)
Lemma inflight_other (r : Resolver) (T Tj : string) (j j0 : nat) (ph : Phase) :
  ResolverInv r ->
  jobs r !! j = Some {| job_track := Tj; job_phase := ph |} ->
  Tj <> T ->
  membershipInFlight r !! T = Some j0 ->
  j <> j0.
Proof.
  intros I Hj Hne Hi <-.
  destruct (inv_inflight _ I _ _ Hi) as (job & H1 & H2 & _).
  rewrite Hj in H1. injection H1 as <-. simpl in H2. congruence.
Qed.

(** A step that neither invalidates [T] nor fails never raises the sum of
    the lookups made for [T] and those that can still start. *)
Lemma pendingLookups_step (T : string) (r r' : Resolver) (e : Event) :
  ResolverInv r ->
  step r e = Some r' ->
  quietFor T e ->
  (lookupCount T r' + pendingLookups T r'
   <= lookupCount T r + pendingLookups T r)%nat.
Proof.
  intros I Hs Hq. unfold lookupCount.
  destruct e as [T'|j o|j|T']; simpl in Hs, Hq.
  - (* getMembership *)
    injection Hs as <-.
    destruct (getMembership_cases T' r)
      as [(res & _ & ->)|[(j & _ & _ & ->)|[Hc Hi]]]; try done.
    rewrite (getMembership_new T' r Hc Hi). simpl.
    destruct (decide (T' = T)) as [->|Hne].
    + rewrite (pendingLookups_idle T r Hi), Hc.
      destruct (inFlightCount r <? MAX_CONCURRENT_MEMBERSHIP)%Z; simpl.
      * rewrite lookupCount_snoc. rewrite decide_True; [|done].
        erewrite pendingLookups_at; simpl.
        2:{ apply lookup_insert_eq. }
        2:{ apply lookup_snoc_Some. right. done. }
        simpl. lia.
      * erewrite pendingLookups_at; simpl.
        2:{ apply lookup_insert_eq. }
        2:{ apply lookup_snoc_Some. right. done. }
        simpl. lia.
    + assert (Hsame : forall r1,
                membershipResultCache r1 = membershipResultCache r ->
                membershipInFlight r1 = <[T' := length (jobs r)]> (membershipInFlight r) ->
                (exists x, jobs r1 = jobs r ++ [x]) ->
                pendingLookups T r1 = pendingLookups T r).
      { intros r1 H1 H2 [x H3]. apply pendingLookups_same.
        - by rewrite H1.
        - rewrite H2. by apply lookup_insert_ne.
        - intros j Hj. rewrite H3.
          destruct (inv_inflight _ I _ _ Hj) as (job & Hjob & _).
          rewrite Hjob. by apply lookup_snoc_old. }
      destruct (inFlightCount r <? MAX_CONCURRENT_MEMBERSHIP)%Z; simpl.
      * rewrite lookupCount_snoc. rewrite decide_False; [|done].
        rewrite Hsame by (simpl; eauto). lia.
      * rewrite Hsame by (simpl; eauto). lia.
  - (* the lookup settles *)
    destruct (settle_enabled _ _ _ _ Hs) as [Tj Hj].
    rewrite (settle_spec _ o _ _ Hj) in Hs. injection Hs as <-. simpl.
    destruct o as [res|err]; [|done].
    destruct (decide (Tj = T)) as [->|Hne].
    + pose proof (inv_active _ I _ _ Hj eq_refl) as Hi. simpl in Hi.
      rewrite (pendingLookups_at T r j _ Hi Hj). simpl.
      erewrite pendingLookups_at; simpl.
      2:{ exact Hi. }
      2:{ apply list_lookup_insert_Some. left. split; [done|].
          split; [done|]. by eapply lookup_lt_Some. }
      simpl. rewrite lookup_insert_eq. lia.
    + erewrite (pendingLookups_same T r); [lia| | |]; simpl.
      * by apply lookup_insert_ne.
      * done.
      * intros j0 Hj0. apply list_lookup_insert_ne.
        eapply inflight_other; eauto.
  - (* the finally callbacks *)
    destruct (finalize_enabled _ _ _ Hs) as (Tj & o & Hj).
    rewrite (finalize_spec _ _ _ _ Hj) in Hs. injection Hs as <-.
    pose proof (inv_active _ I _ _ Hj eq_refl) as Hi. simpl in Hi.
    destruct (membershipQueue r) as [|[n Tn] rest] eqn:Hqueue; simpl.
    + destruct (decide (Tj = T)) as [->|Hne].
      * rewrite (pendingLookups_at T r j _ Hi Hj). simpl.
        rewrite pendingLookups_idle; simpl; [|apply lookup_delete_eq]. lia.
      * erewrite (pendingLookups_same T r); [lia| | |]; simpl.
        -- done.
        -- by apply lookup_delete_ne.
        -- intros j0 Hj0. apply list_lookup_insert_ne.
           eapply inflight_other; eauto.
    + assert (Hn : jobs r !! n = Some {| job_track := Tn; job_phase := Queued |}).
      { apply (inv_queue _ I). rewrite Hqueue. apply list_elem_of_here. }
      pose proof (inv_active _ I _ _ Hn eq_refl) as Hin. simpl in Hin.
      assert (Hjn : j <> n) by (intros <-; congruence).
      assert (HTn : Tn <> Tj) by (intros ->; congruence).
      rewrite lookupCount_snoc.
      destruct (decide (Tj = T)) as [->|Hne].
      * rewrite decide_False; [|done].
        rewrite (pendingLookups_at T r j _ Hi Hj). simpl.
        rewrite pendingLookups_idle; simpl; [|apply lookup_delete_eq]. lia.
      * destruct (decide (Tn = T)) as [->|Hne'].
        -- rewrite (pendingLookups_at T r n _ Hin Hn). simpl.
           erewrite pendingLookups_at; simpl.
           2:{ rewrite lookup_delete_ne; [exact Hin|done]. }
           2:{ apply list_lookup_insert_Some. left. split; [done|].
               split; [done|]. rewrite length_insert.
               by eapply lookup_lt_Some. }
           simpl. lia.
        -- erewrite (pendingLookups_same T r); [lia| | |]; simpl.
           ++ done.
           ++ by apply lookup_delete_ne.
           ++ intros j0 Hj0. rewrite !list_lookup_insert_ne; [done| |].
              ** eapply inflight_other; eauto.
              ** eapply inflight_other; eauto.
  - (* an invalidation of another track *)
    injection Hs as <-. simpl.
    erewrite (pendingLookups_same T r); [lia| | |]; simpl; try done.
    by apply lookup_delete_ne.
Qed.

Lemma pendingLookups_exec (T : string) (tr : list Event) (r r' : Resolver) :
  ResolverInv r ->
  exec r tr = Some r' ->
  Forall (quietFor T) tr ->
  (lookupCount T r' + pendingLookups T r'
   <= lookupCount T r + pendingLookups T r)%nat.
Proof.
  revert r. induction tr as [|e tr IH]; simpl; intros r I.
  - intros [= <-] _. lia.
  - destruct (step r e) as [r1|] eqn:Hs; [|discriminate].
    intros H Hq. apply Forall_cons in Hq as [Hq1 Hq2].
    pose proof (pendingLookups_step T _ _ _ I Hs Hq1).
    pose proof (IH r1 (inv_step _ _ _ Hs I) H Hq2). lia.
Qed.

(** A run driven by the plugin's lookup, seen as a run of the resolver:
    no lookup fails, and without an invalidation of [T] in the one there
    is none in the other. *)
Lemma hostStep_quiet (T : string) (r r' : Resolver) (e : HostEvent) :
  hostStep r e = Some r' ->
  e <> HostInvalidate T ->
  exists ev, step r ev = Some r' /\ quietFor T ev.
Proof.
  unfold hostStep. destruct e as [T'|j h|j|T']; simpl.
  - intros H _. exists (EvGetMembership T'). split; [exact H|done].
  - destruct (jobs r !! j) as [job|]; [|discriminate].
    intros H _.
    exists (EvSettle j (checkSongInUserPlaylists h (Js.Str (job_track job)))).
    split; [exact H|]. simpl.
    by destruct (checkSongInUserPlaylists_returns h (Js.Str (job_track job)))
      as [res ->].
  - intros H _. exists (EvFinally j). split; [exact H|done].
  - intros H Hne. exists (EvInvalidate T'). split; [exact H|].
    simpl. congruence.
Qed.

Lemma hostExec_quiet (T : string) (tr : list HostEvent) (r r' : Resolver) :
  hostExec r tr = Some r' ->
  HostInvalidate T ∉ tr ->
  exists tr', exec r tr' = Some r' /\ Forall (quietFor T) tr'.
Proof.
  revert r. induction tr as [|e tr IH]; simpl; intros r.
  - intros [= <-] _. exists []. split; [done|constructor].
  - destruct (hostStep r e) as [r1|] eqn:Hs; [|discriminate].
    intros H Hnot. apply not_elem_of_cons in Hnot as [Hne Hnot].
    destruct (IH _ H Hnot) as (tr' & H1 & H2).
    destruct (hostStep_quiet T _ _ _ Hs) as (ev & H3 & H4); [congruence|].
    exists (ev :: tr'). simpl. rewrite H3. split; [done|].
    by constructor.
Qed.

End Potential.

Section Coherence.

Lemma getMembership_cache (T : string) (r : Resolver) :
  membershipResultCache (snd (getMembership T r)) = membershipResultCache r.
Proof.
  destruct (getMembership_cases T r)
    as [(res & _ & ->)|[(j & _ & _ & ->)|[Hc Hi]]]; try done.
  rewrite (getMembership_new T r Hc Hi). simpl.
  by destruct (inFlightCount r <? MAX_CONCURRENT_MEMBERSHIP)%Z.
Qed.

(** A cached result stays cached until it is invalidated. *)
Lemma cache_step (T : string) (r r' : Resolver) (e : Event)
    (res : SongInPlaylistsResult) :
  ResolverInv r ->
  step r e = Some r' ->
  quietFor T e ->
  membershipResultCache r !! T = Some res ->
  membershipResultCache r' !! T = Some res.
Proof.
  intros I Hs Hq Hc. destruct e as [T'|j o|j|T']; simpl in Hs, Hq.
  - injection Hs as <-. by rewrite getMembership_cache.
  - destruct (settle_enabled _ _ _ _ Hs) as [Tj Hj].
    rewrite (settle_spec _ o _ _ Hj) in Hs. injection Hs as <-. simpl.
    destruct o as [res'|err]; [|done].
    rewrite lookup_insert_ne; [done|]. intros ->.
    pose proof (inv_pending _ I _ _ Hj eq_refl) as Hn. simpl in Hn.
    congruence.
  - destruct (finalize_enabled _ _ _ Hs) as (Tj & o & Hj).
    rewrite (finalize_spec _ _ _ _ Hj) in Hs. injection Hs as <-.
    by destruct (membershipQueue r) as [|[n Tn] rest].
  - injection Hs as <-. simpl. by rewrite lookup_delete_ne.
Qed.

(** What a step does to one computation: nothing, or it moves it one
    phase ahead. *)
Lemma job_step (r r' : Resolver) (e : Event) (j : nat) (job : Job) :
  ResolverInv r ->
  step r e = Some r' ->
  jobs r !! j = Some job ->
  exists ph,
    jobs r' !! j = Some {| job_track := job_track job; job_phase := ph |}
    /\ (ph = job_phase job
        \/ (job_phase job = Queued /\ ph = Running)
        \/ (exists o, job_phase job = Running /\ ph = Settled o
                      /\ e = EvSettle j o)
        \/ (exists o, job_phase job = Settled o /\ ph = Done o
                      /\ e = EvFinally j)).
Proof.
  intros I Hs Hjob. destruct job as [T ph0]. simpl.
  destruct e as [T'|j' o|j'|T']; simpl in Hs.
  - injection Hs as <-. exists ph0. split; [|by left].
    destruct (getMembership_cases T' r)
      as [(res & _ & ->)|[(j0 & _ & _ & ->)|[Hc Hi]]]; try done.
    rewrite (getMembership_new T' r Hc Hi). simpl.
    destruct (inFlightCount r <? MAX_CONCURRENT_MEMBERSHIP)%Z; simpl;
      by apply lookup_snoc_old.
  - destruct (settle_enabled _ _ _ _ Hs) as [Tj Hj].
    rewrite (settle_spec _ o _ _ Hj) in Hs. injection Hs as <-. simpl.
    destruct (decide (j' = j)) as [->|Hne].
    + rewrite Hj in Hjob. injection Hjob as -> <-.
      exists (Settled o). split.
      * apply list_lookup_insert_Some. left. split; [done|].
        split; [done|]. by eapply lookup_lt_Some.
      * right. right. left. eauto.
    + exists ph0. split; [|by left]. by rewrite list_lookup_insert_ne.
  - destruct (finalize_enabled _ _ _ Hs) as (Tj & o & Hj).
    rewrite (finalize_spec _ _ _ _ Hj) in Hs. injection Hs as <-.
    destruct (membershipQueue r) as [|[n Tn] rest] eqn:Hq; simpl.
    + destruct (decide (j' = j)) as [->|Hne].
      * rewrite Hj in Hjob. injection Hjob as -> <-.
        exists (Done o). split.
        -- apply list_lookup_insert_Some. left. split; [done|].
           split; [done|]. by eapply lookup_lt_Some.
        -- right. right. right. eauto.
      * exists ph0. split; [|by left]. by rewrite list_lookup_insert_ne.
    + assert (Hn : jobs r !! n = Some {| job_track := Tn; job_phase := Queued |}).
      { apply (inv_queue _ I). rewrite Hq. apply list_elem_of_here. }
      assert (Hjn : j' <> n) by (intros <-; congruence).
      destruct (decide (j' = j)) as [->|Hne].
      * rewrite Hj in Hjob. injection Hjob as -> <-.
        exists (Done o). split.
        -- rewrite list_lookup_insert_ne; [|done].
           apply list_lookup_insert_Some. left. split; [done|].
           split; [done|]. by eapply lookup_lt_Some.
        -- right. right. right. eauto.
      * destruct (decide (n = j)) as [->|Hne'].
        -- rewrite Hn in Hjob. injection Hjob as -> <-.
           exists Running. split.
           ++ apply list_lookup_insert_Some. left. split; [done|].
              split; [done|]. rewrite length_insert.
              by eapply lookup_lt_Some.
           ++ right. left. done.
        -- exists ph0. split; [|by left].
           by rewrite !list_lookup_insert_ne.
  - injection Hs as <-. exists ph0. split; [done|by left].
Qed.

Lemma servedBy_step (T : string) (h : Handle) (r r' : Resolver) (e : Event) :
  ResolverInv r ->
  step r e = Some r' ->
  quietFor T e ->
  servedBy T h r -> servedBy T h r'.
Proof.
  intros I Hs Hq. destruct h as [res|j]; simpl.
  - by apply cache_step with (e := e).
  - intros (job & Hjob & HT & Hserved).
    destruct (job_step _ _ _ _ _ I Hs Hjob) as (ph & Hjob' & Hph).
    eexists. split; [exact Hjob'|]. split; [done|]. simpl.
    intros o Ho.
    destruct Hph as [->|[[H1 ->]|[(o' & H1 & -> & ->)|(o' & H1 & -> & ->)]]].
    + destruct (Hserved o Ho) as (res & -> & Hc).
      exists res. split; [done|]. by apply cache_step with (r := r) (e := e).
    + destruct Ho as [Ho|Ho]; discriminate.
    + destruct Ho as [[= <-]|Ho]; [|discriminate].
      simpl in Hq. destruct o' as [res|err]; [|done].
      exists res. split; [done|]. simpl in Hs.
      destruct (settle_enabled _ _ _ _ Hs) as [Tj Hj].
      rewrite (settle_spec _ _ _ _ Hj) in Hs. injection Hs as <-. simpl.
      rewrite Hjob in Hj. injection Hj as ->. simpl in HT. subst Tj.
      apply lookup_insert_eq.
    + destruct Ho as [Ho|[= <-]]; [discriminate|].
      destruct (Hserved o' (or_introl H1)) as (res & -> & Hc).
      exists res. split; [done|].
      by apply cache_step with (r := r) (e := EvFinally j).
Qed.

Lemma servedBy_exec (T : string) (h : Handle) (tr : list Event)
    (r r' : Resolver) :
  ResolverInv r ->
  exec r tr = Some r' ->
  Forall (quietFor T) tr ->
  servedBy T h r -> servedBy T h r'.
Proof.
  revert r. induction tr as [|e tr IH]; simpl; intros r I.
  - by intros [= <-] _.
  - destruct (step r e) as [r1|] eqn:Hs; [|discriminate].
    intros H Hq Hserved. apply Forall_cons in Hq as [Hq1 Hq2].
    apply (IH r1); [by eapply inv_step|done|done|].
    by eapply servedBy_step.
Qed.

(** A call is served by the cache or by a computation whose result will
    reach the cache, unless it joins a computation whose result was
    dropped from the cache already. *)
Lemma servedBy_getMembership (T : string) (r : Resolver) :
  ResolverInv r ->
  ~ staleInFlight T r ->
  servedBy T (fst (getMembership T r)) (snd (getMembership T r)).
Proof.
  intros I Hstale.
  destruct (getMembership_cases T r)
    as [(res & Hc & ->)|[(j & Hc & Hi & ->)|[Hc Hi]]]; simpl.
  - done.
  - destruct (inv_inflight _ I _ _ Hi) as (job & Hjob & HT & Hd).
    exists job. split; [done|]. split; [done|].
    intros o [Ho|Ho].
    + exfalso. apply Hstale. exists j, job, o. done.
    + rewrite Ho in Hd. discriminate.
  - rewrite (getMembership_new T r Hc Hi). simpl.
    destruct (inFlightCount r <? MAX_CONCURRENT_MEMBERSHIP)%Z; simpl.
    + eexists. split; [apply lookup_snoc_Some; right; done|].
      split; [done|]. simpl. intros o [Ho|Ho]; discriminate.
    + eexists. split; [apply lookup_snoc_Some; right; done|].
      split; [done|]. simpl. intros o [Ho|Ho]; discriminate.
Qed.

(** Once the handle has settled to a result, that result is cached. *)
Lemma servedBy_settled (T : string) (h : Handle) (r : Resolver)
    (res : SongInPlaylistsResult) :
  servedBy T h r ->
  settledTo r h = Some (Js.Normal res) ->
  membershipResultCache r !! T = Some res.
Proof.
  destruct h as [res'|j]; simpl.
  - intros Hc [= <-]. done.
  - intros (job & Hjob & HT & Hserved). rewrite Hjob.
    destruct job as [T' [| |o|o]]; try discriminate.
    intros [= ->]. simpl in Hserved.
    destruct (Hserved (Js.Normal res) (or_intror eq_refl)) as (res' & [= <-] & Hc).
    done.
Qed.

End Coherence.

(** ** The resolver: claims *)

Section FanIn.

Lemma callMany_inflight (T : string) (K : nat) (r : Resolver) (j : nat) :
  membershipResultCache r !! T = None ->
  membershipInFlight r !! T = Some j ->
  callMany T K r = (replicate K (Pending j), r).
Proof.
  intros Hc Hi. induction K as [|K IH]; simpl; [done|].
  by rewrite (getMembership_inflight T r j Hc Hi), IH.
Qed.

Lemma callMany_share (T : string) (K : nat) (r : Resolver) :
  membershipResultCache r !! T = None ->
  exists j,
    fst (callMany T (S K) r) = replicate (S K) (Pending j)
    /\ snd (callMany T (S K) r) = snd (getMembership T r)
    /\ membershipInFlight (snd (callMany T (S K) r)) !! T = Some j
    /\ (lookupCount T (snd (callMany T (S K) r)) <= lookupCount T r + 1)%nat.
Proof.
  intros Hc. simpl.
  destruct (membershipInFlight r !! T) as [j|] eqn:Hi.
  - exists j. rewrite (getMembership_inflight T r j Hc Hi).
    rewrite (callMany_inflight T K r j Hc Hi). simpl.
    repeat split; try done. lia.
  - exists (length (jobs r)). rewrite (getMembership_new T r Hc Hi).
    set (r1 := if (inFlightCount r <? MAX_CONCURRENT_MEMBERSHIP)%Z
               then _ else _).
    assert (Hc1 : membershipResultCache r1 !! T = None).
    { subst r1. by destruct (_ <? _)%Z. }
    assert (Hi1 : membershipInFlight r1 !! T = Some (length (jobs r))).
    { subst r1. destruct (_ <? _)%Z; simpl; apply lookup_insert_eq. }
    rewrite (callMany_inflight T K r1 _ Hc1 Hi1). simpl.
    repeat split; try done.
    subst r1. unfold lookupCount. destruct (_ <? _)%Z; simpl; [|lia].
    rewrite lookupCount_snoc. case_decide; lia.
Qed.

End FanIn.

(** C1, as the code has it.  In every state [r0] the resolver reaches with
    the plugin's lookup: (1) a run without an invalidation of [T] makes at
    most one lookup for [T], however many calls of [getMembership T] it
    holds; (2) when a call made in [r0] has settled to a result with no
    invalidation of [T] since, the next call returns that result from the
    cache and leaves the state (hence the lookups) as it is, provided the
    first call did not join a computation whose result had been dropped from
    the cache before its [finally] callbacks ran; (3) while nothing is
    cached, any number of calls made one after the other get the same
    promise, that of the single computation in flight, and start at most one
    lookup. *)
Theorem C1_lookup_once_per_track :
  forall (T : string) (tr0 : list HostEvent) (r0 : Resolver),
    hostExec initialResolver tr0 = Some r0 ->
    (forall tr r,
        hostExec r0 tr = Some r ->
        HostInvalidate T ∉ tr ->
        (lookupCount T r <= lookupCount T r0 + 1)%nat)
    /\ (~ staleInFlight T r0 ->
        forall tr r res,
          hostExec (snd (getMembership T r0)) tr = Some r ->
          HostInvalidate T ∉ tr ->
          settledTo r (fst (getMembership T r0)) = Some (Js.Normal res) ->
          getMembership T r = (Cached res, r))
    /\ (membershipResultCache r0 !! T = None ->
        forall K, exists j,
          fst (callMany T (S K) r0) = replicate (S K) (Pending j)
          /\ snd (callMany T (S K) r0) = snd (getMembership T r0)
          /\ membershipInFlight (snd (callMany T (S K) r0)) !! T = Some j
          /\ (lookupCount T (snd (callMany T (S K) r0))
              <= lookupCount T r0 + 1)%nat).
Proof.
  intros T tr0 r0 Hr0.
  assert (I : ResolverInv r0).
  { apply inv_reachable, hostReachable_reachable. by exists tr0. }
  split; [|split].
  - intros tr r Hr Hnot.
    destruct (hostExec_quiet T _ _ _ Hr Hnot) as (tr' & Hex & Hq).
    pose proof (pendingLookups_exec T _ _ _ I Hex Hq).
    pose proof (pendingLookups_le T r0). lia.
  - intros Hstale tr r res Hr Hnot Hset.
    destruct (hostExec_quiet T _ _ _ Hr Hnot) as (tr' & Hex & Hq).
    apply getMembership_cached.
    eapply servedBy_settled; [|exact Hset].
    eapply servedBy_exec; [|exact Hex|exact Hq|].
    + by apply inv_getMembership.
    + by apply servedBy_getMembership.
  - intros Hc K. by apply callMany_share.
Qed.

Lemma C1_lookup_once_per_track_witness :
  hostExec initialResolver [] = Some initialResolver
  /\ hostExec initialResolver (completedLookup ++ [HostGetMembership "123"])
     = Some (hostStateAfter completedLookup)
  /\ (lookupCount "123" (hostStateAfter completedLookup) <= 0 + 1)%nat
  /\ getMembership "123" (hostStateAfter completedLookup)
     = (Cached {| existsInPlaylists := true;
                  playlists := [{| uuid := "A"; title := "Mine" |}] |},
        hostStateAfter completedLookup).
Proof.
  split; [reflexivity|]. split; [vm_compute; reflexivity|].
  destruct (C1_lookup_once_per_track "123" [] initialResolver eq_refl)
    as (H1 & H2 & _).
  split.
  - apply (H1 (completedLookup ++ [HostGetMembership "123"])).
    + vm_compute; reflexivity.
    + not_in_closed_list.
  - apply (H2 ltac:(intros (j & job & o & H & _); discriminate H)
             [HostSettle 0 hostWithOwnPlaylist; HostFinally 0]).
    + vm_compute; reflexivity.
    + not_in_closed_list.
    + vm_compute; reflexivity.
Defined.

(** Cache coherence read literally fails: after the result of a lookup was
    dropped from the cache before the [finally] callbacks ran, a call joins
    the settled computation and gets its result, and the next call, with no
    invalidation in between, finds nothing cached and starts a new
    lookup. *)
Lemma C1_counterexample : ~ sequentialCallsCoherent.
Proof.
  intros H.
  specialize (H "123" invalidatedBeforeFinally [HostFinally 0]
                (hostStateAfter invalidatedBeforeFinally)
                (hostStateAfter (invalidatedBeforeFinally ++ [HostFinally 0]))
                {| existsInPlaylists := true;
                   playlists := [{| uuid := "A"; title := "Mine" |}] |}).
  apply (f_equal fst) in H.
  - vm_compute in H. discriminate H.
  - vm_compute; reflexivity.
  - vm_compute; reflexivity.
  - not_in_closed_list.
  - vm_compute; reflexivity.
Qed.

Section Finally.

(** The [finally] callbacks of a settled computation: its track leaves
    the in-flight map, its promise settles with the outcome of the task,
    and neither the cache nor the number of lookups made for its track
    changes. *)
Lemma finalize_clears (r r' : Resolver) (j : nat) (T : string) (o : Outcome) :
  ResolverInv r ->
  jobs r !! j = Some {| job_track := T; job_phase := Settled o |} ->
  finalize j r = Some r' ->
  membershipInFlight r' !! T = None
  /\ membershipResultCache r' = membershipResultCache r
  /\ length (jobs r') = length (jobs r)
  /\ settledTo r' (Pending j) = Some o
  /\ lookupCount T r' = lookupCount T r.
Proof.
  intros I Hj Hf. rewrite (finalize_spec _ _ _ _ Hj) in Hf.
  injection Hf as <-.
  assert (Hlt : (j < length (jobs r))%nat) by by eapply lookup_lt_Some.
  destruct (membershipQueue r) as [|[n Tn] rest] eqn:Hq; simpl.
  - split; [apply lookup_delete_eq|]. split; [done|].
    split; [by rewrite length_insert|].
    split; [by rewrite list_lookup_insert_eq|done].
  - assert (Hn : jobs r !! n = Some {| job_track := Tn; job_phase := Queued |}).
    { apply (inv_queue _ I). rewrite Hq. apply list_elem_of_here. }
    assert (Hjn : n <> j) by (intros ->; congruence).
    assert (HT : Tn <> T).
    { intros ->. apply Hjn.
      pose proof (inv_active _ I _ _ Hn eq_refl) as H1.
      pose proof (inv_active _ I _ _ Hj eq_refl) as H2. simpl in H1, H2.
      congruence. }
    split; [apply lookup_delete_eq|]. split; [done|].
    split; [by rewrite !length_insert|]. split.
    + rewrite list_lookup_insert_ne; [|done].
      by rewrite list_lookup_insert_eq.
    + unfold lookupCount. simpl. rewrite lookupCount_snoc.
      rewrite decide_False by done. lia.
Qed.

End Finally.

Section Failure.

Variable T : string.
Variable j : nat.
Variable res : SongInPlaylistsResult.
Variable c : nat.

Lemma isFinallyOf_spec (e : HostEvent) :
  isFinallyOf j e = true <-> e = HostFinally j.
Proof.
  destruct e as [T'|j' h|j'|T']; simpl; try (split; discriminate).
  rewrite Nat.eqb_eq. split; [by intros ->|by intros [= ->]].
Qed.

Lemma existsb_isFinallyOf (tr : list HostEvent) :
  existsb (isFinallyOf j) tr = true <-> HostFinally j ∈ tr.
Proof.
  rewrite existsb_exists. split.
  - intros (e & Hin & He). apply isFinallyOf_spec in He as ->.
    by apply list_elem_of_In.
  - intros Hin. exists (HostFinally j). split; [by apply list_elem_of_In|].
    by apply isFinallyOf_spec.
Qed.

(** Once the lookup has ended, no step that does not invalidate the
    track changes what is cached for it or makes the lookup again; the
    [finally] callbacks of the computation take it out of the in-flight
    map. *)
Lemma lookupStored_step (f : bool) (r r' : Resolver) (e : HostEvent) :
  ResolverInv r ->
  lookupStored T j res c f r ->
  hostStep r e = Some r' ->
  e <> HostInvalidate T ->
  lookupStored T j res c (f || isFinallyOf j e) r'.
Proof.
  intros I (Hc & Hl & Hph) Hs Hne.
  assert (Hj : exists ph,
            jobs r !! j = Some {| job_track := T; job_phase := ph |}
            /\ isPending ph = false
            /\ (isDone ph = false -> membershipInFlight r !! T = Some j)
            /\ (isDone ph = true -> membershipInFlight r !! T = None)).
  { destruct f; destruct Hph as [Hj Hi]; eexists; (split; [exact Hj|]);
      simpl; repeat split; done. }
  destruct Hj as (ph & Hj & Hnp & Hact & Hdone).
  assert (Hother : forall j' job',
            jobs r !! j' = Some job' -> job_track job' = T ->
            isDone (job_phase job') = false -> j' = j).
  { intros j' job' Hj' HT Hd.
    pose proof (inv_active _ I _ _ Hj' Hd) as Hi. rewrite HT in Hi.
    destruct (isDone ph) eqn:Hdp.
    - rewrite (Hdone eq_refl) in Hi. discriminate.
    - rewrite (Hact eq_refl) in Hi. congruence. }
  assert (Hpend : forall j' job',
            jobs r !! j' = Some job' -> isPending (job_phase job') = true ->
            job_track job' <> T).
  { intros j' job' Hj' Hp E.
    pose proof (inv_pending _ I _ _ Hj' Hp) as Hn. rewrite E in Hn.
    congruence. }
  assert (Hlen : (j < length (jobs r))%nat) by (by eapply lookup_lt_Some).
  unfold hostStep in Hs. destruct e as [T'|j' h|j'|T']; simpl in Hs.
  - (* a call of getMembership *)
    rewrite orb_false_r. injection Hs as <-.
    destruct (getMembership_cases T' r)
      as [(res' & _ & ->)|[(j0 & _ & _ & ->)|[Hc' Hi']]];
      [by split|by split|].
    assert (HT : T' <> T) by (intros ->; congruence).
    rewrite (getMembership_new T' r Hc' Hi'). simpl.
    assert (G : forall job ls,
              (ls = lookups r \/ ls = lookups r ++ [T']) ->
              lookupStored T j res c f
                {| membershipResultCache := membershipResultCache r;
                   membershipInFlight :=
                     <[T' := length (jobs r)]> (membershipInFlight r);
                   inFlightCount := inFlightCount r;
                   membershipQueue := membershipQueue r;
                   jobs := jobs r ++ [job];
                   lookups := ls |}).
    { intros job ls Hls. split; [done|]. split.
      - unfold lookupCount in *. simpl. destruct Hls as [->| ->]; [done|].
        rewrite lookupCount_snoc. rewrite decide_False by done. lia.
      - simpl. rewrite lookup_insert_ne by done.
        destruct f; destruct Hph as [Hj' Hi]; (split; [|done]);
          by apply lookup_snoc_old. }
    destruct (inFlightCount r <? MAX_CONCURRENT_MEMBERSHIP)%Z; simpl.
    + pose proof (G {| job_track := T'; job_phase := Running |}
                    (lookups r ++ [T']) (or_intror eq_refl)) as G'.
      destruct G' as (G1 & G2 & G3). split; [done|]. split; [done|]. done.
    + pose proof (G {| job_track := T'; job_phase := Queued |}
                    (lookups r) (or_introl eq_refl)) as G'.
      destruct G' as (G1 & G2 & G3). split; [done|]. split; [done|]. done.
  - (* the lookup of another computation ends *)
    rewrite orb_false_r.
    destruct (jobs r !! j') as [job'|] eqn:Hj'; [|discriminate].
    simpl in Hs. destruct (settle_enabled _ _ _ _ Hs) as [Tj Hrun].
    rewrite (settle_spec _ _ _ _ Hrun) in Hs. injection Hs as <-.
    rewrite Hrun in Hj'. injection Hj' as <-. simpl.
    assert (HT : Tj <> T) by (by apply (Hpend j' _ Hrun)).
    assert (Hjj : j' <> j).
    { intros ->. rewrite Hj in Hrun. injection Hrun as _ ->. discriminate. }
    split.
    { cbn [membershipResultCache].
      destruct (checkSongInUserPlaylists h (Js.Str Tj)); [|done].
      by rewrite lookup_insert_ne. }
    split; [done|]. cbn [jobs membershipInFlight].
    rewrite list_lookup_insert_ne by done. done.
  - (* finally callbacks run *)
    destruct (finalize_enabled _ _ _ Hs) as (Tj & o & Hset).
    rewrite (finalize_spec _ _ _ _ Hset) in Hs. injection Hs as <-.
    assert (Hq : forall n Tn, (n, Tn) ∈ membershipQueue r ->
                   n <> j /\ n <> j' /\ Tn <> T
                   /\ (n < length (jobs r))%nat).
    { intros n Tn Hin. apply (inv_queue _ I) in Hin.
      split; [intros ->; rewrite Hj in Hin; injection Hin as _ ->; discriminate|].
      split; [intros ->; congruence|].
      split; [by apply (Hpend n _ Hin)|by eapply lookup_lt_Some]. }
    assert (Hlen' : (j' < length (jobs r))%nat) by (by eapply lookup_lt_Some).
    destruct (decide (j' = j)) as [->|Hjj].
    + (* of the computation itself *)
      rewrite Hj in Hset. injection Hset as -> ->.
      destruct f; destruct Hph as [Hj' Hi];
        [rewrite Hj in Hj'; discriminate|].
      rewrite Hj in Hj'. injection Hj' as ->.
      simpl. rewrite Nat.eqb_refl.
      destruct (membershipQueue r) as [|[n Tn] rest] eqn:Eq.
      * split; [done|]. split; [done|]. cbn [jobs membershipInFlight].
        split; [by rewrite list_lookup_insert_eq|apply lookup_delete_eq].
      * destruct (Hq n Tn) as (Hn1 & _ & Hn3 & Hn4);
          [try rewrite Eq; apply list_elem_of_here|].
        split; [done|]. split.
        { unfold lookupCount in *. simpl. rewrite lookupCount_snoc.
          rewrite decide_False by done. lia. }
        simpl. rewrite list_lookup_insert_ne by done.
        split; [by rewrite list_lookup_insert_eq|apply lookup_delete_eq].
    + (* of another computation *)
      assert (HT : Tj <> T).
      { intros ->. apply Hjj. by apply (Hother j' _ Hset). }
      assert (Hf : isFinallyOf j (HostFinally j') = false).
      { simpl. by apply Nat.eqb_neq. }
      rewrite Hf, orb_false_r.
      destruct (membershipQueue r) as [|[n Tn] rest] eqn:Eq.
      * split; [done|]. split; [done|]. cbn [jobs membershipInFlight].
        rewrite list_lookup_insert_ne by done.
        rewrite lookup_delete_ne by done. done.
      * destruct (Hq n Tn) as (Hn1 & _ & Hn3 & Hn4);
          [try rewrite Eq; apply list_elem_of_here|].
        split; [done|]. split.
        { unfold lookupCount in *. simpl. rewrite lookupCount_snoc.
          rewrite decide_False by done. lia. }
        simpl. rewrite !list_lookup_insert_ne by done.
        rewrite lookup_delete_ne by done. done.
  - (* the invalidation of another track *)
    rewrite orb_false_r. injection Hs as <-.
    split; [|done]. simpl. rewrite lookup_delete_ne; [done|congruence].
Qed.

Lemma lookupStored_exec (tr : list HostEvent) (f : bool) (r r' : Resolver) :
  ResolverInv r ->
  lookupStored T j res c f r ->
  hostExec r tr = Some r' ->
  HostInvalidate T ∉ tr ->
  lookupStored T j res c (f || existsb (isFinallyOf j) tr) r'.
Proof.
  revert f r. induction tr as [|e tr IH]; simpl; intros f r I H.
  - intros [= <-] _. by rewrite orb_false_r.
  - destruct (hostStep r e) as [r1|] eqn:Hs; [|discriminate].
    intros Hex Hnot. apply not_elem_of_cons in Hnot as [Hne Hnot].
    rewrite orb_assoc. apply (IH _ r1); [|  |done|done].
    + destruct (hostStep_step _ _ _ Hs) as [ev Hev]. by eapply inv_step.
    + apply (lookupStored_step f r r1 e); [done|done|done|congruence].
Qed.

End Failure.

(** C5, as the code has it.  [checkSongInUserPlaylists] never rejects, so
    for the resolver no lookup fails: when the lookup of a computation for
    track [T] ends on a host [h], be it after an error, it ends with a
    result, the empty one when the error reached the outer [catch] of the
    lookup, and the task stores this result in the cache.  From then on,
    whatever the resolver does, as long as [T] is not invalidated, the
    result stays cached, a call of [getMembership] for [T] returns it from
    the cache, and the lookup is not made again for [T]: a failed lookup is
    not retried.  The computation stays in the in-flight map until its
    [finally] callbacks run and is out of it afterwards, its promise
    fulfilled with the result. *)
Theorem C5_failed_lookup_is_cached :
  forall (tr0 : list HostEvent) (r0 : Resolver) (j : nat) (T : string)
         (h : Host) (tr : list HostEvent) (r : Resolver),
    hostExec initialResolver tr0 = Some r0 ->
    jobs r0 !! j = Some {| job_track := T; job_phase := Running |} ->
    hostExec r0 (HostSettle j h :: tr) = Some r ->
    HostInvalidate T ∉ tr ->
    exists res,
      checkSongInUserPlaylists h (Js.Str T) = Js.Normal res
      /\ (lookupFails h (Js.Str T) -> res = emptyResult)
      /\ membershipResultCache r !! T = Some res
      /\ getMembership T r = (Cached res, r)
      /\ lookupCount T r = lookupCount T r0
      /\ (HostFinally j ∈ tr ->
          membershipInFlight r !! T = None
          /\ settledTo r (Pending j) = Some (Js.Normal res))
      /\ (HostFinally j ∉ tr ->
          membershipInFlight r !! T = Some j
          /\ settledTo r (Pending j) = None).
Proof.
  intros tr0 r0 j T h tr r Hr0 Hj Hex Hnot.
  assert (I0 : ResolverInv r0).
  { apply inv_reachable. apply hostReachable_reachable. by exists tr0. }
  destruct (checkSongInUserPlaylists_returns h (Js.Str T)) as [res Hres].
  exists res. split; [done|]. split.
  { intros [e He]. unfold checkSongInUserPlaylists in Hres.
    rewrite try_catch_empty, He in Hres. congruence. }
  simpl in Hex. destruct (hostStep r0 (HostSettle j h)) as [r1|] eqn:Hs;
    [|discriminate].
  assert (I1 : ResolverInv r1).
  { destruct (hostStep_step _ _ _ Hs) as [ev Hev]. by eapply inv_step. }
  assert (H1 : lookupStored T j res (lookupCount T r0) false r1).
  { unfold hostStep in Hs. simpl in Hs. rewrite Hj in Hs. simpl in Hs.
    rewrite Hres in Hs. rewrite (settle_spec _ _ _ _ Hj) in Hs.
    injection Hs as <-. split; [apply lookup_insert_eq|]. split; [done|].
    simpl. split.
    - apply list_lookup_insert_eq. by eapply lookup_lt_Some.
    - apply (inv_active _ I0 _ _ Hj eq_refl). }
  pose proof (lookupStored_exec T j res _ tr false r1 r I1 H1 Hex Hnot)
    as (Hc & Hl & Hph).
  simpl in Hph.
  split; [done|]. split; [by apply getMembership_cached|]. split; [done|].
  split.
  - intros Hin. apply existsb_isFinallyOf in Hin. rewrite Hin in Hph.
    destruct Hph as [Hd Hi]. split; [done|]. simpl. by rewrite Hd.
  - intros Hin.
    destruct (existsb (isFinallyOf j) tr) eqn:E.
    { apply existsb_isFinallyOf in E. done. }
    destruct Hph as [Hd Hi]. split; [done|]. simpl. by rewrite Hd.
Qed.

Lemma C5_failed_lookup_is_cached_witness :
  exists res,
    checkSongInUserPlaylists hostBroken (Js.Str "123") = Js.Normal res
    /\ (lookupFails hostBroken (Js.Str "123") -> res = emptyResult)
    /\ membershipResultCache
         (hostStateAfter
            (HostGetMembership "123" :: HostSettle 0 hostBroken
             :: lookupOnBrokenHost))
         !! "123" = Some res
    /\ getMembership "123"
         (hostStateAfter
            (HostGetMembership "123" :: HostSettle 0 hostBroken
             :: lookupOnBrokenHost))
       = (Cached res,
          hostStateAfter
            (HostGetMembership "123" :: HostSettle 0 hostBroken
             :: lookupOnBrokenHost))
    /\ lookupCount "123"
         (hostStateAfter
            (HostGetMembership "123" :: HostSettle 0 hostBroken
             :: lookupOnBrokenHost))
       = lookupCount "123" (hostStateAfter [HostGetMembership "123"])
    /\ (HostFinally 0 ∈ lookupOnBrokenHost ->
        membershipInFlight
          (hostStateAfter
             (HostGetMembership "123" :: HostSettle 0 hostBroken
              :: lookupOnBrokenHost))
          !! "123" = None
        /\ settledTo
             (hostStateAfter
                (HostGetMembership "123" :: HostSettle 0 hostBroken
                 :: lookupOnBrokenHost))
             (Pending 0)
           = Some (Js.Normal res))
    /\ (HostFinally 0 ∉ lookupOnBrokenHost ->
        membershipInFlight
          (hostStateAfter
             (HostGetMembership "123" :: HostSettle 0 hostBroken
              :: lookupOnBrokenHost))
          !! "123" = Some 0%nat
        /\ settledTo
             (hostStateAfter
                (HostGetMembership "123" :: HostSettle 0 hostBroken
                 :: lookupOnBrokenHost))
             (Pending 0)
           = None).
Proof.
  apply (C5_failed_lookup_is_cached
           [HostGetMembership "123"]
           (hostStateAfter [HostGetMembership "123"]) 0%nat "123" hostBroken
           lookupOnBrokenHost
           (hostStateAfter
              (HostGetMembership "123" :: HostSettle 0 hostBroken
               :: lookupOnBrokenHost))).
  - vm_compute; reflexivity.
  - vm_compute; reflexivity.
  - vm_compute; reflexivity.
  - not_in_closed_list.
Defined.

(** The failure rule read literally fails: on a host whose store cannot be
    read the lookup meets an error, yet the empty result is cached for the
    track and the next call is answered from the cache without a
    lookup. *)
Lemma C5_counterexample : ~ failedLookupIsRetried.
Proof.
  intros H.
  destruct (H hostBroken "123"
              (hostStateAfter
                 [HostGetMembership "123"; HostSettle 0 hostBroken;
                  HostFinally 0])) as [Hc _].
  - exists (Js.HostError "store unavailable"). reflexivity.
  - vm_compute; reflexivity.
  - vm_compute in Hc. discriminate Hc.
Qed.

Section NeverRejects.

Lemma resolvedJob_pending (T : string) (ph : Phase) :
  isPending ph = true -> resolvedJob {| job_track := T; job_phase := ph |}.
Proof.
  intros Hp o [Ho|Ho]; simpl in Ho; subst ph; discriminate.
Qed.

Lemma allResolved_getMembership (T : string) (r : Resolver) :
  allResolved r -> allResolved (snd (getMembership T r)).
Proof.
  intros H.
  destruct (getMembership_cases T r)
    as [(res & _ & ->)|[(j & _ & _ & ->)|[Hc Hi]]]; try done.
  rewrite (getMembership_new T r Hc Hi). unfold allResolved in *.
  destruct (inFlightCount r <? MAX_CONCURRENT_MEMBERSHIP)%Z; simpl;
    apply Forall_app; (split; [done|]);
    apply Forall_singleton; by apply resolvedJob_pending.
Qed.

(** A step keeps every settled computation resolved, unless it is the
    failure of a lookup. *)
Lemma allResolved_step (r r' : Resolver) (e : Event) :
  allResolved r ->
  step r e = Some r' ->
  (forall j err, e <> EvSettle j (Js.Throw err)) ->
  allResolved r'.
Proof.
  intros H Hs Hne. destruct e as [T'|j o|j|T']; simpl in Hs.
  - injection Hs as <-. by apply allResolved_getMembership.
  - destruct (settle_enabled _ _ _ _ Hs) as [Tj Hj].
    rewrite (settle_spec _ o _ _ Hj) in Hs. injection Hs as <-.
    unfold allResolved in *. simpl. apply Forall_insert; [done|].
    intros o' [[= <-]|[=]]. destruct o as [res|err]; [eauto|].
    by destruct (Hne j err).
  - destruct (finalize_enabled _ _ _ Hs) as (Tj & o & Hj).
    rewrite (finalize_spec _ _ _ _ Hj) in Hs. injection Hs as <-.
    unfold allResolved in *.
    assert (Hdone : resolvedJob {| job_track := Tj; job_phase := Done o |}).
    { intros o' [[=]|[= <-]].
      apply (proj1 (Forall_lookup _ _) H _ _ Hj o). by left. }
    destruct (membershipQueue r) as [|[n Tn] rest]; simpl.
    + by apply Forall_insert.
    + apply Forall_insert; [by apply Forall_insert|].
      by apply resolvedJob_pending.
  - injection Hs as <-. done.
Qed.

Lemma allResolved_hostExec (tr : list HostEvent) (r r' : Resolver) :
  allResolved r -> hostExec r tr = Some r' -> allResolved r'.
Proof.
  revert r. induction tr as [|e tr IH]; simpl; intros r H.
  - by intros [= <-].
  - destruct (hostStep r e) as [r1|] eqn:Hs; [|discriminate].
    apply IH. unfold hostStep in Hs.
    destruct (eventOf r e) as [ev|] eqn:Hev; [|discriminate].
    eapply allResolved_step; [exact H|exact Hs|].
    intros j err ->. destruct e as [T'|j' h|j'|T']; simpl in Hev;
      try discriminate.
    destruct (jobs r !! j') as [job|]; [|discriminate].
    injection Hev as _ Hev.
    destruct (checkSongInUserPlaylists_returns h (Js.Str (job_track job)))
      as [res Hres].
    congruence.
Qed.

Lemma allResolved_settledTo (r : Resolver) (h : Handle) (o : Outcome) :
  allResolved r -> settledTo r h = Some o -> exists res, o = Js.Normal res.
Proof.
  intros H. destruct h as [res|j]; simpl.
  - intros [= <-]. eauto.
  - destruct (jobs r !! j) as [[T ph]|] eqn:Hj; [|discriminate].
    destruct ph as [| |o'|o']; try discriminate. intros [= <-].
    apply (proj1 (Forall_lookup _ _) H _ _ Hj o'). by right.
Qed.

(** An error inside the lookup reaches the resolver as the empty result
    and is cached like any other result. *)
Remark lookup_error_is_cached (r : Resolver) (j : nat) (T : string)
    (h : Host) (e : Js.error) :
  jobs r !! j = Some {| job_track := T; job_phase := Running |} ->
  lookupBody h (entryMatchesId (normalizeId (Js.Str T))) = Js.Throw e ->
  exists r1,
    hostStep r (HostSettle j h) = Some r1
    /\ membershipResultCache r1 !! T = Some emptyResult.
Proof.
  intros Hj Hb. unfold hostStep. simpl. rewrite Hj. simpl.
  unfold checkSongInUserPlaylists. rewrite try_catch_empty, Hb.
  rewrite (settle_spec _ _ _ _ Hj). eexists. split; [done|].
  simpl. apply lookup_insert_eq.
Qed.

End NeverRejects.

(** C10: [checkSongInUserPlaylists] always returns a result, the empty one
    when its body throws; hence in every state the resolver reaches with
    this lookup, whatever a promise of [getMembership] has settled to is a
    result, never a rejection, and the row pipeline takes the annotating
    branch, never the reporting one. *)
Theorem C10_getMembership_never_rejects :
  (forall (h : Host) (songId : Js.value),
      exists res, checkSongInUserPlaylists h songId = Js.Normal res)
  /\ (forall (h : Host) (songId : Js.value) (e : Js.error),
        lookupBody h (entryMatchesId (normalizeId songId)) = Js.Throw e ->
        checkSongInUserPlaylists h songId = Js.Normal emptyResult)
  /\ (forall (tr : list HostEvent) (r : Resolver) (hd : Handle) (o : Outcome),
        hostExec initialResolver tr = Some r ->
        settledTo r hd = Some o ->
        (exists res, o = Js.Normal res)
        /\ (forall row, exists row', onMembership row o = Annotated row')
        /\ (forall row e, onMembership row o <> Reported e)).
Proof.
  split; [apply checkSongInUserPlaylists_returns|]. split.
  - intros h songId e Hb. unfold checkSongInUserPlaylists.
    by rewrite try_catch_empty, Hb.
  - intros tr r hd o Hr Hset.
    assert (H : allResolved r).
    { eapply allResolved_hostExec; [|exact Hr]. constructor. }
    destruct (allResolved_settledTo _ _ _ H Hset) as [res ->].
    split; [eauto|]. split; simpl; [eauto|discriminate].
Qed.

Lemma C10_getMembership_never_rejects_witness :
  lookupBody hostBroken (entryMatchesId (normalizeId (Js.Str "123")))
  = Js.Throw (Js.HostError "store unavailable")
  /\ checkSongInUserPlaylists hostBroken (Js.Str "123") = Js.Normal emptyResult
  /\ hostExec initialResolver
       [HostGetMembership "123"; HostSettle 0 hostBroken; HostFinally 0]
     = Some (hostStateAfter
               [HostGetMembership "123"; HostSettle 0 hostBroken; HostFinally 0])
  /\ settledTo
       (hostStateAfter
          [HostGetMembership "123"; HostSettle 0 hostBroken; HostFinally 0])
       (Pending 0)
     = Some (Js.Normal emptyResult)
  /\ exists res, Js.Normal emptyResult = Js.Normal res.
Proof.
  destruct C10_getMembership_never_rejects as (_ & H2 & H3).
  split; [reflexivity|]. split.
  { apply (H2 hostBroken (Js.Str "123") (Js.HostError "store unavailable")).
    reflexivity. }
  split; [vm_compute; reflexivity|]. split; [vm_compute; reflexivity|].
  apply (H3 [HostGetMembership "123"; HostSettle 0 hostBroken; HostFinally 0]
            (hostStateAfter
               [HostGetMembership "123"; HostSettle 0 hostBroken; HostFinally 0])
            (Pending 0) (Js.Normal emptyResult)).
  - vm_compute; reflexivity.
  - vm_compute; reflexivity.
Defined.

(** ** The recently-added overlay *)

#[local] Set Warnings "-clear-no-such-hyp".

Section OverlayFacts.

Lemma recentlyAdded_inOverlay (T P : string) (o : Overlay) :
  recentlyAdded T P o = inOverlay T P (recentlyAddedByTrack o).
Proof. reflexivity. Qed.

(** The timer callback removes its own pair and no other. *)
Lemma inOverlay_expire (T P tid pid : string) (m : gmap string (gset string)) :
  inOverlay T P (expire tid pid m)
  = if bool_decide (tid = T /\ pid = P) then false else inOverlay T P m.
Proof.
  unfold expire, inOverlay.
  destruct (decide (tid = T /\ pid = P)) as [[-> ->]|Hb].
  - rewrite bool_decide_eq_true_2 by done.
    destruct (m !! T) as [s|] eqn:Hs; [|by rewrite Hs].
    destruct (decide (size (s ∖ {[P]}) = 0%nat)).
    + by rewrite lookup_delete_eq.
    + rewrite lookup_insert_eq. apply bool_decide_eq_false. set_solver.
  - rewrite bool_decide_eq_false_2 by done.
    destruct (m !! tid) as [s|] eqn:Hs; [|done].
    destruct (decide (tid = T)) as [->|Hne].
    + rewrite Hs. assert (pid <> P) by (intros ->; by apply Hb).
      destruct (decide (size (s ∖ {[pid]}) = 0%nat)) as [He|He].
      * rewrite lookup_delete_eq. symmetry. apply bool_decide_eq_false.
        intros HP. apply size_empty_iff in He. set_solver.
      * rewrite lookup_insert_eq. apply bool_decide_ext. set_solver.
    + destruct (decide (size (s ∖ {[pid]}) = 0%nat)).
      * by rewrite lookup_delete_ne.
      * by rewrite lookup_insert_ne.
Qed.

Lemma inOverlay_remember (T P tid pid : string) (o : Overlay) :
  recentlyAdded T P (rememberRecentlyAdded tid pid o)
  = if bool_decide (tid = T /\ pid = P) then true else recentlyAdded T P o.
Proof.
  unfold recentlyAdded, rememberRecentlyAdded. simpl.
  destruct (decide (tid = T /\ pid = P)) as [[-> ->]|Hb].
  - rewrite bool_decide_eq_true_2 by done.
    rewrite lookup_insert_eq. apply bool_decide_eq_true. set_solver.
  - rewrite bool_decide_eq_false_2 by done.
    destruct (decide (tid = T)) as [->|Hne].
    + rewrite lookup_insert_eq. assert (pid <> P) by (intros ->; by apply Hb).
      destruct (recentlyAddedByTrack o !! T) as [s|] eqn:Hs; simpl.
      * apply bool_decide_ext. set_solver.
      * apply bool_decide_eq_false. set_solver.
    + by rewrite lookup_insert_ne.
Qed.

Lemma timerFor_spec (T P : string) (tm : Timer) :
  timerFor T P tm = true <-> timer_track tm = T /\ timer_playlist tm = P.
Proof.
  unfold timerFor. rewrite andb_true_iff, !String.eqb_eq. tauto.
Qed.

(** Firing timers of other pairs leaves the pair as it is. *)
Lemma fold_expire_keeps (T P : string) (l : list Timer)
    (m : gmap string (gset string)) :
  existsb (timerFor T P) l = false ->
  inOverlay T P
    (foldl (fun m tm => expire (timer_track tm) (timer_playlist tm) m) m l)
  = inOverlay T P m.
Proof.
  revert m. induction l as [|tm l IH]; simpl; intros m H; [done|].
  apply orb_false_iff in H as [H1 H2].
  rewrite IH; [|done]. rewrite inOverlay_expire.
  rewrite bool_decide_eq_false_2; [done|].
  intros H. apply timerFor_spec in H. congruence.
Qed.

(** Firing timers never adds a pair. *)
Lemma fold_expire_gone (T P : string) (l : list Timer)
    (m : gmap string (gset string)) :
  inOverlay T P m = false ->
  inOverlay T P
    (foldl (fun m tm => expire (timer_track tm) (timer_playlist tm) m) m l)
  = false.
Proof.
  revert m. induction l as [|tm l IH]; simpl; intros m H; [done|].
  apply IH. rewrite inOverlay_expire. by case_bool_decide.
Qed.

(** Firing a timer of the pair removes it. *)
Lemma fold_expire_hits (T P : string) (l : list Timer)
    (m : gmap string (gset string)) :
  existsb (timerFor T P) l = true ->
  inOverlay T P
    (foldl (fun m tm => expire (timer_track tm) (timer_playlist tm) m) m l)
  = false.
Proof.
  revert m. induction l as [|tm l IH]; simpl; intros m H; [done|].
  destruct (timerFor T P tm) eqn:Htm; simpl in H.
  - apply fold_expire_gone. rewrite inOverlay_expire.
    apply timerFor_spec in Htm. by rewrite bool_decide_eq_true_2.
  - by apply IH.
Qed.

Lemma noEmptySet_expire (tid pid : string) (m : gmap string (gset string)) :
  noEmptySet m -> noEmptySet (expire tid pid m).
Proof.
  intros H T s. unfold expire.
  destruct (m !! tid) as [s0|] eqn:Hs; [|apply H].
  destruct (decide (size (s0 ∖ {[pid]}) = 0%nat)) as [He|He].
  - intros Hl. apply lookup_delete_Some in Hl as [_ Hl]. by eapply H.
  - destruct (decide (tid = T)) as [->|Hne].
    + rewrite lookup_insert_eq. intros [= <-] E. apply He.
      rewrite E. apply size_empty.
    + rewrite lookup_insert_ne; [apply H|done].
Qed.

Lemma noEmptySet_step (o : Overlay) (e : OverlayEvent) :
  noEmptySet (recentlyAddedByTrack o) ->
  noEmptySet (recentlyAddedByTrack (overlayStep o e)).
Proof.
  intros H. destruct e as [tid pid|dt]; simpl.
  - intros T s. destruct (decide (tid = T)) as [->|Hne].
    + rewrite lookup_insert_eq. intros [= <-]. set_solver.
    + rewrite lookup_insert_ne; [apply H|done].
  - generalize (List.filter (isDue (now o + dt)) (timers o)).
    intros l. revert H. generalize (recentlyAddedByTrack o).
    induction l as [|tm l IH]; simpl; intros m H; [done|].
    apply IH. by apply noEmptySet_expire.
Qed.

Lemma noEmptySet_exec (tr : list OverlayEvent) (o : Overlay) :
  noEmptySet (recentlyAddedByTrack o) ->
  noEmptySet (recentlyAddedByTrack (overlayExec o tr)).
Proof.
  revert o. induction tr as [|e tr IH]; simpl; intros o H; [done|].
  apply IH. by apply noEmptySet_step.
Qed.

Lemma timerFor_remember (T P tid pid : string) (t : N) :
  timerFor T P {| timer_due := t; timer_track := tid; timer_playlist := pid |}
  = bool_decide (tid = T /\ pid = P).
Proof.
  unfold timerFor. simpl. case_bool_decide as Hb.
  - destruct Hb as [-> ->]. by rewrite !String.eqb_refl.
  - apply andb_false_iff.
    destruct (String.eqb_spec tid T) as [->|]; [|by left].
    destruct (String.eqb_spec pid P) as [->|]; [|by right].
    by destruct Hb.
Qed.

(** A pair that survives the firing of timers keeps a pending timer. *)
Lemma advance_keeps_timer (T P : string) (dt : N) (o : Overlay) :
  (recentlyAdded T P o = true -> hasTimer T P o = true) ->
  recentlyAdded T P (advance dt o) = true ->
  hasTimer T P (advance dt o) = true.
Proof.
  intros Hinv Hafter. unfold hasTimer in *.
  rewrite !recentlyAdded_inOverlay in *. simpl in *.
  destruct (existsb (timerFor T P) (List.filter (isDue (now o + dt)) (timers o)))
    eqn:Hfired.
  { rewrite fold_expire_hits in Hafter by done. discriminate. }
  destruct (inOverlay T P (recentlyAddedByTrack o)) eqn:Hbefore.
  2:{ rewrite fold_expire_gone in Hafter by done. discriminate. }
  apply existsb_exists in Hinv as (tm & Hin & Htm); [|done].
  apply existsb_exists. exists tm. split; [|done].
  apply filter_In. split; [done|].
  destruct (isDue (now o + dt) tm) eqn:Hd; [|done].
  assert (existsb (timerFor T P)
            (List.filter (isDue (now o + dt)) (timers o)) = true);
    [|congruence].
  apply existsb_exists. exists tm. split; [|done].
  apply filter_In. done.
Qed.

Lemma overlayInv_initial : overlayInv initialOverlay.
Proof. split; [intros tm []|intros T P H; discriminate]. Qed.

Lemma overlayInv_step (o : Overlay) (e : OverlayEvent) :
  overlayInv o -> overlayInv (overlayStep o e).
Proof.
  intros [H1 H2]. destruct e as [tid pid|dt]; simpl.
  - split.
    + intros tm Hin. simpl in *.
      apply in_app_or in Hin as [Hin|[<-|[]]]; [by apply H1|].
      simpl. unfold EXPIRY_MS. lia.
    + intros T P. rewrite inOverlay_remember. unfold hasTimer. simpl.
      rewrite existsb_app. simpl. rewrite timerFor_remember.
      case_bool_decide as Hb; [by rewrite orb_true_r|].
      intros Hr. pose proof (H2 T P Hr) as Ht. unfold hasTimer in Ht.
      by rewrite Ht.
  - split.
    + intros tm Hin. simpl in *. apply filter_In in Hin as [Hin Hd].
      unfold isDue in Hd. apply negb_true_iff, N.leb_gt in Hd.
      destruct (H1 tm Hin). lia.
    + intros T P. apply advance_keeps_timer. apply H2.
Qed.

Lemma overlayInv_exec (tr : list OverlayEvent) (o : Overlay) :
  overlayInv o -> overlayInv (overlayExec o tr).
Proof.
  revert o. induction tr as [|e tr IH]; simpl; intros o H; [done|].
  apply IH. by apply overlayInv_step.
Qed.

(** The earliest due time: a lower bound of the due times of the pair's
    timers, attained unless it is [d0]. *)
Lemma firstDue_spec (T P : string) (o : Overlay) (d0 : N) :
  (firstDue T P o d0 <= d0)%N
  /\ (forall tm, In tm (timers o) -> timerFor T P tm = true ->
        (firstDue T P o d0 <= timer_due tm)%N)
  /\ (firstDue T P o d0 = d0
      \/ exists tm, In tm (timers o) /\ timerFor T P tm = true
                    /\ timer_due tm = firstDue T P o d0)
  /\ (hasTimer T P o = false -> firstDue T P o d0 = d0).
Proof.
  unfold firstDue, hasTimer. induction (timers o) as [|tm l IH]; simpl.
  - split; [lia|]. split; [by intros tm []|]. split; [by left|done].
  - destruct IH as (IH1 & IH2 & IH3 & IH4).
    destruct (timerFor T P tm) eqn:Htm; simpl.
    + split; [lia|]. split.
      { intros tm' [<-|Hin] Htm'; [lia|]. pose proof (IH2 tm' Hin Htm'). lia. }
      split; [|discriminate].
      destruct (N.le_gt_cases (timer_due tm)
                  (fold_right
                     (fun tm d =>
                        if timerFor T P tm then N.min (timer_due tm) d
                        else d) d0 l)) as [Hle|Hgt].
      * right. exists tm. split; [by left|]. split; [done|]. lia.
      * destruct IH3 as [E|(tm' & Hin & Htm' & E)].
        -- left. lia.
        -- right. exists tm'. split; [by right|]. split; [done|]. lia.
    + split; [done|]. split.
      { intros tm' [<-|Hin] Htm'; [congruence|]. by apply IH2. }
      split; [|done].
      destruct IH3 as [E|(tm' & Hin & Htm' & E)]; [by left|].
      right. exists tm'. split; [by right|done].
Qed.

(** The state right after the pair is recorded. *)
Lemma entryLive_remember (T P : string) (o : Overlay) :
  overlayInv o ->
  entryLive T P (firstDue T P o (now o + EXPIRY_MS))
    (rememberRecentlyAdded T P o).
Proof.
  intros [Hdue _].
  destruct (firstDue_spec T P o (now o + EXPIRY_MS)) as (F1 & F2 & F3 & _).
  set (d := firstDue T P o (now o + EXPIRY_MS)) in *.
  unfold entryLive. simpl. split.
  { destruct F3 as [E|(tm & Hin & _ & E)].
    - rewrite E. unfold EXPIRY_MS. lia.
    - rewrite <- E. by destruct (Hdue tm Hin). }
  split.
  { rewrite inOverlay_remember. by rewrite bool_decide_eq_true_2. }
  split.
  - destruct F3 as [E|(tm & Hin & Htm & E)].
    + eexists. split; [apply in_or_app; right; by left|].
      split; [|by rewrite E].
      rewrite timerFor_remember. by rewrite bool_decide_eq_true_2.
    + exists tm. split; [apply in_or_app; by left|done].
  - intros tm Hin Htm. apply in_app_or in Hin as [Hin|[<-|[]]].
    + by apply F2.
    + done.
Qed.

(** Whatever happens, short of a new add of the pair, the entry stays
    until the clock reaches the earliest due time of its timers and is
    gone from then on. *)
Lemma entry_step (T P : string) (d : N) (o : Overlay) (e : OverlayEvent) :
  e <> OvRemember T P ->
  entryLive T P d o \/ entryGone T P d o ->
  entryLive T P d (overlayStep o e) \/ entryGone T P d (overlayStep o e).
Proof.
  intros Hne H. destruct e as [tid pid|dt].
  - (* another pair is recorded *)
    assert (Hb : ~ (tid = T /\ pid = P)) by (intros [-> ->]; by apply Hne).
    assert (Hrec : recentlyAdded T P (rememberRecentlyAdded tid pid o)
                   = recentlyAdded T P o).
    { rewrite inOverlay_remember. by rewrite bool_decide_eq_false_2. }
    simpl. destruct H as [(H1 & H2 & (tm & Hin & Htm & Hd) & H4)|(H1 & H2)].
    + left. split; [done|]. split; [congruence|]. split.
      * exists tm. split; [|done]. simpl. apply in_or_app. by left.
      * intros tm' Hin' Hfor. simpl in Hin'.
        apply in_app_or in Hin' as [Hin'|[<-|[]]]; [eauto|].
        rewrite timerFor_remember, bool_decide_eq_false_2 in Hfor by done.
        discriminate.
    + right. split; [done|]. congruence.
  - (* the clock advances *)
    unfold entryLive, entryGone in *.
    rewrite !recentlyAdded_inOverlay in *. simpl.
    destruct H as [(H1 & H2 & (tm & Hin & Htm & Hdue) & H4)|(H1 & H2)].
    + destruct (N.le_gt_cases d (now o + dt)) as [Hle|Hgt].
      * right. split; [done|].
        apply fold_expire_hits. apply existsb_exists. exists tm.
        split; [|done]. apply filter_In. split; [done|].
        unfold isDue. apply N.leb_le. lia.
      * left. split; [lia|]. split.
        -- rewrite fold_expire_keeps; [done|].
           destruct (existsb (timerFor T P) (List.filter _ _)) eqn:E; [|done].
           apply existsb_exists in E as (tm' & Hin' & Htm').
           apply filter_In in Hin' as [Hin' Hd].
           pose proof (H4 _ Hin' Htm') as Hdue'.
           unfold isDue in Hd. apply N.leb_le in Hd. lia.
        -- split.
           ++ exists tm. split; [|done].
              apply filter_In. split; [done|].
              unfold isDue. apply negb_true_iff, N.leb_gt. lia.
           ++ intros tm' Hin' Htm'. apply filter_In in Hin' as [Hin' _].
              eauto.
    + right. split; [lia|]. by apply fold_expire_gone.
Qed.

Lemma entry_exec (T P : string) (d : N) (tr : list OverlayEvent) (o : Overlay) :
  OvRemember T P ∉ tr ->
  entryLive T P d o \/ entryGone T P d o ->
  entryLive T P d (overlayExec o tr) \/ entryGone T P d (overlayExec o tr).
Proof.
  revert o. induction tr as [|e tr IH]; simpl; intros o Hnot H; [done|].
  apply not_elem_of_cons in Hnot as [Hne Hnot].
  apply IH; [done|]. apply entry_step; [congruence|done].
Qed.

(** The modal unions the overlay into what the lookups found. *)
Lemma elem_of_modalInSet (h1 h2 : Host) (T P : string)
    (meta : option SongMeta) (o : Overlay) :
  P ∈ modalInSet h1 h2 (Js.Str T) meta o
  <-> P ∈ lookedUpInSet h1 h2 (Js.Str T) meta
      \/ (T <> "" /\ recentlyAdded T P o = true).
Proof.
  unfold modalInSet, recentlyAdded. simpl.
  destruct (String.eqb_spec T "") as [->|Hne]; simpl.
  - split; [by left|]. intros [H|[H _]]; done.
  - destruct (recentlyAddedByTrack o !! T) as [s|].
    + rewrite elem_of_union, bool_decide_eq_true. tauto.
    + split; [by left|]. intros [H|[_ H]]; done.
Qed.

End OverlayFacts.

(** C7, as the code has it.  A call of [rememberRecentlyAdded] for the
    pair [(T, P)] records the pair and sets one timer, due when the window
    of 120000 ms has passed; no timer is ever cancelled.  As long as the
    pair is not added again, and whatever is recorded for other playlists
    of the same track or for other tracks in the meantime, the entry stays
    in the set of [T] until the earliest timer pending for the pair is due
    and is out of the set from then on.  That time [d] is the end of the
    window when no timer of an earlier add of the pair is pending; when
    one is, it is the due time of such an earlier timer, at most the
    window ahead.  From [d] on the modal shows [P] as containing the track
    only when a lookup found it; and no track is ever mapped to an empty
    set. *)
Theorem C7_override_expiry :
  forall (tr0 : list OverlayEvent) (T P : string) (tr : list OverlayEvent),
    let o0 := overlayExec initialOverlay tr0 in
    let o1 := rememberRecentlyAdded T P o0 in
    let o := overlayExec o1 tr in
    let d := firstDue T P o0 (now o0 + EXPIRY_MS) in
    OvRemember T P ∉ tr ->
    (recentlyAdded T P o1 = true
     /\ timers o1
        = timers o0
          ++ [{| timer_due := now o0 + EXPIRY_MS;
                 timer_track := T;
                 timer_playlist := P |}])
    /\ (now o0 < d)%N
    /\ (d <= now o0 + EXPIRY_MS)%N
    /\ (hasTimer T P o0 = false -> d = (now o0 + EXPIRY_MS)%N)
    /\ (hasTimer T P o0 = true ->
        exists tm, In tm (timers o0) /\ timerFor T P tm = true
                   /\ timer_due tm = d)
    /\ ((now o < d)%N -> recentlyAdded T P o = true)
    /\ ((d <= now o)%N ->
        recentlyAdded T P o = false
        /\ forall h1 h2 meta,
             P ∈ modalInSet h1 h2 (Js.Str T) meta o
             <-> P ∈ lookedUpInSet h1 h2 (Js.Str T) meta)
    /\ noEmptySet (recentlyAddedByTrack o).
Proof.
  intros tr0 T P tr o0 o1 o d Hnot.
  assert (I0 : overlayInv o0) by apply overlayInv_exec, overlayInv_initial.
  pose proof (entryLive_remember T P o0 I0) as Hlive. fold d o1 in Hlive.
  destruct (firstDue_spec T P o0 (now o0 + EXPIRY_MS)) as (F1 & F2 & F3 & F4).
  fold d in F1, F2, F3, F4.
  pose proof (entry_exec T P d tr o1 Hnot (or_introl Hlive)) as H. fold o in H.
  split.
  { split; [|done]. by destruct Hlive as (_ & ? & _). }
  split; [by destruct Hlive as (? & _)|].
  split; [done|]. split; [done|]. split.
  { intros Ht. destruct F3 as [E|F3]; [|done].
    apply existsb_exists in Ht as (tm & Hin & Htm).
    exists tm. split; [done|]. split; [done|].
    pose proof (F2 tm Hin Htm). destruct I0 as [Hdue _].
    destruct (Hdue tm Hin). lia. }
  split; [|split].
  - intros Hlt. destruct H as [(_ & H & _)|(Hge & _)]; [done|lia].
  - intros Hge. destruct H as [(Hlt & _)|(_ & H)]; [lia|].
    split; [done|]. intros h1 h2 meta. rewrite elem_of_modalInSet.
    split; [|by left]. intros [Hin|[_ Hrec]]; [done|congruence].
  - subst o. apply noEmptySet_exec.
    apply (noEmptySet_step o0 (OvRemember T P)).
    subst o0. apply noEmptySet_exec. intros T' s H'. simpl in H'.
    by rewrite lookup_empty in H'.
Qed.

(** The entry of the counterexample: recorded at 150 s while the timer of
    the add at 60 s is pending, it is there until 180 s and gone then;
    and an entry recorded with no timer pending is there for the whole
    window. *)
Lemma C7_override_expiry_witness :
  firstDue "123" "B" (overlayExec initialOverlay staleTimerPending)
    (now (overlayExec initialOverlay staleTimerPending) + EXPIRY_MS)
  = 180000%N
  /\ recentlyAdded "123" "B"
       (overlayExec
          (rememberRecentlyAdded "123" "B"
             (overlayExec initialOverlay staleTimerPending))
          [OvAdvance 29999])
     = true
  /\ recentlyAdded "123" "B"
       (overlayExec
          (rememberRecentlyAdded "123" "B"
             (overlayExec initialOverlay staleTimerPending))
          [OvAdvance 30000])
     = false
  /\ recentlyAdded "123" "B"
       (overlayExec
          (rememberRecentlyAdded "123" "B" (overlayExec initialOverlay []))
          otherEntrySameTrack)
     = true
  /\ recentlyAdded "123" "B"
       (overlayExec
          (rememberRecentlyAdded "123" "B" (overlayExec initialOverlay []))
          (otherEntrySameTrack ++ [OvAdvance 90000]))
     = false.
Proof.
  assert (H0 : OvRemember "123" "B" ∉ [OvAdvance 29999]) by not_in_closed_list.
  assert (H1 : OvRemember "123" "B" ∉ [OvAdvance 30000]) by not_in_closed_list.
  assert (H2 : OvRemember "123" "B" ∉ otherEntrySameTrack)
    by not_in_closed_list.
  assert (H3 : OvRemember "123" "B" ∉ otherEntrySameTrack ++ [OvAdvance 90000])
    by not_in_closed_list.
  split; [vm_compute; reflexivity|]. split; [|split; [|split]].
  - apply (C7_override_expiry staleTimerPending "123" "B" [OvAdvance 29999] H0).
    vm_compute. reflexivity.
  - apply (C7_override_expiry staleTimerPending "123" "B" [OvAdvance 30000] H1).
    vm_compute. discriminate.
  - apply (C7_override_expiry [] "123" "B" otherEntrySameTrack H2).
    vm_compute. reflexivity.
  - apply (C7_override_expiry [] "123" "B"
             (otherEntrySameTrack ++ [OvAdvance 90000]) H3).
    vm_compute. discriminate.
Defined.

(** The expiry rule read literally fails: an entry recorded at 150 s while
    the timer of the add at 60 s is still pending is removed by that timer
    at 180 s, 30 s after it was recorded. *)
Lemma C7_counterexample : ~ expiresAfterWindow.
Proof.
  intros H.
  destruct (H staleTimerPending "123" "B" [OvAdvance 30000]) as [H1 _].
  - not_in_closed_list.
  - assert (Hlt : (180000 < 150000 + 120000)%N) by (vm_compute; reflexivity).
    specialize (H1 Hlt). vm_compute in H1. discriminate H1.
Qed.

(** ** The playlist-add operation *)

Section AddLoop.

Variable act : AddAction.
Variable song : MediaItem.

(** The loop does not touch the resolver. *)
Lemma addOne_resolver (acc : Plugin * nat * nat) (playlistId : Js.value) :
  resolver (addOne act song acc playlistId).1.1 = resolver acc.1.1.
Proof.
  destruct acc as [[p s] e]. simpl. by destruct (act _ _).
Qed.

Lemma foldl_addOne_resolver (selected : list Js.value)
    (acc : Plugin * nat * nat) :
  resolver (foldl (addOne act song) acc selected).1.1 = resolver acc.1.1.
Proof.
  revert acc. induction selected as [|x l IH]; simpl; intros acc; [done|].
  by rewrite IH, addOne_resolver.
Qed.

(** Every turn calls the action once. *)
Lemma addOne_dispatched (acc : Plugin * nat * nat) (playlistId : Js.value) :
  dispatched (addOne act song acc playlistId).1.1
  = dispatched acc.1.1 ++ [payloadFor song playlistId].
Proof.
  destruct acc as [[p s] e]. simpl. by destruct (act _ _).
Qed.

(** Every selected playlist is attempted, in order. *)
Lemma foldl_addOne_dispatched (selected : list Js.value)
    (acc : Plugin * nat * nat) :
  dispatched (foldl (addOne act song) acc selected).1.1
  = dispatched acc.1.1 ++ map (payloadFor song) selected.
Proof.
  revert acc. induction selected as [|x l IH]; simpl; intros acc.
  - by rewrite app_nil_r.
  - by rewrite IH, addOne_dispatched, <- app_assoc.
Qed.

(** A pair that is in the overlay stays there during the loop. *)
Lemma addOne_keeps (T P : string) (acc : Plugin * nat * nat)
    (playlistId : Js.value) :
  recentlyAdded T P (overlay acc.1.1) = true ->
  recentlyAdded T P (overlay (addOne act song acc playlistId).1.1) = true.
Proof.
  destruct acc as [[p s] e]. simpl. destruct (act _ _); simpl; [|done].
  intros H. rewrite inOverlay_remember. by case_bool_decide.
Qed.

Lemma foldl_addOne_keeps (T P : string) (selected : list Js.value)
    (acc : Plugin * nat * nat) :
  recentlyAdded T P (overlay acc.1.1) = true ->
  recentlyAdded T P (overlay (foldl (addOne act song) acc selected).1.1) = true.
Proof.
  revert acc. induction selected as [|x l IH]; simpl; intros acc H; [done|].
  by apply IH, addOne_keeps.
Qed.

(** The add of the [i]-th selected playlist is recorded when the action
    returned, given the calls made before it. *)
Lemma foldl_addOne_records (selected : list Js.value)
    (acc : Plugin * nat * nat) (i : nat) (playlistId : Js.value) :
  selected !! i = Some playlistId ->
  Js.is_normal
    (act (dispatched acc.1.1 ++ map (payloadFor song) (take i selected))
       (payloadFor song playlistId)) = true ->
  recentlyAdded (Js.to_String (item_id song)) (Js.to_String playlistId)
    (overlay (foldl (addOne act song) acc selected).1.1) = true.
Proof.
  revert acc i. induction selected as [|x l IH]; intros acc i Hi Hok.
  - discriminate Hi.
  - destruct i as [|i]; simpl in Hi.
    + injection Hi as ->. simpl in *. rewrite app_nil_r in Hok.
      apply foldl_addOne_keeps. destruct acc as [[p s] e]. simpl in *.
      destruct (act (dispatched p) (payloadFor song playlistId));
        [|discriminate].
      simpl. rewrite inOverlay_remember. by rewrite bool_decide_eq_true_2.
    + simpl. apply (IH _ i); [done|].
      rewrite addOne_dispatched. simpl in Hok.
      by rewrite <- app_assoc.
Qed.

(** What the operation leaves behind once the title is known. *)
Lemma resume_resolver (selected : list Js.value) (songTitle : string)
    (p : Plugin) :
  resolver (addToSelectedPlaylists_resume act song selected
              (Js.Normal songTitle) p)
  = invalidate (Js.to_String (item_id song)) (resolver p).
Proof.
  unfold addToSelectedPlaylists_resume.
  pose proof (foldl_addOne_resolver selected (p, 0%nat, 0%nat)) as H.
  destruct (foldl _ _ _) as [[p1 s] e]. simpl in *.
  destruct (0 <? e)%nat; simpl; by rewrite H.
Qed.

Lemma resume_overlay (selected : list Js.value) (songTitle : string)
    (p : Plugin) :
  overlay (addToSelectedPlaylists_resume act song selected
             (Js.Normal songTitle) p)
  = overlay (foldl (addOne act song) (p, 0%nat, 0%nat) selected).1.1.
Proof.
  unfold addToSelectedPlaylists_resume.
  destruct (foldl _ _ _) as [[p1 s] e]. simpl.
  by destruct (0 <? e)%nat.
Qed.

Lemma resume_dispatched (selected : list Js.value) (songTitle : string)
    (p : Plugin) :
  dispatched (addToSelectedPlaylists_resume act song selected
                (Js.Normal songTitle) p)
  = dispatched p ++ map (payloadFor song) selected.
Proof.
  unfold addToSelectedPlaylists_resume.
  pose proof (foldl_addOne_dispatched selected (p, 0%nat, 0%nat)) as H.
  destruct (foldl _ _ _) as [[p1 s] e]. simpl in *.
  by destruct (0 <? e)%nat.
Qed.

End AddLoop.

(** C3, as the code has it.  When the operation resumes with the title of
    the song, in whatever state the plugin is by then, it calls the add
    action once for each selected playlist and ends with nothing cached for
    the track, so the next call of [getMembership] is not answered from the
    cache.  When no computation for the track is in the in-flight map the
    call creates a new one, which calls the lookup at once when a slot is
    free and waits in the queue otherwise.  When one is in the map the call
    joins it and nothing else happens; the operation has left the
    computations, the in-flight map and the lookups made as they were, so
    what the call then gets is the outcome of a lookup that began before
    the invalidation: when the computation for the track had stored its
    result before the operation ended and only its [finally] callbacks were
    still to run, the call joins it and its promise settles with that
    result, with no lookup made for the track.  Every playlist whose add
    succeeded is in the overlay set of the track.  When the request for the title fails, the operation
    ends with an error notification and nothing else changes.  The same
    holds for the operation run in one go with a non-empty selection. *)
Theorem C3_add_invalidates_and_records :
  forall (act : AddAction) (song : MediaItem),
    let T := Js.to_String (item_id song) in
    (forall (selected : list Js.value) (songTitle : string) (p : Plugin),
        let p' :=
          addToSelectedPlaylists_resume act song selected (Js.Normal songTitle) p in
        let r' := resolver p' in
        membershipResultCache r' !! T = None
        /\ dispatched p' = dispatched p ++ map (payloadFor song) selected
        /\ (forall res, fst (getMembership T r') <> Cached res)
        /\ (membershipInFlight r' !! T = None ->
            let free := (inFlightCount r' <? MAX_CONCURRENT_MEMBERSHIP)%Z in
            fst (getMembership T r') = Pending (length (jobs r'))
            /\ jobs (snd (getMembership T r'))
               = jobs r'
                 ++ [{| job_track := T;
                        job_phase := if free then Running else Queued |}]
            /\ lookups (snd (getMembership T r'))
               = (if free then lookups r' ++ [T] else lookups r')
            /\ membershipInFlight (snd (getMembership T r')) !! T
               = Some (length (jobs r')))
        /\ (forall j, membershipInFlight r' !! T = Some j ->
              getMembership T r' = (Pending j, r'))
        /\ jobs r' = jobs (resolver p)
        /\ membershipInFlight r' = membershipInFlight (resolver p)
        /\ lookups r' = lookups (resolver p)
        /\ (reachable (resolver p) ->
            forall j o,
              jobs (resolver p) !! j
              = Some {| job_track := T; job_phase := Settled o |} ->
              getMembership T r' = (Pending j, r')
              /\ exists r'',
                   finalize j r' = Some r''
                   /\ settledTo r'' (Pending j) = Some o
                   /\ lookupCount T r'' = lookupCount T (resolver p))
        /\ (forall i playlistId,
              selected !! i = Some playlistId ->
              Js.is_normal
                (act (dispatched p ++ map (payloadFor song) (take i selected))
                   (payloadFor song playlistId)) = true ->
              recentlyAdded T (Js.to_String playlistId) (overlay p') = true))
    /\ (forall (selected : list Js.value) (e : Js.error) (p : Plugin),
          addToSelectedPlaylists_resume act song selected (Js.Throw e) p
          = showNotification "Error adding song to playlists" error p)
    /\ (forall (checkboxes : list Checkbox) (songTitle : string) (p : Plugin),
          selectedPlaylistIds checkboxes <> [] ->
          let p' :=
            addToSelectedPlaylists_run act checkboxes song (Js.Normal songTitle) p in
          membershipResultCache (resolver p') !! T = None
          /\ jobs (resolver p') = jobs (resolver p)
          /\ membershipInFlight (resolver p') = membershipInFlight (resolver p)
          /\ lookups (resolver p') = lookups (resolver p)
          /\ (forall i playlistId,
                selectedPlaylistIds checkboxes !! i = Some playlistId ->
                Js.is_normal
                  (act (dispatched p
                        ++ map (payloadFor song)
                             (take i (selectedPlaylistIds checkboxes)))
                     (payloadFor song playlistId)) = true ->
                recentlyAdded T (Js.to_String playlistId) (overlay p') = true)).
Proof.
  intros act song T.
  assert (Hresume : forall selected songTitle p,
            let p' :=
              addToSelectedPlaylists_resume act song selected (Js.Normal songTitle) p in
            membershipResultCache (resolver p') !! T = None
            /\ jobs (resolver p') = jobs (resolver p)
            /\ membershipInFlight (resolver p') = membershipInFlight (resolver p)
            /\ lookups (resolver p') = lookups (resolver p)
            /\ (forall i playlistId,
                  selected !! i = Some playlistId ->
                  Js.is_normal
                    (act (dispatched p ++ map (payloadFor song) (take i selected))
                       (payloadFor song playlistId)) = true ->
                  recentlyAdded T (Js.to_String playlistId) (overlay p') = true)).
  { intros selected songTitle p p'. subst p'.
    rewrite resume_resolver.
    split; [apply lookup_delete_eq|]. split; [done|]. split; [done|].
    split; [done|].
    intros i playlistId Hi Hok. rewrite resume_overlay.
    by apply (foldl_addOne_records act song selected (p, 0%nat, 0%nat) i). }
  split; [|split].
  - intros selected songTitle p p' r'.
    destruct (Hresume selected songTitle p) as (Hc & Hj & Hf & Hl & Hrec).
    fold p' in Hc, Hj, Hf, Hl, Hrec. fold r' in Hc, Hj, Hf, Hl.
    split; [done|]. split; [apply resume_dispatched|]. split.
    { intros res H.
      destruct (getMembership_cases T r')
        as [(res' & Hc' & _)|[(j & _ & _ & E)|[_ Hi]]].
      - congruence.
      - rewrite E in H. discriminate.
      - rewrite (getMembership_new T _ Hc Hi) in H. discriminate. }
    split.
    { intros Hi free. rewrite (getMembership_new T _ Hc Hi). fold free.
      destruct free; simpl; (split; [done|]); (split; [done|]);
        (split; [done|]); apply lookup_insert_eq. }
    split.
    { intros j Hi. by apply getMembership_inflight. }
    split; [done|]. split; [done|]. split; [done|]. split; [|done].
    intros Hreach j o Hjob.
    assert (I : ResolverInv (resolver p)) by (by apply inv_reachable).
    assert (E : r' = invalidate T (resolver p)) by apply resume_resolver.
    assert (I' : ResolverInv r') by (rewrite E; by apply inv_invalidate).
    assert (Hjob' : jobs r' !! j
                    = Some {| job_track := T; job_phase := Settled o |})
      by (by rewrite Hj).
    pose proof (inv_active _ I' _ _ Hjob' eq_refl) as Hi. simpl in Hi.
    split; [by apply getMembership_inflight|].
    pose proof (finalize_spec _ _ _ _ Hjob') as Hfin.
    destruct (finalize_clears _ _ _ _ _ I' Hjob' Hfin) as (_ & _ & _ & H1 & H2).
    eexists. split; [exact Hfin|]. split; [exact H1|].
    rewrite H2. unfold lookupCount. by rewrite Hl.
  - done.
  - intros checkboxes songTitle p Hsel p'. subst p'.
    unfold addToSelectedPlaylists_run, addToSelectedPlaylists.
    assert (Hlen : (length (selectedPlaylistIds checkboxes) =? 0)%nat = false).
    { by destruct (selectedPlaylistIds checkboxes). }
    rewrite Hlen. destruct (item_hasTitle song); apply Hresume.
Qed.

Lemma C3_add_invalidates_and_records_witness :
  selectedPlaylistIds tickedBC <> []
  /\ selectedPlaylistIds tickedBC !! 0%nat = Some (Js.Str "B")
  /\ Js.is_normal
       (actWithoutC
          (dispatched pluginWithCachedResult
           ++ map (payloadFor song123) (take 0 (selectedPlaylistIds tickedBC)))
          (payloadFor song123 (Js.Str "B"))) = true
  /\ membershipResultCache
       (resolver
          (addToSelectedPlaylists_run actWithoutC tickedBC song123
             (Js.Normal "Song") pluginWithCachedResult))
       !! "123" = None
  /\ recentlyAdded "123" "B"
       (overlay
          (addToSelectedPlaylists_run actWithoutC tickedBC song123
             (Js.Normal "Song") pluginWithCachedResult))
     = true
  /\ reachable (resolver pluginWithSettledLookup)
  /\ exists r'',
       finalize 0
         (resolver
            (addToSelectedPlaylists_resume actOk song123 [Js.Str "B"]
               (Js.Normal "Song") pluginWithSettledLookup))
       = Some r''
       /\ settledTo r'' (Pending 0)
          = Some (Js.Normal
                    {| existsInPlaylists := true;
                       playlists := [{| uuid := "A"; title := "Mine" |}] |})
       /\ lookupCount "123" r''
          = lookupCount "123" (resolver pluginWithSettledLookup).
Proof.
  assert (H1 : selectedPlaylistIds tickedBC <> []) by discriminate.
  assert (H2 : reachable (resolver pluginWithSettledLookup)).
  { exists [ EvGetMembership "123";
             EvSettle 0
               (Js.Normal
                  {| existsInPlaylists := true;
                     playlists := [{| uuid := "A"; title := "Mine" |}] |}) ].
    vm_compute. reflexivity. }
  destruct (C3_add_invalidates_and_records actWithoutC song123) as (_ & _ & H).
  destruct (H tickedBC "Song" pluginWithCachedResult H1) as (Hc & _ & _ & _ & Hrec).
  destruct (C3_add_invalidates_and_records actOk song123) as (H' & _ & _).
  destruct (H' [Js.Str "B"] "Song" pluginWithSettledLookup)
    as (_ & _ & _ & _ & _ & _ & _ & _ & Hstale & _).
  split; [exact H1|]. split; [reflexivity|]. split; [reflexivity|].
  split; [exact Hc|]. split; [apply (Hrec 0%nat (Js.Str "B")); reflexivity|].
  split; [exact H2|].
  apply (Hstale H2 0%nat
           (Js.Normal
              {| existsInPlaylists := true;
                 playlists := [{| uuid := "A"; title := "Mine" |}] |})).
  vm_compute. reflexivity.
Defined.

(** Track 123 is added to B, which succeeds, and to C, which fails: one
    error notification with both counts, both calls made, B in the overlay
    and C not, and nothing cached for the track. *)
Example add_partial_success :
  let p' :=
    addToSelectedPlaylists_run actWithoutC tickedBC song123 (Js.Normal "Song")
      pluginWithCachedResult in
  notifications p'
  = [(dquote +:+ "Song" +:+ dquote +:+ " added to 1 playlist (1 failed)", error)]
  /\ map playlistUUID (dispatched p') = [Js.Str "B"; Js.Str "C"]
  /\ recentlyAdded "123" "B" (overlay p') = true
  /\ recentlyAdded "123" "C" (overlay p') = false
  /\ membershipResultCache (resolver pluginWithCachedResult) !! "123"
     = Some {| existsInPlaylists := true;
               playlists := [{| uuid := "A"; title := "Mine" |}] |}
  /\ membershipResultCache (resolver p') !! "123" = None.
Proof. repeat split; vm_compute; reflexivity. Qed.

(** The result of the lookup of track 123 is cached, but the [finally]
    callbacks of the computation have not run yet, when the track is added
    to B.  The operation drops the cached result; the next call joins the
    computation that is still in the in-flight map, no lookup is made, and
    the promise settles with the result from before the add. *)
Example add_then_join_settled_lookup :
  let p' :=
    addToSelectedPlaylists_run actOk tickedB song123 (Js.Normal "Song")
      pluginWithSettledLookup in
  let r'' := default initialResolver (hostExec (resolver p') [HostFinally 0]) in
  membershipResultCache (resolver pluginWithSettledLookup) !! "123"
  = Some {| existsInPlaylists := true;
            playlists := [{| uuid := "A"; title := "Mine" |}] |}
  /\ membershipResultCache (resolver p') !! "123" = None
  /\ recentlyAdded "123" "B" (overlay p') = true
  /\ getMembership "123" (resolver p') = (Pending 0, resolver p')
  /\ settledTo r'' (Pending 0)
     = Some (Js.Normal {| existsInPlaylists := true;
                          playlists := [{| uuid := "A"; title := "Mine" |}] |})
  /\ lookupCount "123" r'' = 1%nat.
Proof. repeat split; vm_compute; reflexivity. Qed.

(** The invalidation rule read literally fails: when the request for the
    title of the song fails, the operation ends without any add and the
    cached result of the track stays. *)
Lemma C3_counterexample : ~ addAlwaysInvalidates.
Proof.
  intros H.
  specialize (H actOk tickedB song123 (Js.Throw (Js.HostError "no title"))
                pluginWithCachedResult).
  assert (Hsel : selectedPlaylistIds tickedB <> []) by discriminate.
  specialize (H Hsel). vm_compute in H. discriminate H.
Qed.

(** C8: with no playlist selected the operation shows the error
    notification and ends at once: the add action is not called, the
    overlay and the resolver (its cache included) stay as they are. *)
Theorem C8_zero_selection_rejected :
  forall (act : AddAction) (checkboxes : list Checkbox)
         (song : MediaItem) (p : Plugin),
    selectedPlaylistIds checkboxes = [] ->
    exists p',
      addToSelectedPlaylists act checkboxes song p = AddFinished p'
      /\ (forall songTitle,
            addToSelectedPlaylists_run act checkboxes song songTitle p = p')
      /\ notifications p'
         = notifications p ++ [("Please select at least one playlist", error)]
      /\ dispatched p' = dispatched p
      /\ overlay p' = overlay p
      /\ resolver p' = resolver p
      /\ membershipResultCache (resolver p') = membershipResultCache (resolver p).
Proof.
  intros act checkboxes song p Hsel.
  exists (showNotification "Please select at least one playlist" error p).
  unfold addToSelectedPlaylists_run, addToSelectedPlaylists.
  rewrite Hsel. simpl. repeat split; reflexivity.
Qed.

Lemma C8_zero_selection_rejected_witness :
  selectedPlaylistIds tickedNone = []
  /\ exists p',
       addToSelectedPlaylists actOk tickedNone song123 pluginWithCachedResult
       = AddFinished p'
       /\ (forall songTitle,
             addToSelectedPlaylists_run actOk tickedNone song123 songTitle
               pluginWithCachedResult = p')
       /\ notifications p'
          = notifications pluginWithCachedResult
            ++ [("Please select at least one playlist", error)]
       /\ dispatched p' = dispatched pluginWithCachedResult
       /\ overlay p' = overlay pluginWithCachedResult
       /\ resolver p' = resolver pluginWithCachedResult
       /\ membershipResultCache (resolver p')
          = membershipResultCache (resolver pluginWithCachedResult).
Proof.
  split; [reflexivity|].
  apply (C8_zero_selection_rejected actOk tickedNone song123
           pluginWithCachedResult).
  reflexivity.
Defined.

(** ** The row annotation pipeline *)

Section Rows.

Variable resolveHref : string -> string.

Lemma getAttribute_setAttribute (name name' value : string) (row : Element) :
  getAttribute name (setAttribute name' value row)
  = if decide (name' = name) then Some value else getAttribute name row.
Proof. destruct row as [t a c]. simpl. apply lookup_insert. Qed.

Lemma isMarked_setAttribute (row : Element) :
  isMarked (setAttribute CHECKED_ATTR "1" row).
Proof.
  unfold isMarked. rewrite getAttribute_setAttribute. by rewrite decide_True.
Qed.

(** A marked row is left alone: no extraction, no call of the resolver. *)
Lemma processTrackRow_marked (row : Element) (w : Pipeline) :
  isMarked row -> processTrackRow resolveHref row w = (row, w).
Proof.
  intros H. unfold processTrackRow. by rewrite bool_decide_eq_true_2.
Qed.

(** An unmarked row: one extraction, then the mark, then at most one call
    of the resolver. *)
Lemma processTrackRow_unmarked (row : Element) (w : Pipeline) :
  ~ isMarked row ->
  processTrackRow resolveHref row w
  = match truthyString (getTrackIdFromRow resolveHref row) with
    | None =>
        (setAttribute CHECKED_ATTR "1" row,
         {| pipe_resolver := pipe_resolver w;
            pipe_effects :=
              pipe_effects w
              ++ [Extraction (getTrackIdFromRow resolveHref row)] |})
    | Some trackId =>
        (setAttribute CHECKED_ATTR "1" row,
         {| pipe_resolver := snd (getMembership trackId (pipe_resolver w));
            pipe_effects :=
              (pipe_effects w
               ++ [Extraction (getTrackIdFromRow resolveHref row)])
              ++ [WarmResolve trackId;
                  ResolverCall trackId
                    (fst (getMembership trackId (pipe_resolver w)))] |})
    end.
Proof.
  intros H. unfold processTrackRow. rewrite bool_decide_eq_false_2 by done.
  destruct (truthyString _) as [trackId|]; [|done]. simpl.
  by destruct (getMembership trackId (pipe_resolver w)).
Qed.

Lemma isMarked_processTrackRow (row : Element) (w : Pipeline) :
  isMarked (fst (processTrackRow resolveHref row w)).
Proof.
  destruct (decide (isMarked row)) as [H|H].
  - by rewrite processTrackRow_marked.
  - rewrite processTrackRow_unmarked by done.
    destruct (truthyString _); apply isMarked_setAttribute.
Qed.

Lemma effects_count (w : Pipeline) (row : Element) :
  (extractions (snd (processTrackRow resolveHref row w))
   = extractions w + (if decide (isMarked row) then 0 else 1))%nat
  /\ (resolverCalls (snd (processTrackRow resolveHref row w))
      = resolverCalls w
        + (if decide (isMarked row) then 0
           else match truthyString (getTrackIdFromRow resolveHref row) with
                | Some _ => 1
                | None => 0
                end))%nat.
Proof.
  unfold extractions, resolverCalls.
  destruct (decide (isMarked row)) as [H|H].
  - rewrite processTrackRow_marked by done. simpl. lia.
  - rewrite processTrackRow_unmarked by done.
    destruct (truthyString _); simpl;
      rewrite ?List.filter_app, ?length_app; simpl; lia.
Qed.

Lemma isMarked_annotate (row : Element) (res : SongInPlaylistsResult) :
  isMarked row -> isMarked (annotateRowWithMembership row res).
Proof.
  unfold isMarked, annotateRowWithMembership.
  rewrite !getAttribute_setAttribute.
  rewrite !decide_False by discriminate. done.
Qed.

End Rows.

(** Extraction: an attribute of a descendant, and the digits of a track
    link. *)
Example extraction_samples :
  getTrackIdFromRow (fun s => s) sampleRow = Some "123"
  /\ getTrackIdFromRow (fun s => "https://host" +:+ s)
       (El "div" ∅ [El "a" {[ "href" := "/album/5/track/987?x=1" ]} []])
     = Some "987"
  /\ getTrackIdFromRow (fun s => s) rowWithoutId = None.
Proof. repeat split; reflexivity. Qed.

(** C6: [processTrackRow] leaves the row marked; a second invocation on the
    row as the first one left it changes nothing, so that both together run
    the extraction once (not at all on a row that was marked already) and
    call the resolver at most once; every invocation on a marked row returns
    the row and the state as they are; a row without an id is marked without
    any call of the resolver; and annotating a row keeps its mark. *)
Theorem C6_row_processed_once :
  forall (resolveHref : string -> string) (row : Element) (w : Pipeline),
    let r1 := processTrackRow resolveHref row w in
    let r2 := processTrackRow resolveHref (fst r1) (snd r1) in
    isMarked (fst r1)
    /\ r2 = r1
    /\ (extractions (snd r2)
        = extractions w + (if decide (isMarked row) then 0 else 1))%nat
    /\ (resolverCalls (snd r2) <= resolverCalls w + 1)%nat
    /\ (forall row' w',
          isMarked row' -> processTrackRow resolveHref row' w' = (row', w'))
    /\ (truthyString (getTrackIdFromRow resolveHref row) = None ->
        resolverCalls (snd r1) = resolverCalls w
        /\ pipe_resolver (snd r1) = pipe_resolver w)
    /\ (forall res, isMarked (annotateRowWithMembership (fst r1) res)).
Proof.
  intros resolveHref row w r1 r2.
  assert (Hm : isMarked (fst r1)) by apply isMarked_processTrackRow.
  assert (E : r2 = r1).
  { subst r2. rewrite processTrackRow_marked by done. by destruct r1. }
  destruct (effects_count resolveHref w row) as [He Hc].
  fold r1 in He, Hc.
  split; [done|]. split; [done|]. rewrite E.
  split; [done|]. split.
  { rewrite Hc. destruct (decide (isMarked row)); [lia|].
    destruct (truthyString _); lia. }
  split; [intros row' w'; apply processTrackRow_marked|]. split.
  - intros Hnone. split.
    + rewrite Hc, Hnone. destruct (decide (isMarked row)); lia.
    + subst r1. destruct (decide (isMarked row)) as [H|H].
      * by rewrite processTrackRow_marked.
      * rewrite processTrackRow_unmarked by done. by rewrite Hnone.
  - intros res. by apply isMarked_annotate.
Qed.

Lemma C6_row_processed_once_witness :
  truthyString (getTrackIdFromRow (fun s => s) rowWithoutId) = None
  /\ isMarked (fst (processTrackRow (fun s => s) sampleRow initialPipeline))
  /\ extractions
       (snd (processTrackRow (fun s => s)
               (fst (processTrackRow (fun s => s) sampleRow initialPipeline))
               (snd (processTrackRow (fun s => s) sampleRow initialPipeline))))
     = 1%nat
  /\ resolverCalls
       (snd (processTrackRow (fun s => s) rowWithoutId initialPipeline))
     = 0%nat.
Proof.
  split; [reflexivity|].
  destruct (C6_row_processed_once (fun s => s) sampleRow initialPipeline)
    as (H1 & _ & H3 & _).
  destruct (C6_row_processed_once (fun s => s) rowWithoutId initialPipeline)
    as (_ & _ & _ & _ & _ & H6 & _).
  split; [exact H1|]. split.
  - rewrite H3. rewrite decide_False; [reflexivity|]. discriminate.
  - apply (proj1 (H6 eq_refl)).
Defined.

(** * Further properties *)

(** ** Membership lookups *)

Section LookupFacts.

Variable h : Host.
Variable matches : RawItem -> bool.

(** The callbacks push exactly the enumerated playlists whose item list
    arrives and has a matching entry. *)
Lemma containingPlaylists_spec (userPlaylists : list (option Playlist))
    (containing : list PlaylistRef) (ref : PlaylistRef) :
  containingPlaylists h matches userPlaylists = Js.Normal containing ->
  ref ∈ containing
  <-> exists pl rawList,
        Some pl ∈ userPlaylists
        /\ deliveredItems h pl = Some rawList
        /\ existsb matches rawList = true
        /\ ref = refOf pl.
Proof.
  destruct (containingPlaylists_cases h matches userPlaylists)
    as [[_ ->]|(pls & -> & ->)]; [discriminate|].
  intros [= <-]. unfold deliveredItems. rewrite list_elem_of_omap. split.
  - intros [[lat o] [Hin Ho]]. simpl in Ho. subst o.
    rewrite elem_of_completionOrder, elem_of_map in Hin.
    destruct Hin as [pl [Hpl Hin]]. unfold probeItems in Hpl.
    injection Hpl as _ Hpl. exists pl.
    destruct (Js.bind _ _) as [rawList|]; [|discriminate].
    exists rawList. destruct (existsb matches rawList); [|discriminate].
    split; [by apply elem_of_map_Some|]. split; [done|]. split; [done|].
    congruence.
  - intros (pl & rawList & Hin & Hd & Hex & ->).
    exists (latency (playlistItems h (pl_uuid pl)), Some (refOf pl)).
    split; [|done]. rewrite elem_of_completionOrder, elem_of_map.
    exists pl. split; [|by apply elem_of_map_Some]. unfold probeItems.
    destruct (Js.bind _ _) as [rawList'|]; [|discriminate].
    injection Hd as ->. by rewrite Hex.
Qed.

(** With the store readable and the user known, the lookup returns what
    the callbacks pushed, and the empty result when a callback
    rejects. *)
Lemma lookupBody_found (state : StoreState) :
  getState h = Js.Normal (Some state) ->
  Js.truthy (user_meta_id state) = true ->
  exists res,
    Js.try_catch (lookupBody h matches) (fun _ => Js.Normal emptyResult)
    = Js.Normal res
    /\ (None ∈ userPlaylistsOf h state -> res = emptyResult)
    /\ (None ∉ userPlaylistsOf h state ->
        containingPlaylists h matches (userPlaylistsOf h state)
        = Js.Normal (playlists res)).
Proof.
  intros Hs Hu. unfold lookupBody. rewrite Hs. simpl. rewrite Hu. simpl.
  destruct (containingPlaylists_cases h matches (userPlaylistsOf h state))
    as [[Hin Hc]|(pls & E & Hc)].
  - exists emptyResult. rewrite Hc.
    destruct (length (userPlaylistsOf h state) =? 0)%nat; simpl;
      (split; [done|]); (split; [done|]); by intros [].
  - destruct (userPlaylistsOf h state) as [|pl l] eqn:El; simpl.
    + exists emptyResult. split; [done|]. split; [done|].
      intros _. by destruct pls.
    + rewrite Hc. simpl. eexists. split; [done|]. split; [|done].
      intros Hin. rewrite E in Hin. apply elem_of_map in Hin.
      by destruct Hin as (? & ? & ?).
Qed.

(** A test no entry passes finds nothing. *)
Lemma containingPlaylists_none (userPlaylists : list (option Playlist))
    (containing : list PlaylistRef) :
  (forall it, matches it = false) ->
  containingPlaylists h matches userPlaylists = Js.Normal containing ->
  containing = [].
Proof.
  intros Hno Hc. destruct containing as [|ref l]; [done|].
  assert (Hin : ref ∈ ref :: l) by apply list_elem_of_here.
  apply (containingPlaylists_spec _ _ _ Hc) in Hin
    as (pl & rawList & _ & _ & Hex & _).
  apply existsb_exists in Hex as (it & _ & Hit). by rewrite Hno in Hit.
Qed.

Lemma lookupBody_none :
  (forall it, matches it = false) ->
  Js.try_catch (lookupBody h matches) (fun _ => Js.Normal emptyResult)
  = Js.Normal emptyResult.
Proof.
  intros Hno. rewrite try_catch_empty.
  destruct (lookupBody h matches) as [res|e] eqn:E; [|done].
  apply lookupBody_result in E
    as [->|(state & containing & _ & _ & Hc & ->)]; [done|].
  by rewrite (containingPlaylists_none _ _ Hno Hc).
Qed.

Lemma insertByLatency_perm {A} (x : nat * A) (l : list (nat * A)) :
  insertByLatency x l ≡ₚ x :: l.
Proof.
  induction l as [|y l IH]; simpl; [done|].
  destruct (fst x <=? fst y)%nat; [done|].
  rewrite IH. apply Permutation_swap.
Qed.

Lemma completionOrder_perm {A} (l : list (nat * A)) : completionOrder l ≡ₚ l.
Proof.
  unfold completionOrder. induction l as [|x l IH]; simpl; [done|].
  by rewrite insertByLatency_perm, IH.
Qed.

Lemma enumeratedUuids_Some (pls : list Playlist) :
  enumeratedUuids (map Some pls) = map pl_uuid pls.
Proof.
  unfold enumeratedUuids. induction pls as [|pl l IH]; [done|].
  simpl. by rewrite <- IH.
Qed.

(** In the order of the enumeration, the reported uuids are a
    subsequence of the enumerated ones. *)
Lemma reported_sublist (pls : list Playlist) :
  map uuid (omap snd (map (probeItems h matches) pls))
  `sublist_of` map pl_uuid pls.
Proof.
  induction pls as [|pl l IH]; simpl; [done|].
  destruct (Js.bind _ _) as [rawList|]; simpl.
  - destruct (existsb matches rawList); simpl.
    + by apply sublist_skip.
    + by apply sublist_cons.
  - by apply sublist_cons.
Qed.

Lemma containingPlaylists_NoDup (userPlaylists : list (option Playlist))
    (containing : list PlaylistRef) :
  containingPlaylists h matches userPlaylists = Js.Normal containing ->
  NoDup (enumeratedUuids userPlaylists) ->
  NoDup (map uuid containing).
Proof.
  destruct (containingPlaylists_cases h matches userPlaylists)
    as [[_ ->]|(pls & -> & ->)]; [discriminate|].
  intros [= <-] Hnd. rewrite enumeratedUuids_Some in Hnd.
  assert (Hp : map uuid (omap snd (completionOrder
                 (map (probeItems h matches) pls)))
               ≡ₚ map uuid (omap snd (map (probeItems h matches) pls))).
  { change (map uuid) with (fmap (M := list) uuid).
    by rewrite completionOrder_perm. }
  rewrite Hp. eapply sublist_NoDup; [exact Hnd|apply reported_sublist].
Qed.

Lemma omap_length_le {A B} (f : A -> option B) (l : list A) :
  (length (omap f l) <= length l)%nat.
Proof.
  induction l as [|x l IH]; [done|].
  change (omap f (x :: l))
    with (match f x with Some y => y :: omap f l | None => omap f l end).
  destruct (f x); simpl; lia.
Qed.

Lemma containingPlaylists_length (userPlaylists : list (option Playlist))
    (containing : list PlaylistRef) :
  containingPlaylists h matches userPlaylists = Js.Normal containing ->
  (length containing <= length userPlaylists)%nat.
Proof.
  destruct (containingPlaylists_cases h matches userPlaylists)
    as [[_ ->]|(pls & -> & ->)]; [discriminate|].
  intros [= <-].
  rewrite (Permutation_length
             (omap_Permutation snd _ _ (completionOrder_perm _))).
  etrans; [apply omap_length_le|]. by rewrite !length_map.
Qed.

End LookupFacts.

Section IdMatching.

Lemma normalizeId_Some (v : Js.value) (c : string) :
  normalizeId v = Some c <-> Js.nullish v = false /\ Js.to_String v = c.
Proof.
  unfold normalizeId. destruct (Js.nullish v); split.
  - discriminate.
  - by intros [? _].
  - intros [= <-]. done.
  - intros [_ ->]. done.
Qed.

Lemma entryMatchesId_spec (songId : Js.value) (it : RawItem) :
  entryMatchesId (normalizeId songId) it = true <-> itemHasId songId it.
Proof.
  unfold entryMatchesId, itemHasId. rewrite existsb_exists. split.
  - intros (cid & Hin & Hc). apply in_map_iff in Hin as (v & Hv & Hin).
    destruct cid as [c|]; [|discriminate].
    apply bool_decide_eq_true in Hc. symmetry in Hc.
    apply normalizeId_Some in Hv as [Hv1 Hv2].
    apply normalizeId_Some in Hc as [Hc1 Hc2].
    split; [done|]. destruct (entryOf it) as [e|] eqn:He.
    + exists e, v. split; [done|]. split; [by apply list_elem_of_In|].
      split; [done|]. congruence.
    + simpl in Hin. exfalso.
      repeat (destruct Hin as [<-|Hin]; [discriminate Hv1|]). done.
  - intros (Hn & e & v & He & Hin & Hv & Hs). rewrite He.
    exists (Some (Js.to_String songId)). split.
    + apply in_map_iff. exists v. split.
      * apply normalizeId_Some. done.
      * by apply list_elem_of_In.
    + apply bool_decide_eq_true. symmetry. by apply normalizeId_Some.
Qed.

Lemma entryMatchesId_nullish (songId : Js.value) (it : RawItem) :
  Js.nullish songId = true -> entryMatchesId (normalizeId songId) it = false.
Proof.
  intros Hn. apply not_true_is_false. rewrite entryMatchesId_spec.
  intros [H _]. congruence.
Qed.

End IdMatching.

(** X1: with the store readable and the
    user known, the id lookup returns the empty result when one of the
    enumerated playlists is nullish, which only the array of a
    [Playlist.*] helper can bring.  Otherwise it reports a playlist
    exactly when it is one of the enumerated playlists whose item list is
    delivered and holds an item carrying the song id in one of [id],
    [mediaItemId], [trackId], [itemId], [productId], compared as strings;
    a playlist whose fetch fails or whose items are malformed is left out
    without affecting the others. *)
Theorem lookup_reports_matching_playlists :
  forall (h : Host) (state : StoreState) (songId : Js.value),
    getState h = Js.Normal (Some state) ->
    Js.truthy (user_meta_id state) = true ->
    exists res,
      checkSongInUserPlaylists h songId = Js.Normal res
      /\ (None ∈ userPlaylistsOf h state -> res = emptyResult)
      /\ (None ∈ userPlaylistsOf h state ->
          ownedPlaylists (user_meta_id state) (playlistsRecord state) = []
          /\ None ∈ fallbackPlaylists h)
      /\ (None ∉ userPlaylistsOf h state ->
          forall ref,
            ref ∈ playlists res
            <-> exists pl rawList it,
                  Some pl ∈ userPlaylistsOf h state
                  /\ deliveredItems h pl = Some rawList
                  /\ it ∈ rawList
                  /\ itemHasId songId it
                  /\ ref = refOf pl).
Proof.
  intros h state songId Hs Hu.
  destruct (lookupBody_found h (entryMatchesId (normalizeId songId)) state Hs Hu)
    as (res & Hres & Hnull & Hpl).
  exists res. split; [done|]. split; [done|]. split.
  { intros Hin. apply elem_of_userPlaylistsOf in Hin as [[_ Hown]|H]; [|done].
    discriminate Hown. }
  intros Hno ref.
  rewrite (containingPlaylists_spec _ _ _ _ ref (Hpl Hno)). split.
  - intros (pl & rawList & Hin & Hd & Hex & ->).
    apply existsb_exists in Hex as (it & Hit & Hm).
    exists pl, rawList, it. rewrite <- entryMatchesId_spec.
    apply list_elem_of_In in Hit. done.
  - intros (pl & rawList & it & Hin & Hd & Hit & Hm & ->).
    exists pl, rawList. split; [done|]. split; [done|]. split; [|done].
    apply existsb_exists. exists it. rewrite entryMatchesId_spec.
    apply list_elem_of_In in Hit. done.
Qed.

Lemma lookup_reports_matching_playlists_witness :
  exists res,
    checkSongInUserPlaylists hostWithFailingFetch (Js.Number 123) = Js.Normal res
    /\ (None ∈ userPlaylistsOf hostWithFailingFetch storeOfFailingFetch ->
        res = emptyResult)
    /\ (None ∈ userPlaylistsOf hostWithFailingFetch storeOfFailingFetch ->
        ownedPlaylists (user_meta_id storeOfFailingFetch)
          (playlistsRecord storeOfFailingFetch) = []
        /\ None ∈ fallbackPlaylists hostWithFailingFetch)
    /\ (None ∉ userPlaylistsOf hostWithFailingFetch storeOfFailingFetch ->
        forall ref,
          ref ∈ playlists res
          <-> exists pl rawList it,
                Some pl ∈ userPlaylistsOf hostWithFailingFetch storeOfFailingFetch
                /\ deliveredItems hostWithFailingFetch pl = Some rawList
                /\ it ∈ rawList
                /\ itemHasId (Js.Number 123) it
                /\ ref = refOf pl).
Proof.
  apply (lookup_reports_matching_playlists hostWithFailingFetch
           storeOfFailingFetch (Js.Number 123)); reflexivity.
Defined.

(** The helper returns [[null, A]]: the callback for [null] rejects and the
    lookup returns the empty result, although A holds the track. *)
Example lookup_nullish_playlist :
  fallbackPlaylists hostWithNullishPlaylist = [None; Some ownPlaylist]
  /\ checkSongInUserPlaylists hostWithNullishPlaylist (Js.Str "123")
     = Js.Normal emptyResult
  /\ checkSongInUserPlaylistsByMeta hostWithNullishPlaylist
       {| meta_title := "Song"; meta_artist := None |}
     = Js.Normal emptyResult.
Proof. repeat split; reflexivity. Qed.

(** Numbers are compared by what [String] makes of them. *)
Example number_ids_as_strings :
  map Js.to_String
    [ Js.Number 123; Js.Number (-45); Js.Number 9007199254740992;
      Js.Number 1152921504606846976; Js.Number 18446744073709551616;
      Js.Number 1000000000000000000000;
      Js.Number 1180591620717411303424 ]
  = [ "123"; "-45"; "9007199254740992"; "1152921504606847000";
      "18446744073709552000"; "1e+21"; "1.1805916207174113e+21" ].
Proof. vm_compute. reflexivity. Qed.

(** X2: for a song id that is [undefined]
    or [null] the id lookup returns the empty result on every host, since
    no entry field is compared with a missing id. *)
Theorem lookup_nullish_id_finds_nothing :
  forall (h : Host) (songId : Js.value),
    Js.nullish songId = true ->
    checkSongInUserPlaylists h songId = Js.Normal emptyResult.
Proof.
  intros h songId Hn. unfold checkSongInUserPlaylists.
  apply lookupBody_none. intros it. by apply entryMatchesId_nullish.
Qed.

Lemma lookup_nullish_id_finds_nothing_witness :
  checkSongInUserPlaylists hostWithOwnPlaylist Js.Undefined
  = Js.Normal emptyResult.
Proof.
  apply (lookup_nullish_id_finds_nothing hostWithOwnPlaylist Js.Undefined).
  reflexivity.
Defined.

(** X3: a result of the id lookup never
    holds more playlists than the lookup enumerated, and when the
    enumerated playlists have pairwise different uuids, so have the
    reported ones: no playlist is counted twice. *)
Theorem lookup_reports_each_playlist_once :
  forall (h : Host) (state : StoreState) (songId : Js.value)
         (res : SongInPlaylistsResult),
    getState h = Js.Normal (Some state) ->
    checkSongInUserPlaylists h songId = Js.Normal res ->
    (length (playlists res) <= length (userPlaylistsOf h state))%nat
    /\ (NoDup (enumeratedUuids (userPlaylistsOf h state)) ->
        NoDup (map uuid (playlists res))).
Proof.
  intros h state songId res Hs Hres.
  apply checkSongInUserPlaylists_body in Hres as [->|Hres].
  { simpl. split; [lia|]. intros _. apply NoDup_nil_2. }
  apply lookupBody_result in Hres
    as [->|(state' & containing & Hs' & _ & Hc & ->)].
  { simpl. split; [lia|]. intros _. apply NoDup_nil_2. }
  assert (state' = state) by congruence. subst state'. simpl. split.
  - by eapply containingPlaylists_length.
  - by eapply containingPlaylists_NoDup.
Qed.

Lemma lookup_reports_each_playlist_once_witness :
  NoDup (map uuid [{| uuid := "A"; title := "Mine" |}]).
Proof.
  apply (lookup_reports_each_playlist_once hostWithTwoPlaylists
           {| user_meta_id := Js.Number 7;
              content_playlists :=
                Some [("A", Some ownPlaylist); ("X", Some foreignPlaylist);
                      ("B", Some emptyPlaylist)] |}
           (Js.Str "123")
           {| existsInPlaylists := true;
              playlists := [{| uuid := "A"; title := "Mine" |}] |}).
  - reflexivity.
  - reflexivity.
  - change (NoDup ["A"; "B"]).
    repeat (apply NoDup_cons_2; [not_in_closed_list|]). apply NoDup_nil_2.
Defined.

(** ** The normalisation of titles and artists *)

Section Normalisation.

(** A property of characters that a computation confirms for each of the
    256 code units. *)
Lemma forall_chars (P : ascii -> bool) :
  forallb P allChars = true -> forall c, P c = true.
Proof.
  intros H c. rewrite forallb_forall in H. apply H. unfold allChars.
  rewrite <- (ascii_nat_embedding c). apply in_map, in_seq.
  pose proof (nat_ascii_bounded c). lia.
Qed.

(** Lower-casing leaves no upper-case letter. *)
Lemma toLowerChar_lower (c : ascii) :
  isAlnum (toLowerChar c) = true -> isLowerAlnum (toLowerChar c) = true.
Proof.
  pose proof (forall_chars
    (fun c => negb (isAlnum (toLowerChar c)) || isLowerAlnum (toLowerChar c))
    ltac:(vm_compute; reflexivity) c) as H.
  cbv beta in H. intros Ha. rewrite Ha in H. exact H.
Qed.

(** Lower-casing makes no letter or digit out of another character. *)
Lemma toLowerChar_alnum (c : ascii) :
  isAlnum c = false -> isAlnum (toLowerChar c) = false.
Proof.
  pose proof (forall_chars
    (fun c => isAlnum c || negb (isAlnum (toLowerChar c)))
    ltac:(vm_compute; reflexivity) c) as H.
  cbv beta in H. intros Ha. rewrite Ha in H. by apply negb_true_iff in H.
Qed.

Lemma collapseSpaces_In (inRun : bool) (l : list ascii) (c : ascii) :
  In c (collapseSpaces inRun l) ->
  c = " "%char \/ (In c l /\ isSpace c = false).
Proof.
  revert inRun. induction l as [|x l IH]; simpl; intros inRun; [done|].
  destruct (isSpace x) eqn:Hx.
  - destruct inRun; simpl.
    + intros H. destruct (IH _ H) as [->|[H1 H2]]; auto.
    + intros [<-|H]; [by left|]. destruct (IH _ H) as [->|[H1 H2]]; auto.
  - simpl. intros [<-|H]; [by right; auto|].
    destruct (IH _ H) as [->|[H1 H2]]; auto.
Qed.

Lemma trimStart_suffix (l : list ascii) : exists k, l = k ++ trimStart l.
Proof.
  induction l as [|x l [k IH]]; simpl; [by exists []|].
  destruct (isSpace x).
  - exists (x :: k). simpl. by rewrite <- IH.
  - by exists [].
Qed.

Lemma trimStart_In (l : list ascii) (c : ascii) :
  In c (trimStart l) -> In c l.
Proof.
  destruct (trimStart_suffix l) as [k Hk]. intros H. rewrite Hk.
  apply in_or_app. by right.
Qed.

Lemma trimStart_head (l : list ascii) (c : ascii) :
  head (trimStart l) = Some c -> isSpace c = false.
Proof.
  induction l as [|x l IH]; simpl; [done|].
  destruct (isSpace x) eqn:Hx; [done|]. simpl. by intros [= <-].
Qed.

Lemma trimStart_spaces (l : list ascii) :
  (forall c, In c l -> isSpace c = true) -> trimStart l = [].
Proof.
  induction l as [|x l IH]; simpl; intros H; [done|].
  rewrite (H x) by auto. apply IH. auto.
Qed.

Lemma last_rev {A} (l : list A) : last (rev l) = head l.
Proof. destruct l as [|x l]; simpl; [done|]. apply last_snoc. Qed.

Lemma head_rev {A} (l : list A) : head (rev l) = last l.
Proof. by rewrite <- (rev_involutive l) at 2; rewrite last_rev. Qed.

Lemma trim_In (l : list ascii) (c : ascii) : In c (trim l) -> In c l.
Proof.
  unfold trim. intros H. apply in_rev, trimStart_In in H.
  apply in_rev in H. by apply trimStart_In.
Qed.

Lemma trim_last (l : list ascii) (c : ascii) :
  last (trim l) = Some c -> isSpace c = false.
Proof. unfold trim. rewrite last_rev. apply trimStart_head. Qed.

Lemma trim_head (l : list ascii) (c : ascii) :
  head (trim l) = Some c -> isSpace c = false.
Proof.
  unfold trim. rewrite head_rev.
  destruct (trimStart_suffix (rev (trimStart l))) as [k Hk].
  intros H. apply (trimStart_head l).
  rewrite <- last_rev, Hk, last_app, H. done.
Qed.

(** What is left of a string after lower-casing, collapsing white space
    and removing punctuation. *)
Lemma stripped_chars (l : list ascii) (c : ascii) :
  In c (stripPunctuation (collapseSpaces false (map toLowerChar l))) ->
  normalChar c = true.
Proof.
  unfold stripPunctuation, normalChar. intros H.
  apply filter_In in H as [H Hk].
  apply collapseSpaces_In in H as [->|[H Hs]]; [done|].
  rewrite Hs, orb_false_r in Hk.
  apply in_map_iff in H as (c0 & <- & _).
  by rewrite toLowerChar_lower.
Qed.

Lemma normalizeMeta_chars (v : Js.value) (c : ascii) :
  In c (String.list_ascii_of_string (normalizeMeta v)) -> normalChar c = true.
Proof.
  unfold normalizeMeta. rewrite list_ascii_of_string_of_list_ascii.
  intros H. apply trim_In in H. by eapply stripped_chars.
Qed.

(** A string without ASCII letters and digits normalises to the empty
    string. *)
Lemma normalizeMeta_empty (s : string) :
  (forall c, In c (String.list_ascii_of_string s) -> isAlnum c = false) ->
  normalizeMeta (Js.Str s) = "".
Proof.
  intros H. unfold normalizeMeta. simpl.
  set (l := stripPunctuation _).
  assert (Hl : forall c, In c l -> isSpace c = true).
  { intros c Hc. unfold l, stripPunctuation in Hc.
    apply filter_In in Hc as [Hc Hk].
    apply collapseSpaces_In in Hc as [->|[Hc Hs]]; [done|].
    rewrite Hs, orb_false_r in Hk.
    apply in_map_iff in Hc as (c0 & <- & Hc0).
    rewrite toLowerChar_alnum in Hk; [done|]. by apply H. }
  unfold trim. rewrite (trimStart_spaces l Hl). reflexivity.
Qed.

Lemma entryMatchesMeta_no_title (targetArtist : string) (it : RawItem) :
  entryMatchesMeta "" targetArtist it = false.
Proof. reflexivity. Qed.

End Normalisation.

(** X4: the normalised form of a title or artist,
    which is what the metadata lookup compares, consists of lower-case
    ASCII letters, digits and blanks only and neither starts nor
    ends with a blank; no other character of the input, accented letters
    included, reaches it. *)
Theorem normalizeMeta_alphabet :
  forall (v : Js.value),
    let s := String.list_ascii_of_string (normalizeMeta v) in
    forallb normalChar s = true
    /\ head s <> Some " "%char
    /\ last s <> Some " "%char.
Proof.
  intros v s. split; [|split].
  - apply forallb_forall. intros c Hc. by eapply normalizeMeta_chars.
  - intros H. unfold s, normalizeMeta in H.
    rewrite list_ascii_of_string_of_list_ascii in H.
    by apply trim_head in H.
  - intros H. unfold s, normalizeMeta in H.
    rewrite list_ascii_of_string_of_list_ascii in H.
    by apply trim_last in H.
Qed.

(** X5: when the title of the song, a string of
    code units below 256 as all strings here, has no ASCII letter and no
    digit, it normalises to the empty string and the metadata lookup
    returns the empty result on every host, whatever the playlists hold
    and whatever the artist is. *)
Theorem meta_lookup_needs_ascii_title :
  forall (h : Host) (meta : SongMeta),
    forallb (fun c => negb (isAlnum c))
      (String.list_ascii_of_string (meta_title meta)) = true ->
    normalizeMeta (Js.Str (meta_title meta)) = ""
    /\ checkSongInUserPlaylistsByMeta h meta = Js.Normal emptyResult.
Proof.
  intros h meta H.
  assert (Ht : normalizeMeta (Js.Str (meta_title meta)) = "").
  { apply normalizeMeta_empty. intros c Hc.
    rewrite forallb_forall in H. apply negb_true_iff. by apply H. }
  split; [done|]. unfold checkSongInUserPlaylistsByMeta. rewrite Ht.
  apply lookupBody_none. intros it. apply entryMatchesMeta_no_title.
Qed.

Lemma meta_lookup_needs_ascii_title_witness :
  normalizeMeta (Js.Str "?!") = ""
  /\ checkSongInUserPlaylistsByMeta hostWithTwoPlaylists
       {| meta_title := "?!"; meta_artist := Some "Artist" |}
     = Js.Normal emptyResult.
Proof.
  apply (meta_lookup_needs_ascii_title hostWithTwoPlaylists
           {| meta_title := "?!"; meta_artist := Some "Artist" |}).
  reflexivity.
Defined.

(** ** The resolver *)

Section Promises.

Lemma done_step (r r' : Resolver) (e : Event) (j : nat) (o : Outcome) :
  ResolverInv r ->
  step r e = Some r' ->
  (exists T, jobs r !! j = Some {| job_track := T; job_phase := Done o |}) ->
  exists T, jobs r' !! j = Some {| job_track := T; job_phase := Done o |}.
Proof.
  intros I Hs [T Hj].
  destruct (job_step _ _ _ _ _ I Hs Hj) as (ph & Hj' & Hph). simpl in *.
  exists T.
  destruct Hph as [->|[[H _]|[(o' & H & _)|(o' & H & _)]]];
    [done|discriminate..].
Qed.

Lemma done_exec (tr : list Event) (r r' : Resolver) (j : nat) (o : Outcome) :
  ResolverInv r ->
  exec r tr = Some r' ->
  (exists T, jobs r !! j = Some {| job_track := T; job_phase := Done o |}) ->
  exists T, jobs r' !! j = Some {| job_track := T; job_phase := Done o |}.
Proof.
  revert r. induction tr as [|e tr IH]; simpl; intros r I.
  - by intros [= <-].
  - destruct (step r e) as [r1|] eqn:Hs; [|discriminate].
    intros H Hj. apply (IH r1); [by eapply inv_step|done|].
    by eapply done_step.
Qed.

End Promises.

(** X6: once the promise behind a handle
    of [getMembership] has settled, it keeps its value through everything
    the resolver does afterwards; in particular a closure leaving the
    queue never restarts a computation that is over. *)
Theorem settled_promise_keeps_its_value :
  forall (tr0 tr : list Event) (r0 r : Resolver) (hd : Handle) (o : Outcome),
    exec initialResolver tr0 = Some r0 ->
    exec r0 tr = Some r ->
    settledTo r0 hd = Some o ->
    settledTo r hd = Some o.
Proof.
  intros tr0 tr r0 r [res|j] o H0 H; simpl; [done|].
  destruct (jobs r0 !! j) as [[T ph]|] eqn:Hj; [|discriminate].
  destruct ph as [| |o'|o']; try discriminate. intros [= ->].
  assert (I : ResolverInv r0) by (eapply inv_exec; [eassumption|apply inv_initial]).
  destruct (done_exec tr r0 r j o I H) as [T' ->]; [by exists T|done].
Qed.

Lemma settled_promise_keeps_its_value_witness :
  settledTo
    (stateAfter
       [ EvGetMembership "1"; EvSettle 0 (Js.Normal emptyResult); EvFinally 0;
         EvInvalidate "1"; EvGetMembership "1" ])
    (Pending 0)
  = Some (Js.Normal emptyResult).
Proof.
  apply (settled_promise_keeps_its_value
           [ EvGetMembership "1"; EvSettle 0 (Js.Normal emptyResult); EvFinally 0 ]
           [ EvInvalidate "1"; EvGetMembership "1" ]
           (stateAfter
              [ EvGetMembership "1"; EvSettle 0 (Js.Normal emptyResult);
                EvFinally 0 ]));
    vm_compute; reflexivity.
Defined.

Section Progress.

Variable outcome : nat -> Outcome.

Lemma pendingWork_insert (l : list Job) (j : nat) (a b : Job) :
  l !! j = Some a ->
  (sum_list (map (fun job => phaseWeight (job_phase job)) (<[j := b]> l))
   + phaseWeight (job_phase a)
   = sum_list (map (fun job => phaseWeight (job_phase job)) l)
     + phaseWeight (job_phase b))%nat.
Proof.
  revert j. induction l as [|x l IH]; intros [|j] H; simpl in *;
    try discriminate.
  - injection H as ->. lia.
  - specialize (IH j H). lia.
Qed.

Lemma pendingWork_pos (l : list Job) :
  (0 < sum_list (map (fun job => phaseWeight (job_phase job)) l))%nat ->
  exists j job, l !! j = Some job /\ isDone (job_phase job) = false.
Proof.
  induction l as [|x l IH]; simpl; [lia|].
  destruct (isDone (job_phase x)) eqn:Hx.
  - destruct x as [T [| | |o]]; try discriminate. simpl.
    intros H. destruct (IH H) as (j & job & Hj & Hd).
    by exists (S j), job.
  - intros _. by exists 0%nat, x.
Qed.

Lemma pendingWork_zero (l : list Job) :
  sum_list (map (fun job => phaseWeight (job_phase job)) l) = 0%nat ->
  Forall (fun job => isDone (job_phase job) = true) l.
Proof.
  induction l as [|x l IH]; simpl; intros H; constructor.
  - destruct x as [T [| | |o]]; simpl in *; first [lia|done].
  - apply IH. lia.
Qed.

Lemma no_slot_taken (l : list Job) :
  Forall (fun job => ¬ occupiesSlot job = true) l ->
  List.filter occupiesSlot l = [].
Proof.
  induction 1 as [|x l Hx _ IH]; simpl; [done|].
  by destruct (occupiesSlot x).
Qed.

(** While a computation is not over, a lookup can end or [finally]
    callbacks can run, and either brings the resolver closer to rest. *)
Lemma progress (r : Resolver) :
  ResolverInv r ->
  (0 < pendingWork r)%nat ->
  exists e r',
    isCompletion e = true /\ endsAs outcome e
    /\ step r e = Some r'
    /\ (pendingWork r' < pendingWork r)%nat
    /\ length (jobs r') = length (jobs r)
    /\ lookups r `prefix_of` lookups r'.
Proof.
  intros I Hw. unfold pendingWork in *.
  destruct (list_find (fun job => occupiesSlot job = true) (jobs r))
    as [[j [T ph]]|] eqn:Hf.
  - apply list_find_Some in Hf as (Hj & Hocc & _).
    destruct ph as [| |o|o]; try discriminate.
    + exists (EvSettle j (outcome j)). eexists.
      split; [done|]. split; [done|]. simpl.
      split; [by apply settle_spec|]. simpl.
      pose proof (pendingWork_insert (jobs r) j _
        {| job_track := T; job_phase := Settled (outcome j) |} Hj) as H.
      simpl in H. rewrite length_insert. split; [lia|]. done.
    + exists (EvFinally j). eexists. split; [done|]. split; [done|]. simpl.
      split; [by eapply finalize_spec|].
      pose proof (pendingWork_insert (jobs r) j _
        {| job_track := T; job_phase := Done o |} Hj) as H.
      simpl in H.
      destruct (membershipQueue r) as [|[n Tn] rest] eqn:Hq; simpl.
      * rewrite length_insert. split; [lia|]. done.
      * assert (Hn : jobs r !! n
                     = Some {| job_track := Tn; job_phase := Queued |}).
        { apply (inv_queue _ I). rewrite Hq. apply list_elem_of_here. }
        assert (Hne : j <> n) by (intros <-; congruence).
        pose proof (pendingWork_insert
          (<[j := {| job_track := T; job_phase := Done o |}]> (jobs r)) n
          {| job_track := Tn; job_phase := Queued |}
          {| job_track := Tn; job_phase := Running |}) as H'.
        rewrite list_lookup_insert_ne in H' by done.
        specialize (H' Hn). simpl in H'.
        rewrite !length_insert. split; [lia|]. split; [done|].
        by apply prefix_app_r.
  - apply list_find_None in Hf. exfalso.
    destruct (pendingWork_pos _ Hw) as (j & [T ph] & Hj & Hd).
    assert (ph = Queued) as ->.
    { rewrite Forall_forall in Hf.
      assert (Hin : {| job_track := T; job_phase := ph |} ∈ jobs r)
        by (by eapply list_elem_of_lookup_2).
      specialize (Hf _ Hin). unfold occupiesSlot in Hf. simpl in *.
      by destruct ph. }
    assert (Hin : (j, T) ∈ membershipQueue r) by (by apply (inv_queue _ I)).
    assert (Hne : membershipQueue r <> []).
    { intros E. rewrite E in Hin. by apply elem_of_nil in Hin. }
    pose proof (inv_full _ I Hne) as Hfull.
    pose proof (inv_count _ I) as Hc. unfold inFlightComputations in Hc.
    rewrite (no_slot_taken _ Hf) in Hc. simpl in Hc.
    unfold MAX_CONCURRENT_MEMBERSHIP in Hfull. lia.
Qed.

Lemma drain (n : nat) (r : Resolver) :
  ResolverInv r ->
  (pendingWork r <= n)%nat ->
  exists tr r',
    Forall (fun e => isCompletion e = true) tr
    /\ Forall (endsAs outcome) tr
    /\ exec r tr = Some r'
    /\ ResolverInv r'
    /\ pendingWork r' = 0%nat
    /\ length (jobs r') = length (jobs r)
    /\ (length tr <= n)%nat
    /\ lookups r `prefix_of` lookups r'.
Proof.
  revert r. induction n as [|n IH]; intros r I Hle.
  - exists [], r. split; [constructor|]. split; [constructor|].
    split; [done|]. split; [done|]. split; [lia|]. split; [done|].
    split; [done|]. done.
  - destruct (decide (pendingWork r = 0%nat)) as [Hz|Hnz].
    + exists [], r. split; [constructor|]. split; [constructor|].
      split; [done|]. split; [done|]. split; [done|]. split; [done|].
      split; [simpl; lia|]. done.
    + destruct (progress r I) as (e & r1 & He & Ho & Hs & Hlt & Hlen & Hpre);
        [lia|].
      destruct (IH r1) as (tr & r' & H1 & H2 & H3 & H4 & H5 & H6 & H7 & H8);
        [by eapply inv_step|lia|].
      exists (e :: tr), r'. simpl. rewrite Hs.
      split; [by constructor|]. split; [by constructor|].
      split; [done|]. split; [done|]. split; [done|].
      split; [congruence|]. split; [lia|]. by etrans.
Qed.

Lemma idle_at_rest (r : Resolver) :
  ResolverInv r -> pendingWork r = 0%nat -> idle r.
Proof.
  intros I Hz. apply pendingWork_zero in Hz.
  assert (Hq : membershipQueue r = []).
  { destruct (membershipQueue r) as [|[j T] rest] eqn:E; [done|].
    assert (Hin : (j, T) ∈ membershipQueue r)
      by (rewrite E; apply list_elem_of_here).
    apply (inv_queue _ I) in Hin.
    rewrite Forall_forall in Hz.
    assert (Hd := Hz _ (list_elem_of_lookup_2 _ _ _ Hin)). discriminate. }
  split; [done|]. split; [done|]. split.
  - rewrite (inv_count _ I). unfold inFlightComputations.
    rewrite no_slot_taken; [done|].
    eapply Forall_impl; [exact Hz|]. intros [T ph] Hd. simpl in Hd.
    unfold occupiesSlot. simpl. by destruct ph.
  - apply map_empty. intros T.
    destruct (membershipInFlight r !! T) as [j|] eqn:E; [|done].
    destruct (inv_inflight _ I _ _ E) as (job & Hj & _ & Hd).
    rewrite Forall_forall in Hz.
    assert (Hd' := Hz _ (list_elem_of_lookup_2 _ _ _ Hj)). congruence.
Qed.

End Progress.

(** X7: the gate cannot get stuck.  From every state
    the resolver reaches, and however the lookups end, letting the running
    lookups end and the [finally] callbacks run, with no new request,
    brings it to rest in at most three steps per computation: every
    promise handed out has settled, the queue is empty, the counter is 0
    and no track is in flight. *)
Theorem resolver_comes_to_rest :
  forall (tr0 : list Event) (r0 : Resolver) (outcome : nat -> Outcome),
    exec initialResolver tr0 = Some r0 ->
    exists (tr : list Event) (r : Resolver),
      Forall (fun e => isCompletion e = true) tr
      /\ Forall (endsAs outcome) tr
      /\ (length tr <= 3 * length (jobs r0))%nat
      /\ exec r0 tr = Some r
      /\ idle r
      /\ length (jobs r) = length (jobs r0)
      /\ (forall j, j < length (jobs r0) ->
            exists o, settledTo r (Pending j) = Some o)%nat.
Proof.
  intros tr0 r0 outcome H0.
  assert (I : ResolverInv r0) by (eapply inv_exec; [eassumption|apply inv_initial]).
  destruct (drain outcome (pendingWork r0) r0 I (le_n _))
    as (tr & r & H1 & H2 & H3 & H4 & H5 & H6 & H7 & _).
  exists tr, r. split; [done|]. split; [done|]. split.
  { etrans; [exact H7|]. unfold pendingWork.
    generalize (jobs r0). intros l.
    induction l as [|[T ph] l IH]; simpl; [lia|]. destruct ph; simpl; lia. }
  split; [done|].
  pose proof (idle_at_rest r H4 H5) as Hidle.
  split; [done|]. split; [done|].
  intros j Hj. rewrite <- H6 in Hj.
  destruct (lookup_lt_is_Some_2 _ _ Hj) as [[T ph] Hjob].
  destruct Hidle as [Hd _]. rewrite Forall_forall in Hd.
  pose proof (Hd _ (list_elem_of_lookup_2 _ _ _ Hjob)) as Hdone. simpl in *.
  rewrite Hjob. destruct ph as [| |o|o]; try discriminate. by exists o.
Qed.

Lemma resolver_comes_to_rest_witness :
  exists (tr : list Event) (r : Resolver),
    Forall (fun e => isCompletion e = true) tr
    /\ Forall (endsAs (fun _ => Js.Normal emptyResult)) tr
    /\ (length tr <= 3 * length (jobs (stateAfter eightRequests)))%nat
    /\ exec (stateAfter eightRequests) tr = Some r
    /\ idle r
    /\ length (jobs r) = length (jobs (stateAfter eightRequests))
    /\ (forall j, j < length (jobs (stateAfter eightRequests)) ->
          exists o, settledTo r (Pending j) = Some o)%nat.
Proof.
  apply (resolver_comes_to_rest eightRequests (stateAfter eightRequests)
           (fun _ => Js.Normal emptyResult)).
  vm_compute; reflexivity.
Defined.

(** X8: invalidating a track while its
    lookup is running cancels nothing.  A call of [getMembership] made
    after the invalidation joins the lookup that started before it, no
    further lookup for the track is made, and once that lookup has
    delivered its result (with no second invalidation and no failed lookup
    in between) the next call returns this result from the cache. *)
Theorem invalidation_does_not_cancel_lookup :
  forall (tr0 tr : list Event) (r r' : Resolver) (j : nat) (T : string)
         (res : SongInPlaylistsResult),
    exec initialResolver tr0 = Some r ->
    jobs r !! j = Some {| job_track := T; job_phase := Running |} ->
    exec (invalidate T r) tr = Some r' ->
    Forall (quietFor T) tr ->
    settledTo r' (Pending j) = Some (Js.Normal res) ->
    getMembership T (invalidate T r) = (Pending j, invalidate T r)
    /\ (lookupCount T r' <= lookupCount T r)%nat
    /\ getMembership T r' = (Cached res, r').
Proof.
  intros tr0 tr r r' j T res H0 Hj H Hq Hres.
  assert (I : ResolverInv r) by (eapply inv_exec; [eassumption|apply inv_initial]).
  pose proof (inv_active _ I _ _ Hj eq_refl) as Hi. simpl in Hi.
  pose proof (inv_invalidate T r I) as I1.
  assert (Hc1 : membershipResultCache (invalidate T r) !! T = None)
    by apply lookup_delete_eq.
  split; [by apply getMembership_inflight|]. split.
  - pose proof (pendingLookups_exec T tr _ _ I1 H Hq) as Hp.
    rewrite (pendingLookups_at T (invalidate T r) j _ Hi Hj) in Hp.
    simpl in Hp. unfold lookupCount in *. simpl in Hp. lia.
  - apply getMembership_cached.
    apply (servedBy_settled T (Pending j)); [|done].
    apply (servedBy_exec T (Pending j) tr (invalidate T r)); try done.
    simpl. eexists. split; [exact Hj|]. split; [done|].
    simpl. intros o [Ho|Ho]; discriminate.
Qed.

Lemma invalidation_does_not_cancel_lookup_witness :
  getMembership "1" (invalidate "1" (stateAfter [EvGetMembership "1"]))
  = (Pending 0%nat, invalidate "1" (stateAfter [EvGetMembership "1"]))
  /\ (lookupCount "1"
        (stateAfter [ EvGetMembership "1"; EvInvalidate "1";
                      EvSettle 0 (Js.Normal emptyResult); EvFinally 0 ])
      <= lookupCount "1" (stateAfter [EvGetMembership "1"]))%nat
  /\ getMembership "1"
       (stateAfter [ EvGetMembership "1"; EvInvalidate "1";
                     EvSettle 0 (Js.Normal emptyResult); EvFinally 0 ])
     = (Cached emptyResult,
        stateAfter [ EvGetMembership "1"; EvInvalidate "1";
                     EvSettle 0 (Js.Normal emptyResult); EvFinally 0 ]).
Proof.
  apply (invalidation_does_not_cancel_lookup
           [EvGetMembership "1"]
           [EvSettle 0 (Js.Normal emptyResult); EvFinally 0]
           (stateAfter [EvGetMembership "1"])
           (stateAfter [ EvGetMembership "1"; EvInvalidate "1";
                         EvSettle 0 (Js.Normal emptyResult); EvFinally 0 ])
           0%nat "1" emptyResult).
  - vm_compute; reflexivity.
  - vm_compute; reflexivity.
  - vm_compute; reflexivity.
  - repeat constructor.
  - vm_compute; reflexivity.
Defined.

Section LookupsAndJobs.

Lemma startedFor_count (T : string) (r r' : Resolver) (e : Event) :
  ResolverInv r ->
  step r e = Some r' ->
  lookupCount T r = length (List.filter (startedFor T) (jobs r)) ->
  lookupCount T r' = length (List.filter (startedFor T) (jobs r')).
Proof.
  intros I Hs Hc. unfold lookupCount in *.
  assert (Hdec : forall T', (if decide (T' = T) then 1 else 0)%nat
                            = (if String.eqb T' T then 1 else 0)%nat).
  { intros T'. destruct (String.eqb_spec T' T); by case_decide. }
  destruct e as [T'|j o|j|T']; simpl in Hs.
  - injection Hs as <-.
    destruct (getMembership_cases T' r)
      as [(res & _ & ->)|[(j0 & _ & _ & ->)|[Hc' Hi]]]; try done.
    rewrite (getMembership_new T' r Hc' Hi). simpl.
    destruct (inFlightCount r <? MAX_CONCURRENT_MEMBERSHIP)%Z; simpl.
    + rewrite lookupCount_snoc, filter_length_snoc, Hc, Hdec.
      unfold startedFor. simpl. by rewrite andb_true_r.
    + rewrite filter_length_snoc, Hc. unfold startedFor. simpl.
      rewrite andb_false_r. lia.
  - destruct (settle_enabled _ _ _ _ Hs) as [Tj Hj].
    rewrite (settle_spec _ o _ _ Hj) in Hs. injection Hs as <-. simpl.
    pose proof (filter_length_insert (startedFor T) (jobs r) j _
      {| job_track := Tj; job_phase := Settled o |} Hj) as H.
    unfold startedFor in H at 2 4. simpl in H. rewrite Hc. lia.
  - destruct (finalize_enabled _ _ _ Hs) as (Tj & o & Hj).
    rewrite (finalize_spec _ _ _ _ Hj) in Hs. injection Hs as <-.
    pose proof (filter_length_insert (startedFor T) (jobs r) j _
      {| job_track := Tj; job_phase := Done o |} Hj) as H.
    unfold startedFor in H at 2 4. simpl in H.
    destruct (membershipQueue r) as [|[n Tn] rest] eqn:Hq; simpl.
    + rewrite Hc. lia.
    + assert (Hn : jobs r !! n
                   = Some {| job_track := Tn; job_phase := Queued |}).
      { apply (inv_queue _ I). rewrite Hq. apply list_elem_of_here. }
      assert (Hne : j <> n) by (intros <-; congruence).
      pose proof (filter_length_insert (startedFor T)
        (<[j := {| job_track := Tj; job_phase := Done o |}]> (jobs r)) n
        {| job_track := Tn; job_phase := Queued |}
        {| job_track := Tn; job_phase := Running |}) as H'.
      rewrite list_lookup_insert_ne in H' by done. specialize (H' Hn).
      unfold startedFor in H' at 2 4. simpl in H'.
      rewrite andb_false_r, andb_true_r in H'.
      rewrite lookupCount_snoc, Hc, Hdec. lia.
  - injection Hs as <-. done.
Qed.




End LookupsAndJobs.

(** X9: in every state the resolver reaches, the
    number of calls of the lookup for a track is the number of
    computations for that track that have left the queue: a computation
    calls the lookup once, when it starts, and a request that is served
    from the cache, joins a computation in flight or still waits in the
    queue has caused no call. *)
Theorem lookup_once_per_computation :
  forall (tr : list Event) (r : Resolver) (T : string),
    exec initialResolver tr = Some r ->
    lookupCount T r = length (List.filter (startedFor T) (jobs r)).
Proof.
  intros tr r T.
  assert (G : forall tr r0,
            ResolverInv r0 ->
            lookupCount T r0 = length (List.filter (startedFor T) (jobs r0)) ->
            exec r0 tr = Some r ->
            lookupCount T r = length (List.filter (startedFor T) (jobs r))).
  { clear tr. intros tr. induction tr as [|e tr IH]; simpl; intros r0 I H0.
    - by intros [= <-].
    - destruct (step r0 e) as [r1|] eqn:Hs; [|discriminate].
      apply IH; [by eapply inv_step|by eapply startedFor_count]. }
  apply G; [apply inv_initial|done].
Qed.

Lemma lookup_once_per_computation_witness :
  lookupCount "6" (stateAfter eightRequests)
  = length (List.filter (startedFor "6") (jobs (stateAfter eightRequests))).
Proof.
  apply (lookup_once_per_computation eightRequests (stateAfter eightRequests) "6").
  vm_compute; reflexivity.
Defined.



(** ** The recently-added overlay *)

Section OverlayWindow.

Lemma windowInv_step (T P : string) (d : N) (o : Overlay) (e : OverlayEvent) :
  e <> OvRemember T P ->
  windowInv T P d o -> windowInv T P d (overlayStep o e).
Proof.
  intros Hne (H1 & H2 & H3). destruct e as [tid pid|dt]; simpl.
  - assert (Hb : ~ (tid = T /\ pid = P)) by (intros [-> ->]; by apply Hne).
    split; [|split].
    + intros tm Hin. simpl in *.
      apply in_app_or in Hin as [Hin|[<-|[]]]; [by apply H1|].
      simpl. unfold EXPIRY_MS. lia.
    + intros tm Hin Htm. simpl in *.
      apply in_app_or in Hin as [Hin|[<-|[]]]; [by apply H2|].
      rewrite timerFor_remember, bool_decide_eq_false_2 in Htm by done.
      discriminate.
    + rewrite inOverlay_remember, bool_decide_eq_false_2 by done.
      unfold hasTimer. simpl. rewrite existsb_app. simpl.
      rewrite timerFor_remember, bool_decide_eq_false_2 by done.
      rewrite !orb_false_r. apply H3.
  - split; [|split].
    + intros tm Hin. simpl in *. apply filter_In in Hin as [Hin Hd].
      unfold isDue in Hd. apply negb_true_iff, N.leb_gt in Hd. lia.
    + intros tm Hin Htm. simpl in *. apply filter_In in Hin as [Hin _].
      by apply H2.
    + by apply advance_keeps_timer.
Qed.

Lemma windowInv_exec (T P : string) (d : N) (tr : list OverlayEvent)
    (o : Overlay) :
  OvRemember T P ∉ tr ->
  windowInv T P d o -> windowInv T P d (overlayExec o tr).
Proof.
  revert o. induction tr as [|e tr IH]; simpl; intros o Hnot H; [done|].
  apply not_elem_of_cons in Hnot as [Hne Hnot].
  apply IH; [done|]. apply windowInv_step; [congruence|done].
Qed.

End OverlayWindow.

(** X11: in every state of the overlay each
    recorded pair has a pending timer that is due within the next
    120000 ms, so no entry is kept for good: whatever was recorded before,
    once the clock has advanced by the window without a new add of the
    pair, the pair is out of the overlay and no timer is pending for it,
    stale timers of earlier adds included. *)
Theorem override_never_outlives_window :
  forall (tr0 : list OverlayEvent) (T P : string) (tr : list OverlayEvent),
    let o0 := overlayExec initialOverlay tr0 in
    let o := overlayExec o0 tr in
    (recentlyAdded T P o0 = true ->
     exists tm, In tm (timers o0) /\ timerFor T P tm = true
                /\ (now o0 < timer_due tm)%N
                /\ (timer_due tm <= now o0 + EXPIRY_MS)%N)
    /\ (OvRemember T P ∉ tr ->
        (now o0 + EXPIRY_MS <= now o)%N ->
        recentlyAdded T P o = false /\ hasTimer T P o = false).
Proof.
  intros tr0 T P tr o0 o.
  pose proof (overlayInv_exec tr0 initialOverlay overlayInv_initial) as [H1 H2].
  fold o0 in H1, H2. split.
  - intros Hrec. pose proof (H2 T P Hrec) as Htm.
    apply existsb_exists in Htm as (tm & Hin & Htm).
    exists tm. destruct (H1 tm Hin). done.
  - intros Hnot Hlate.
    assert (W : windowInv T P (now o0 + EXPIRY_MS) o).
    { apply windowInv_exec; [done|]. split; [|split].
      - intros tm Hin. by apply H1.
      - intros tm Hin _. by apply H1.
      - apply H2. }
    destruct W as (W1 & W2 & W3).
    assert (Hno : hasTimer T P o = false).
    { destruct (hasTimer T P o) eqn:E; [|done]. exfalso.
      apply existsb_exists in E as (tm & Hin & Htm).
      pose proof (W1 tm Hin). pose proof (W2 tm Hin Htm). lia. }
    split; [|done].
    destruct (recentlyAdded T P o) eqn:E; [|done].
    rewrite W3 in Hno; done.
Qed.

Lemma override_never_outlives_window_witness :
  recentlyAdded "123" "B"
    (overlayExec (overlayExec initialOverlay staleTimerPending)
       [OvRemember "123" "C"; OvAdvance 120000]) = false
  /\ hasTimer "123" "B"
       (overlayExec (overlayExec initialOverlay staleTimerPending)
          [OvRemember "123" "C"; OvAdvance 120000]) = false.
Proof.
  apply (override_never_outlives_window staleTimerPending "123" "B"
           [OvRemember "123" "C"; OvAdvance 120000]).
  - not_in_closed_list.
  - vm_compute. discriminate.
Defined.

(** ** The playlist-add operation *)

Section AddCounts.

Variable act : AddAction.
Variable song : MediaItem.

Lemma addSucceeds_cons (before : list AddPayload) (x : Js.value)
    (l : list Js.value) (i : nat) :
  addSucceeds act song before (x :: l) (S i)
  = addSucceeds act song (before ++ [payloadFor song x]) l i.
Proof. unfold addSucceeds. simpl. by rewrite <- app_assoc. Qed.

Lemma addSucceeds_head (before : list AddPayload) (x : Js.value)
    (l : list Js.value) :
  addSucceeds act song before (x :: l) 0
  = Js.is_normal (act before (payloadFor song x)).
Proof. unfold addSucceeds. simpl. by rewrite app_nil_r. Qed.

(** The loop shows no notification; it counts every turn once, as a
    success or as an error, and counts an error exactly when an add
    fails. *)
Lemma foldl_addOne_counts (selected : list Js.value)
    (p : Plugin) (s e : nat) :
  exists p1 s1 e1,
    foldl (addOne act song) (p, s, e) selected = (p1, s1, e1)
    /\ notifications p1 = notifications p
    /\ (s1 + e1 = s + e + length selected)%nat
    /\ (s <= s1)%nat /\ (e <= e1)%nat
    /\ (e1 = e <->
        forall i, (i < length selected)%nat ->
                  addSucceeds act song (dispatched p) selected i = true)
    /\ (s1 = s <->
        forall i, (i < length selected)%nat ->
                  addSucceeds act song (dispatched p) selected i = false).
Proof.
  revert p s e. induction selected as [|x l IH]; intros p s e.
  - exists p, s, e. simpl. split; [done|]. split; [done|].
    split; [lia|]. split; [lia|]. split; [lia|].
    split; (split; [intros _ i Hi; lia|done]).
  - simpl. destruct (act (dispatched p) (payloadFor song x)) as [[]|err] eqn:Hact.
    + destruct (IH
        {| resolver := resolver p;
           overlay :=
             rememberRecentlyAdded (Js.to_String (item_id song))
               (Js.to_String x) (overlay p);
           notifications := notifications p;
           dispatched := dispatched p ++ [payloadFor song x] |} (S s) e)
        as (p1 & s1 & e1 & Hf & Hn & Hsum & Hs & He & Hall & Hnone).
      exists p1, s1, e1. simpl in *. split; [exact Hf|]. split; [done|].
      split; [lia|]. split; [lia|]. split; [lia|]. split.
      * rewrite Hall. split.
        -- intros H [|i] Hi.
           ++ by rewrite addSucceeds_head, Hact.
           ++ rewrite addSucceeds_cons. apply H. lia.
        -- intros H i Hi. rewrite <- addSucceeds_cons. apply H. lia.
      * split; [lia|]. intros H. specialize (H 0%nat ltac:(lia)).
        rewrite addSucceeds_head, Hact in H. discriminate.
    + destruct (IH
        {| resolver := resolver p;
           overlay := overlay p;
           notifications := notifications p;
           dispatched := dispatched p ++ [payloadFor song x] |} s (S e))
        as (p1 & s1 & e1 & Hf & Hn & Hsum & Hs & He & Hall & Hnone).
      exists p1, s1, e1. simpl in *. split; [exact Hf|]. split; [done|].
      split; [lia|]. split; [lia|]. split; [lia|]. split.
      * split; [lia|]. intros H. specialize (H 0%nat ltac:(lia)).
        rewrite addSucceeds_head, Hact in H. discriminate.
      * rewrite Hnone. split.
        -- intros H [|i] Hi.
           ++ by rewrite addSucceeds_head, Hact.
           ++ rewrite addSucceeds_cons. apply H. lia.
        -- intros H i Hi. rewrite <- addSucceeds_cons. apply H. lia.
Qed.

(** An override in the overlay after one turn was there before, or it is
    the one of this turn's successful add. *)
Lemma addOne_recorded (T P : string) (acc : Plugin * nat * nat)
    (x : Js.value) :
  recentlyAdded T P (overlay (addOne act song acc x).1.1) = true ->
  recentlyAdded T P (overlay acc.1.1) = true
  \/ (T = Js.to_String (item_id song) /\ P = Js.to_String x
      /\ Js.is_normal (act (dispatched acc.1.1) (payloadFor song x)) = true).
Proof.
  destruct acc as [[p s] e]. simpl.
  destruct (act (dispatched p) (payloadFor song x)); simpl; [|by left].
  rewrite inOverlay_remember. case_bool_decide as Hb; [|by left].
  destruct Hb as [<- <-]. by right.
Qed.

Lemma foldl_addOne_recorded (T P : string) (selected : list Js.value)
    (acc : Plugin * nat * nat) :
  recentlyAdded T P (overlay (foldl (addOne act song) acc selected).1.1) = true ->
  recentlyAdded T P (overlay acc.1.1) = true
  \/ (T = Js.to_String (item_id song)
      /\ exists i playlistId,
           selected !! i = Some playlistId
           /\ P = Js.to_String playlistId
           /\ addSucceeds act song (dispatched acc.1.1) selected i = true).
Proof.
  revert acc. induction selected as [|x l IH]; simpl; intros acc H; [by left|].
  destruct (IH _ H) as [H1|(-> & i & pid & Hi & -> & Hok)].
  - destruct (addOne_recorded _ _ _ _ H1) as [H2|(-> & -> & Hok)]; [by left|].
    right. split; [done|]. exists 0%nat, x. split; [done|]. split; [done|].
    by rewrite addSucceeds_head.
  - right. split; [done|]. exists (S i), pid. split; [done|]. split; [done|].
    rewrite addSucceeds_cons. by rewrite addOne_dispatched in Hok.
Qed.

Lemma foldl_addOne_clock (selected : list Js.value)
    (acc : Plugin * nat * nat) :
  now (overlay (foldl (addOne act song) acc selected).1.1)
  = now (overlay acc.1.1).
Proof.
  revert acc. induction selected as [|x l IH]; simpl; intros acc; [done|].
  rewrite IH. destruct acc as [[p s] e]. simpl. by destruct (act _ _).
Qed.

End AddCounts.

(** X12: once the title is known, the add
    operation is silent when every add succeeds, and shows exactly one
    notification, of type error, when at least one add fails; when no add
    succeeds at all, its text is [Failed to add "<title>" to playlists]. *)
Theorem add_reports_failures_only :
  forall (act : AddAction) (song : MediaItem) (selected : list Js.value)
         (songTitle : string) (p : Plugin),
    let p' :=
      addToSelectedPlaylists_resume act song selected (Js.Normal songTitle) p in
    ((forall i, (i < length selected)%nat ->
                addSucceeds act song (dispatched p) selected i = true) ->
     notifications p' = notifications p)
    /\ ((exists i, (i < length selected)%nat
                   /\ addSucceeds act song (dispatched p) selected i = false) ->
        exists message, notifications p' = notifications p ++ [(message, error)])
    /\ (selected <> [] ->
        (forall i, (i < length selected)%nat ->
                   addSucceeds act song (dispatched p) selected i = false) ->
        notifications p'
        = notifications p
          ++ [("Failed to add " +:+ dquote +:+ songTitle +:+ dquote
               +:+ " to playlists", error)]).
Proof.
  intros act song selected songTitle p p'. subst p'.
  unfold addToSelectedPlaylists_resume.
  destruct (foldl_addOne_counts act song selected p 0 0)
    as (p1 & s1 & e1 & -> & Hn & Hsum & _ & _ & Hall & Hnone).
  split; [|split].
  - intros H. apply (proj2 Hall) in H. subst e1. simpl. done.
  - intros (i & Hi & Hfail).
    assert (He : e1 <> 0%nat).
    { intros E. pose proof (proj1 Hall E i Hi) as E'. congruence. }
    destruct e1 as [|e1]; [done|]. simpl.
    destruct (0 <? s1)%nat; simpl; rewrite Hn; eauto.
  - intros Hne H. apply (proj2 Hnone) in H. subst s1.
    destruct selected as [|x l]; [done|]. simpl in Hsum.
    destruct e1 as [|e1]; [lia|]. simpl. by rewrite Hn.
Qed.

Lemma add_reports_failures_only_witness :
  notifications
    (addToSelectedPlaylists_resume actOk song123 [Js.Str "B"; Js.Str "C"]
       (Js.Normal "Song") initialPlugin)
  = notifications initialPlugin.
Proof.
  apply (add_reports_failures_only actOk song123 [Js.Str "B"; Js.Str "C"]
           "Song" initialPlugin).
  intros [|[|i]] Hi; [reflexivity|reflexivity|simpl in Hi; lia].
Defined.

(** X13: whatever is ticked and however
    the request for the title and the adds end, the add operation leaves
    the resolver as it is except that it may drop the cache entry of the
    song: results cached for other tracks stay, and no computation is
    started, cancelled or taken out of the in-flight map or the queue. *)
Theorem add_touches_only_own_cache_entry :
  forall (act : AddAction) (checkboxes : list Checkbox) (song : MediaItem)
         (songTitle : Js.completion string) (p : Plugin),
    let p' := addToSelectedPlaylists_run act checkboxes song songTitle p in
    (forall T, T <> Js.to_String (item_id song) ->
       membershipResultCache (resolver p') !! T
       = membershipResultCache (resolver p) !! T)
    /\ membershipInFlight (resolver p') = membershipInFlight (resolver p)
    /\ inFlightCount (resolver p') = inFlightCount (resolver p)
    /\ membershipQueue (resolver p') = membershipQueue (resolver p)
    /\ jobs (resolver p') = jobs (resolver p)
    /\ lookups (resolver p') = lookups (resolver p).
Proof.
  intros act checkboxes song songTitle p p'. subst p'.
  assert (Hcases :
    resolver (addToSelectedPlaylists_run act checkboxes song songTitle p)
    = resolver p
    \/ resolver (addToSelectedPlaylists_run act checkboxes song songTitle p)
       = invalidate (Js.to_String (item_id song)) (resolver p)).
  { unfold addToSelectedPlaylists_run, addToSelectedPlaylists.
    destruct (length (selectedPlaylistIds checkboxes) =? 0)%nat; [by left|].
    destruct (item_hasTitle song).
    - destruct songTitle as [t|e]; [|by left].
      right. apply resume_resolver.
    - right. apply resume_resolver. }
  destruct Hcases as [->| ->]; [done|]. simpl.
  split; [|done]. intros T HT. by apply lookup_delete_ne.
Qed.

(** X14: an override that is in the
    overlay when the add operation ends was there before, or it is the
    pair of the song and a selected playlist whose add succeeded; a failed
    add and a playlist that was not selected leave no override, and the
    clock of the overlay is not touched. *)
Theorem add_records_successful_adds_only :
  forall (act : AddAction) (song : MediaItem) (selected : list Js.value)
         (songTitle : string) (p : Plugin) (T P : string),
    let p' :=
      addToSelectedPlaylists_resume act song selected (Js.Normal songTitle) p in
    now (overlay p') = now (overlay p)
    /\ (recentlyAdded T P (overlay p') = true ->
        recentlyAdded T P (overlay p) = true
        \/ (T = Js.to_String (item_id song)
            /\ exists i playlistId,
                 selected !! i = Some playlistId
                 /\ P = Js.to_String playlistId
                 /\ addSucceeds act song (dispatched p) selected i = true)).
Proof.
  intros act song selected songTitle p T P p'. subst p'.
  rewrite resume_overlay. split.
  - apply (foldl_addOne_clock act song selected (p, 0%nat, 0%nat)).
  - apply (foldl_addOne_recorded act song T P selected (p, 0%nat, 0%nat)).
Qed.

Lemma add_records_successful_adds_only_witness :
  recentlyAdded "123" "B" (overlay initialPlugin) = true
  \/ ("123" = Js.to_String (item_id song123)
      /\ exists i playlistId,
           [Js.Str "B"; Js.Str "C"] !! i = Some playlistId
           /\ "B" = Js.to_String playlistId
           /\ addSucceeds actWithoutC song123 (dispatched initialPlugin)
                [Js.Str "B"; Js.Str "C"] i = true).
Proof.
  apply (add_records_successful_adds_only actWithoutC song123
           [Js.Str "B"; Js.Str "C"] "Song" initialPlugin "123" "B").
  vm_compute; reflexivity.
Defined.

(** ** The row annotation pipeline *)

Section Extraction.

Variable resolveHref : string -> string.

Lemma truthyString_Some (o : option string) (s : string) :
  truthyString o = Some s <-> o = Some s /\ s <> "".
Proof.
  unfold truthyString. destruct o as [t|]; [|by split; [|intros []]].
  destruct (String.eqb_spec t ""); split.
  - discriminate.
  - intros [[= ->] H]. done.
  - intros [= ->]. done.
  - intros [[= ->] _]. done.
Qed.

Lemma startsWith_spec (pat s rest : list ascii) :
  startsWith pat s = Some rest <-> s = pat ++ rest.
Proof.
  revert s. induction pat as [|p pat IH]; intros [|c s]; simpl.
  - split; [by intros [= <-]|by intros <-].
  - split; [by intros [= <-]|by intros <-].
  - split; discriminate.
  - destruct (Ascii.eqb_spec p c) as [->|Hne].
    + rewrite IH. split; [by intros ->|by intros [= ->]].
    + split; [discriminate|]. intros [= <- _]. done.
Qed.

Lemma includes_spec (pat s : list ascii) :
  includes pat s = true <-> exists pre post, s = pre ++ pat ++ post.
Proof.
  induction s as [|c s IH].
  - simpl. destruct (startsWith pat []) as [rest|] eqn:E.
    + apply startsWith_spec in E. split; [|done]. intros _. by exists [], rest.
    + split; [discriminate|]. intros (pre & post & H). exfalso.
      destruct pre; [|discriminate].
      assert (E' : startsWith pat [] = Some post) by by apply startsWith_spec.
      congruence.
  - simpl. destruct (startsWith pat (c :: s)) as [rest|] eqn:E.
    + apply startsWith_spec in E. split; [|done]. intros _. by exists [], rest.
    + rewrite IH. split.
      * intros (pre & post & ->). by exists (c :: pre), post.
      * intros (pre & post & H). destruct pre as [|c' pre].
        -- assert (E' : startsWith pat (c :: s) = Some post)
             by by apply startsWith_spec.
           congruence.
        -- injection H as -> ->. by exists pre, post.
Qed.

Lemma digitsPrefix_spec (s : list ascii) :
  forallb isDigit (digitsPrefix s) = true
  /\ exists post,
       s = digitsPrefix s ++ post
       /\ forall c post', post = c :: post' -> isDigit c = false.
Proof.
  induction s as [|c s [IH1 (post & IH2 & IH3)]]; simpl.
  - split; [done|]. exists []. split; [done|]. discriminate.
  - destruct (isDigit c) eqn:Hc; simpl.
    + rewrite Hc, IH1. split; [done|]. exists post.
      split; [by rewrite <- IH2|done].
    + split; [done|]. exists (c :: s). split; [done|].
      by intros c' post' [= <- _].
Qed.

(** No match at the start of the string. *)
Lemma matchHere_spec (pat s : list ascii) :
  match startsWith pat s with
  | Some rest =>
      match digitsPrefix rest with
      | [] => None
      | ds => Some ds
      end
  | None => None
  end = None ->
  forall c rest, s = pat ++ c :: rest -> isDigit c = false.
Proof.
  intros H c rest E. apply startsWith_spec in E. rewrite E in H.
  simpl in H. by destruct (isDigit c).
Qed.

(** What the regular expression [/pat(\d+)/] captures. *)
Lemma matchDigitsAfter_spec (pat s ds : list ascii) :
  matchDigitsAfter pat s = Some ds -> capturedDigits pat s ds.
Proof.
  assert (Hhere : forall s rest d ds',
            startsWith pat s = Some rest ->
            digitsPrefix rest = d :: ds' ->
            capturedDigits pat s (d :: ds')).
  { intros s0 rest d ds' Hs Hd.
    destruct (digitsPrefix_spec rest) as [H1 (post & H2 & H3)].
    rewrite Hd in *. exists [], post. apply startsWith_spec in Hs.
    split; [by rewrite app_nil_l, Hs, H2|].
    split; [done|]. split; [done|]. split; [done|].
    intros pre' c rest' _ _. simpl. lia. }
  assert (Hthere : forall c s,
            (forall c' rest, c :: s = pat ++ c' :: rest -> isDigit c' = false) ->
            capturedDigits pat s ds -> capturedDigits pat (c :: s) ds).
  { intros c s0 Hno (pre & post & -> & H1 & H2 & H3 & H4).
    exists (c :: pre), post. split; [done|]. split; [done|].
    split; [done|]. split; [done|].
    intros pre' c' rest E Hc'. destruct pre' as [|c0 pre'].
    - rewrite (Hno c' rest E) in Hc'. discriminate.
    - injection E as _ E. simpl. apply le_n_S. by eapply H4. }
  induction s as [|c s IH].
  - simpl. destruct (startsWith pat []) as [rest|] eqn:Hs; [|discriminate].
    destruct (digitsPrefix rest) as [|d ds'] eqn:Hd; [discriminate|].
    intros [= <-]. by eapply Hhere.
  - simpl. destruct (startsWith pat (c :: s)) as [rest|] eqn:Hs.
    + destruct (digitsPrefix rest) as [|d ds'] eqn:Hd.
      * intros H. apply Hthere; [|by apply IH].
        apply matchHere_spec. by rewrite Hs, Hd.
      * intros [= <-]. by eapply Hhere.
    + intros H. apply Hthere; [|by apply IH].
      apply matchHere_spec. by rewrite Hs.
Qed.

Lemma matchDigitsAfter_None (pat s : list ascii) :
  matchDigitsAfter pat s = None -> noDigitsAfter pat s.
Proof.
  induction s as [|c s IH]; simpl.
  - intros H pre c rest E. destruct pre as [|c0 pre]; [|discriminate].
    refine (matchHere_spec pat [] _ c rest E).
    destruct (startsWith pat []) as [r|]; [|done].
    by destruct (digitsPrefix r).
  - intros H.
    assert (Hh : match startsWith pat (c :: s) with
                 | Some rest =>
                     match digitsPrefix rest with
                     | [] => None
                     | ds => Some ds
                     end
                 | None => None
                 end = None).
    { destruct (startsWith pat (c :: s)) as [r|]; [|done].
      by destruct (digitsPrefix r). }
    rewrite Hh in H. intros pre c' rest E. destruct pre as [|c0 pre].
    + by apply (matchHere_spec pat (c :: s) Hh c' rest).
    + injection E as _ E. by apply (IH H pre c' rest).
Qed.

Lemma find_first {A} (f : A -> bool) (l : list A) (x : A) :
  find f l = Some x ->
  exists before after,
    l = before ++ x :: after /\ f x = true
    /\ forall d, In d before -> f d = false.
Proof.
  induction l as [|y l IH]; simpl; [discriminate|].
  destruct (f y) eqn:Hy.
  - intros [= <-]. exists [], l. split; [done|]. split; [done|]. by intros d [].
  - intros H. destruct (IH H) as (before & after & -> & Hx & Hb).
    exists (y :: before), after. split; [done|]. split; [done|].
    intros d [<-|Hd]; [done|]. by apply Hb.
Qed.

Lemma firstCandidate_spec (host : Element) (attrs : list string) (id : string) :
  firstCandidate host attrs = Some id ->
  id <> "" /\ exists attr, In attr attrs /\ idFromAttribute host attr id.
Proof.
  induction attrs as [|attr rest IH]; simpl; [discriminate|].
  destruct (truthyString (getAttribute attr host)) as [direct|] eqn:Hd.
  - intros [= ->]. apply truthyString_Some in Hd as [Hd Hne].
    split; [done|]. exists attr. split; [by left|]. by left.
  - set (viaChild := match querySelectorAttr attr host with
                     | Some child => getAttribute attr child
                     | None => None
                     end).
    destruct (truthyString viaChild) as [v|] eqn:Hv.
    + intros [= ->]. apply truthyString_Some in Hv as [Hv Hne].
      split; [done|]. exists attr. split; [by left|]. right.
      unfold viaChild, querySelectorAttr in Hv.
      destruct (find _ _) as [child|] eqn:Hf; [|discriminate].
      apply find_some in Hf as [Hin _]. by exists child.
    + intros H. destruct (IH H) as (Hne & a & Hin & Ha).
      split; [done|]. exists a. split; [by right|done].
Qed.

Lemma isAnchorWith_spec (pat : string) (d : Element) :
  String.eqb (tagOf d) "a"
  && match getAttribute "href" d with
     | Some v =>
         includes (String.list_ascii_of_string pat)
           (String.list_ascii_of_string v)
     | None => false
     end = true
  <-> isAnchorWith pat d.
Proof.
  unfold isAnchorWith. rewrite andb_true_iff, String.eqb_eq.
  destruct (getAttribute "href" d) as [v|].
  - rewrite includes_spec. split.
    + intros [Ht (pre & post & E)]. split; [done|]. by exists v, pre, post.
    + intros [Ht (v' & pre & post & [= <-] & E)]. split; [done|].
      by exists pre, post.
  - split; [by intros [_ ?]|]. by intros [_ (v & pre & post & ? & _)].
Qed.

Lemma querySelectorLink_spec (pat : string) (host link : Element) :
  querySelectorLink pat host = Some link -> firstAnchorWith pat host link.
Proof.
  unfold querySelectorLink. intros H.
  apply find_first in H as (before & after & E & Hl & Hb).
  exists before, after. split; [done|]. split; [by apply isAnchorWith_spec|].
  intros d Hd Ha. apply isAnchorWith_spec in Ha. by rewrite (Hb d Hd) in Ha.
Qed.

Lemma querySelectorLink_None (pat : string) (host : Element) :
  querySelectorLink pat host = None ->
  forall d, In d (descendants host) -> ~ isAnchorWith pat d.
Proof.
  unfold querySelectorLink. intros H d Hd Ha.
  apply isAnchorWith_spec in Ha.
  by rewrite (find_none _ _ H d Hd) in Ha.
Qed.

Lemma string_of_digits (ds : list ascii) :
  ds <> [] -> String.string_of_list_ascii ds <> "".
Proof. by destruct ds. Qed.

(** Where the id comes from. *)
Lemma getTrackIdFromRow_spec (host : Element) (id : string) :
  getTrackIdFromRow resolveHref host = Some id ->
  id <> ""
  /\ ((exists attr, In attr ("data-id" :: attrCandidates)
                    /\ idFromAttribute host attr id)
      \/ idFromLink resolveHref host id).
Proof.
  unfold getTrackIdFromRow.
  destruct (if bool_decide _ then _ else None) as [id'|] eqn:Ht.
  { intros [= ->]. case_bool_decide; [|discriminate].
    destruct (truthyString (getAttribute "data-id" host)) as [v|] eqn:Hv.
    - injection Ht as ->. apply truthyString_Some in Hv as [Hv Hne].
      split; [done|]. left. exists "data-id". split; [by left|by left].
    - apply truthyString_Some in Ht as [Ht Hne].
      split; [done|]. left. exists "data-track-id".
      split; [right; by left|by left]. }
  destruct (firstCandidate host attrCandidates) as [id'|] eqn:Hc.
  { intros [= ->]. apply firstCandidate_spec in Hc as (Hne & attr & Hin & Ha).
    split; [done|]. left. exists attr. split; [by right|done]. }
  set (link := match querySelectorLink "/track/" host with
               | Some l => Some l
               | None => querySelectorLink "track/" host
               end).
  assert (Hlink : forall l, link = Some l ->
            firstAnchorWith "/track/" host l
            \/ ((forall d, In d (descendants host) ->
                    ~ isAnchorWith "/track/" d)
                /\ firstAnchorWith "track/" host l)).
  { intros l. unfold link.
    destruct (querySelectorLink "/track/" host) as [l'|] eqn:E.
    - intros [= <-]. left. by apply querySelectorLink_spec.
    - intros E'. right. split; [by apply querySelectorLink_None|].
      by apply querySelectorLink_spec. }
  destruct link as [l|]; [|discriminate].
  pose proof (Hlink l eq_refl) as Hl.
  destruct (truthyString (resolveHref <$> getAttribute "href" l))
    as [href|] eqn:Hh; [|discriminate].
  apply truthyString_Some in Hh as [Hh _].
  destruct (getAttribute "href" l) as [attr|] eqn:Hattr; [|discriminate].
  simpl in Hh. injection Hh as <-.
  set (s := String.list_ascii_of_string (resolveHref attr)).
  intros Hm.
  assert (Hds : exists ds,
            id = String.string_of_list_ascii ds
            /\ (capturedDigits (String.list_ascii_of_string "/track/") s ds
                \/ (noDigitsAfter (String.list_ascii_of_string "/track/") s
                    /\ capturedDigits
                         (String.list_ascii_of_string "track/") s ds))).
  { destruct (matchDigitsAfter (String.list_ascii_of_string "/track/") s)
      as [ds|] eqn:E1.
    - injection Hm as <-. exists ds. split; [done|]. left.
      by apply matchDigitsAfter_spec.
    - destruct (matchDigitsAfter (String.list_ascii_of_string "track/") s)
        as [ds|] eqn:E2; [|discriminate].
      injection Hm as <-. exists ds. split; [done|]. right.
      split; [by apply matchDigitsAfter_None|by apply matchDigitsAfter_spec]. }
  destruct Hds as (ds & -> & Hcap).
  split.
  { apply string_of_digits.
    destruct Hcap as [(? & ? & _ & H & _)|[_ (? & ? & _ & H & _)]]; done. }
  right. exists l, attr. split; [done|]. split; [done|].
  cbv zeta. by rewrite list_ascii_of_string_of_list_ascii.
Qed.

(** The predicates leave no choice. *)
Lemma app_same_length {A} (l1 l2 r1 r2 : list A) :
  l1 ++ r1 = l2 ++ r2 -> length l1 = length l2 -> l1 = l2 /\ r1 = r2.
Proof.
  revert l2. induction l1 as [|x l1 IH]; intros [|y l2]; simpl;
    try discriminate; [done|].
  intros [= -> E] [= Hl]. destruct (IH _ E Hl) as [-> ->]. done.
Qed.

Lemma digit_run_unique (ds ds' post post' : list ascii) :
  forallb isDigit ds = true ->
  forallb isDigit ds' = true ->
  (forall c p, post = c :: p -> isDigit c = false) ->
  (forall c p, post' = c :: p -> isDigit c = false) ->
  ds ++ post = ds' ++ post' ->
  ds = ds'.
Proof.
  revert ds'. induction ds as [|d ds IH]; intros [|d' ds']; simpl.
  - done.
  - intros _ Hd' Hp _ E. apply andb_prop in Hd' as [Hd' _].
    rewrite (Hp d' (ds' ++ post') E) in Hd'. discriminate.
  - intros Hd _ _ Hp' E. apply andb_prop in Hd as [Hd _].
    rewrite (Hp' d (ds ++ post) (eq_sym E)) in Hd. discriminate.
  - intros Hd Hd' Hp Hp' [= -> E].
    apply andb_prop in Hd as [_ Hd]. apply andb_prop in Hd' as [_ Hd'].
    by rewrite (IH ds' Hd Hd' Hp Hp' E).
Qed.

Lemma capturedDigits_unique (pat s ds ds' : list ascii) :
  capturedDigits pat s ds -> capturedDigits pat s ds' -> ds = ds'.
Proof.
  intros (pre & post & E & Hne & Hd & Hp & Hleft)
         (pre' & post' & E' & Hne' & Hd' & Hp' & Hleft').
  destruct ds as [|d ds]; [done|]. destruct ds' as [|d' ds']; [done|].
  assert (Hlen : length pre = length pre').
  { apply Nat.le_antisymm.
    - apply (Hleft pre' d' (ds' ++ post')); [done|].
      simpl in Hd'. by apply andb_prop in Hd' as [? _].
    - apply (Hleft' pre d (ds ++ post)); [done|].
      simpl in Hd. by apply andb_prop in Hd as [? _]. }
  rewrite E' in E. destruct (app_same_length _ _ _ _ E (eq_sym Hlen)) as [_ E1].
  apply app_inv_head in E1.
  exact (eq_sym (digit_run_unique _ _ _ _ Hd' Hd Hp' Hp E1)).
Qed.

Lemma capturedDigits_excludes (pat s ds : list ascii) :
  capturedDigits pat s ds -> ~ noDigitsAfter pat s.
Proof.
  intros (pre & post & E & Hne & Hd & _) Hno.
  destruct ds as [|d ds]; [done|]. simpl in Hd.
  apply andb_prop in Hd as [Hd _].
  by rewrite (Hno pre d (ds ++ post) E) in Hd.
Qed.

Lemma firstAnchorWith_unique (pat : string) (host l l' : Element) :
  firstAnchorWith pat host l -> firstAnchorWith pat host l' -> l = l'.
Proof.
  intros (before & after & E & Ha & Hb) (before' & after' & E' & Ha' & Hb').
  rewrite E' in E. clear E'.
  revert before' E Hb'. induction before as [|x before IH];
    intros [|y before']; simpl.
  - by intros [= ->].
  - intros [= -> _] Hb'. destruct (Hb' l); [by left|done].
  - intros [= <- _] _. destruct (Hb l'); [by left|done].
  - intros [= -> E] Hb'. apply (IH (fun d Hd => Hb d (or_intror Hd)) before' E).
    intros d Hd. apply Hb'. by right.
Qed.

Lemma firstAnchorWith_In (pat : string) (host l : Element) :
  firstAnchorWith pat host l ->
  In l (descendants host) /\ isAnchorWith pat l.
Proof.
  intros (before & after & E & Ha & _). split; [|done].
  rewrite E. apply in_elt.
Qed.

Lemma idFromLink_unique (host : Element) (id id' : string) :
  idFromLink resolveHref host id ->
  idFromLink resolveHref host id' ->
  id = id'.
Proof.
  intros (l & href & Hl & Hh & Hc) (l' & href' & Hl' & Hh' & Hc').
  assert (l = l').
  { destruct Hl as [Hl|[Hno Hl]], Hl' as [Hl'|[Hno' Hl']].
    - by eapply firstAnchorWith_unique.
    - apply firstAnchorWith_In in Hl as [Hin Ha]. by destruct (Hno' l).
    - apply firstAnchorWith_In in Hl' as [Hin Ha]. by destruct (Hno l').
    - by eapply firstAnchorWith_unique. }
  subst l'. assert (href' = href) by congruence. subst href'.
  cbv zeta in Hc, Hc'.
  assert (E : String.list_ascii_of_string id = String.list_ascii_of_string id').
  { destruct Hc as [Hc|[Hno Hc]], Hc' as [Hc'|[Hno' Hc']].
    - by eapply capturedDigits_unique.
    - by destruct (capturedDigits_excludes _ _ _ Hc).
    - by destruct (capturedDigits_excludes _ _ _ Hc').
    - by eapply capturedDigits_unique. }
  rewrite <- (string_of_list_ascii_of_string id),
          <- (string_of_list_ascii_of_string id').
  by rewrite E.
Qed.

End Extraction.

(** X15: an id that [getTrackIdFromRow] returns is
    never the empty string, so the test [!trackId] of [processTrackRow]
    fires only when nothing was found; and the id is either the value of
    [data-id] or of one of the seven candidate attributes on the row or on
    one of its descendants, or it comes from a link: taken from the
    resolved address of the first anchor below the row whose [href] holds
    [/track/] (or [track/], when no anchor holds [/track/]), it is the
    whole run of decimal digits behind the leftmost [/track/] that a digit
    follows (or behind the leftmost such [track/], when there is no such
    [/track/]); a row has at most one id from a link. *)
Theorem extracted_id_provenance :
  forall (resolveHref : string -> string) (host : Element),
    truthyString (getTrackIdFromRow resolveHref host)
    = getTrackIdFromRow resolveHref host
    /\ (forall id,
          getTrackIdFromRow resolveHref host = Some id ->
          id <> ""
          /\ ((exists attr, In attr ("data-id" :: attrCandidates)
                            /\ idFromAttribute host attr id)
              \/ idFromLink resolveHref host id))
    /\ (forall id id',
          idFromLink resolveHref host id ->
          idFromLink resolveHref host id' ->
          id = id').
Proof.
  intros resolveHref host. split; [|split].
  - destruct (getTrackIdFromRow resolveHref host) as [id|] eqn:E; [|done].
    apply getTrackIdFromRow_spec in E as [Hne _].
    by apply truthyString_Some.
  - intros id. apply getTrackIdFromRow_spec.
  - apply idFromLink_unique.
Qed.

Lemma extracted_id_provenance_witness :
  "4711" <> ""
  /\ ((exists attr, In attr ("data-id" :: attrCandidates)
                    /\ idFromAttribute rowWithLink attr "4711")
      \/ idFromLink (fun s => "https://host" +:+ s) rowWithLink "4711").
Proof.
  apply (proj1 (proj2 (extracted_id_provenance
                         (fun s => "https://host" +:+ s) rowWithLink))).
  reflexivity.
Defined.

Section Frame.

Variable resolveHref : string -> string.

Lemma setAttribute_frame (name value : string) (row : Element) :
  tagOf (setAttribute name value row) = tagOf row
  /\ childrenOf (setAttribute name value row) = childrenOf row.
Proof. by destruct row. Qed.

Lemma processTrackRow_row (row : Element) (w : Pipeline) :
  fst (processTrackRow resolveHref row w) = row
  \/ fst (processTrackRow resolveHref row w) = setAttribute CHECKED_ATTR "1" row.
Proof.
  destruct (decide (isMarked row)) as [H|H].
  - left. by rewrite processTrackRow_marked.
  - right. rewrite processTrackRow_unmarked by done.
    by destruct (truthyString _).
Qed.

End Frame.

(** X16: processing a row and annotating
    it with a result change nothing on the row but the four attributes
    [data-ml-playlist-checked], [data-ml-in-playlists],
    [data-ml-playlist-count] and [title]: its tag, its children and every
    other attribute stay as they were, and processing alone leaves all
    attributes but the mark untouched. *)
Theorem pipeline_writes_own_attributes_only :
  forall (resolveHref : string -> string) (row : Element) (w : Pipeline)
         (res : SongInPlaylistsResult),
    let row1 := fst (processTrackRow resolveHref row w) in
    let row2 := annotateRowWithMembership row1 res in
    tagOf row2 = tagOf row
    /\ childrenOf row2 = childrenOf row
    /\ (forall name, name <> CHECKED_ATTR ->
          getAttribute name row1 = getAttribute name row)
    /\ (forall name, ~ In name pipelineAttributes ->
          getAttribute name row2 = getAttribute name row).
Proof.
  intros resolveHref row w res row1 row2.
  assert (H1 : tagOf row1 = tagOf row /\ childrenOf row1 = childrenOf row
               /\ forall name, name <> CHECKED_ATTR ->
                    getAttribute name row1 = getAttribute name row).
  { subst row1. destruct (processTrackRow_row resolveHref row w) as [->| ->].
    - done.
    - destruct (setAttribute_frame CHECKED_ATTR "1" row) as [-> ->].
      split; [done|]. split; [done|]. intros name Hne.
      rewrite getAttribute_setAttribute. by rewrite decide_False. }
  destruct H1 as (Ht & Hc & Ha).
  assert (H2 : tagOf row2 = tagOf row1 /\ childrenOf row2 = childrenOf row1).
  { subst row2. by destruct row1. }
  destruct H2 as [-> ->]. split; [done|]. split; [done|]. split; [done|].
  intros name Hn. subst row2. unfold annotateRowWithMembership.
  rewrite !getAttribute_setAttribute.
  assert (Hne : name <> CHECKED_ATTR /\ name <> "data-ml-in-playlists"
                /\ name <> "data-ml-playlist-count" /\ name <> "title").
  { unfold pipelineAttributes in Hn. simpl in Hn.
    repeat split; intros ->; apply Hn; tauto. }
  destruct Hne as (N1 & N2 & N3 & N4).
  rewrite !decide_False by congruence. by apply Ha.
Qed.

Lemma annotate_attributes (row : Element) (res : SongInPlaylistsResult) :
  getAttribute "data-ml-in-playlists" (annotateRowWithMembership row res)
  = Some (Js.to_String (Js.Boolean (existsInPlaylists res)))
  /\ getAttribute "data-ml-playlist-count" (annotateRowWithMembership row res)
     = Some (pretty (length (playlists res)))
  /\ getAttribute "title" (annotateRowWithMembership row res)
     = Some (if (0 <? length (playlists res))%nat
             then "In playlists: " +:+ pretty (length (playlists res))
                  +:+ " — " +:+ String.concat ", " (map title (playlists res))
             else "Not in any playlists").
Proof.
  unfold annotateRowWithMembership. cbv zeta.
  rewrite !getAttribute_setAttribute. split; [|split].
  - rewrite !decide_False by discriminate. by rewrite decide_True.
  - rewrite decide_False by discriminate. by rewrite decide_True.
  - by rewrite decide_True.
Qed.

(** X17: the attributes written for a result
    of the id lookup agree with each other: [data-ml-playlist-count] is
    the number of reported playlists, [data-ml-in-playlists] is [true]
    exactly when that number is not 0, and the tooltip is
    [Not in any playlists] exactly when it is 0. *)
Theorem annotation_agrees_with_lookup :
  forall (h : Host) (songId : Js.value) (row : Element),
    exists res,
      checkSongInUserPlaylists h songId = Js.Normal res
      /\ let row' := annotateRowWithMembership row res in
         getAttribute "data-ml-playlist-count" row'
         = Some (pretty (length (playlists res)))
         /\ (getAttribute "data-ml-in-playlists" row' = Some "true"
             <-> getAttribute "data-ml-playlist-count" row' <> Some "0")
         /\ (getAttribute "data-ml-in-playlists" row' = Some "false"
             <-> getAttribute "data-ml-playlist-count" row' = Some "0")
         /\ (getAttribute "title" row' = Some "Not in any playlists"
             <-> getAttribute "data-ml-playlist-count" row' = Some "0").
Proof.
  intros h songId row.
  destruct (checkSongInUserPlaylists_returns h songId) as [res Hres].
  exists res. split; [done|].
  assert (Hex : existsIffNonEmpty res).
  { apply checkSongInUserPlaylists_body in Hres as [->|Hres]; [done|].
    by eapply lookupBody_existsIffNonEmpty. }
  unfold existsIffNonEmpty in Hex. cbv zeta.
  destruct (annotate_attributes row res) as (-> & -> & ->).
  rewrite Hex.
  assert (Hz : forall n : nat, Some (pretty n) = Some "0" <-> n = 0%nat).
  { intros n. split.
    - intros [= E]. by apply (inj pretty n 0%nat).
    - by intros ->. }
  split; [done|].
  destruct (playlists res) as [|ref l] eqn:El; simpl length.
  - rewrite bool_decide_eq_false_2 by (intros H; by apply H). simpl.
    split; [|split]; split; intros H; first [done|by destruct H].
  - rewrite bool_decide_eq_true_2 by done. simpl.
    split; [|split]; split; intros H;
      first [done|apply Hz in H; discriminate
            |intros H'; apply Hz in H'; discriminate].
Qed.

(** ** The periodic row scan *)

Section Paths.

Lemma nodeAt_updateAt_same (p : list nat) (f : Element -> Element)
    (e : Element) :
  nodeAt p (updateAt p f e) = f <$> nodeAt p e.
Proof.
  revert e. induction p as [|i p IH]; intros [t a cs]; simpl; [done|].
  destruct (cs !! i) as [c|] eqn:Hc; simpl.
  - rewrite list_lookup_insert_eq by (by eapply lookup_lt_Some). apply IH.
  - by rewrite Hc.
Qed.

(** The change of one element leaves the tag and the attributes of every
    other element as they are, when it keeps the children of the
    element. *)
Lemma nodeAt_updateAt_other (p q : list nat) (f : Element -> Element)
    (e : Element) :
  (forall x, nodeAt p e = Some x -> childrenOf (f x) = childrenOf x) ->
  q <> p ->
  shallow <$> nodeAt q (updateAt p f e) = shallow <$> nodeAt q e.
Proof.
  revert q e. induction p as [|i p IH]; intros q [t a cs] Hf Hne.
  - destruct q as [|j q]; [done|]. simpl.
    specialize (Hf _ eq_refl). destruct (f (El t a cs)) as [t' a' cs'].
    simpl in Hf. by subst cs'.
  - simpl. destruct (cs !! i) as [c|] eqn:Hc; [|done].
    destruct q as [|j q]; [done|]. simpl.
    destruct (decide (j = i)) as [->|Hji].
    + rewrite list_lookup_insert_eq by (by eapply lookup_lt_Some).
      rewrite Hc. apply IH; [|congruence].
      intros x Hx. apply Hf. simpl. by rewrite Hc.
    + by rewrite list_lookup_insert_ne.
Qed.

Lemma updateAt_ext (p : list nat) (f g : Element -> Element) (e : Element) :
  (forall x, nodeAt p e = Some x -> f x = g x) ->
  updateAt p f e = updateAt p g e.
Proof.
  revert e. induction p as [|i p IH]; intros [t a cs] H; simpl.
  - by apply H.
  - destruct (cs !! i) as [c|] eqn:Hc; [|done].
    rewrite (IH c); [done|]. intros x Hx. apply H. simpl. by rewrite Hc.
Qed.

Lemma In_pathsFrom {A} (paths : A -> list (list nat)) (k : nat)
    (l : list A) (q : list nat) :
  In q (pathsFrom paths k l)
  <-> exists i c p, l !! i = Some c /\ In p (paths c) /\ q = (k + i)%nat :: p.
Proof.
  revert k. induction l as [|c l IH]; intros k; simpl.
  - split; [done|]. by intros (i & c & p & H & _).
  - rewrite in_app_iff, in_map_iff, IH. split.
    + intros [(p & <- & Hp)|(i & c' & p & Hi & Hp & ->)].
      * exists 0%nat, c, p. rewrite Nat.add_0_r. done.
      * exists (S i), c', p. split; [done|]. split; [done|]. f_equal. lia.
    + intros ([|i] & c' & p & Hi & Hp & ->); simpl in Hi.
      * injection Hi as <-. left. exists p. by rewrite Nat.add_0_r.
      * right. exists i, c', p. split; [done|]. split; [done|]. f_equal. lia.
Qed.

(** The paths of a document are those that lead to an element. *)
Lemma In_allPaths (p : list nat) (e : Element) :
  In p (allPaths e) <-> is_Some (nodeAt p e).
Proof.
  revert e. induction p as [|i p IH]; intros [t a cs]; simpl.
  - split; [by eexists|by left].
  - rewrite In_pathsFrom. split.
    + intros [H|(j & c & q & Hj & Hq & [= -> ->])]; [done|].
      rewrite Hj. by apply IH.
    + intros H. right. destruct (cs !! i) as [c|] eqn:Hc.
      * exists i, c, p. split; [done|]. split; [by apply IH|done].
      * by destruct H.
Qed.

Lemma pathsFrom_insert {A} (paths : A -> list (list nat)) (k i : nat)
    (l : list A) (c c' : A) :
  l !! i = Some c -> paths c' = paths c ->
  pathsFrom paths k (<[i := c']> l) = pathsFrom paths k l.
Proof.
  revert k i. induction l as [|x l IH]; intros k [|i] Hi Hp; simpl in *;
    try discriminate.
  - injection Hi as ->. by rewrite Hp.
  - by rewrite (IH _ _ Hi Hp).
Qed.

Lemma allPaths_children (e e' : Element) :
  childrenOf e' = childrenOf e -> allPaths e' = allPaths e.
Proof. destruct e, e'. simpl. by intros ->. Qed.

Lemma allPaths_updateAt (p : list nat) (f : Element -> Element) (e : Element) :
  (forall x, nodeAt p e = Some x -> childrenOf (f x) = childrenOf x) ->
  allPaths (updateAt p f e) = allPaths e.
Proof.
  revert e. induction p as [|i p IH]; intros e Hf.
  - apply allPaths_children. by apply Hf.
  - destruct e as [t a cs]. simpl.
    destruct (cs !! i) as [c|] eqn:Hc; [|done]. simpl. f_equal.
    apply pathsFrom_insert with (c := c); [done|].
    apply IH. intros x Hx. apply Hf. simpl. by rewrite Hc.
Qed.

Lemma Element_ind' (P : Element -> Prop) :
  (forall t a cs, Forall P cs -> P (El t a cs)) -> forall e, P e.
Proof.
  intros H. fix IH 1. intros [t a cs]. apply H.
  induction cs as [|c cs IHcs]; constructor; [apply IH|apply IHcs].
Qed.

Lemma NoDup_pathsFrom {A} (paths : A -> list (list nat)) (k : nat)
    (l : list A) :
  Forall (fun c => NoDup (paths c)) l -> NoDup (pathsFrom paths k l).
Proof.
  intros H. revert k. induction H as [|c l Hc _ IH]; intros k; simpl.
  - constructor.
  - apply NoDup_app. split; [|split].
    + apply NoDup_fmap_2; [|done]. by intros x y [= ->].
    + intros q Hq Hq'. apply list_elem_of_In in Hq, Hq'.
      apply in_map_iff in Hq as (p & <- & _).
      apply In_pathsFrom in Hq' as (i & c' & p' & _ & _ & [= E _]). lia.
    + apply IH.
Qed.

Lemma NoDup_allPaths (e : Element) : NoDup (allPaths e).
Proof.
  induction e as [t a cs IH] using Element_ind'. simpl.
  apply NoDup_cons_2.
  - intros H. apply list_elem_of_In, In_pathsFrom in H
      as (i & c & p & _ & _ & [=]).
  - by apply NoDup_pathsFrom.
Qed.

End Paths.

Section Marks.

Lemma rowSelectors_attributes :
  Forall (fun sel => selectorAttribute sel <> Some CHECKED_ATTR) rowSelectors.
Proof. repeat constructor; discriminate. Qed.

(** A selector that does not test the mark sees an element by its tag
    and its other attributes. *)
Lemma matchesSelector_agree (sel : Selector) (e e' : Element) :
  selectorAttribute sel <> Some CHECKED_ATTR ->
  tagOf e' = tagOf e ->
  (forall name, name <> CHECKED_ATTR ->
     getAttribute name e' = getAttribute name e) ->
  matchesSelector sel e' = matchesSelector sel e.
Proof.
  intros Hs Ht Ha. unfold matchesSelector. rewrite Ht. f_equal.
  unfold selectorAttribute in Hs.
  destruct (sel_attr sel) as [[name|name v|name v]|]; simpl; [| | |done];
    rewrite Ha; try done; congruence.
Qed.

Lemma isRow_agree (e e' : Element) :
  tagOf e' = tagOf e ->
  (forall name, name <> CHECKED_ATTR ->
     getAttribute name e' = getAttribute name e) ->
  isRow e' = isRow e.
Proof.
  intros Ht Ha. unfold isRow.
  pose proof rowSelectors_attributes as H.
  induction H as [|sel l Hsel _ IH]; simpl; [done|].
  by rewrite IH, (matchesSelector_agree sel e e').
Qed.

Lemma isRow_matches (e : Element) (sel : Selector) :
  In sel rowSelectors -> matchesSelector sel e = true -> isRow e = true.
Proof. intros Hin Hm. apply existsb_exists. eauto. Qed.

Lemma markedAt_spec (doc : Element) (q : list nat) :
  markedAt doc q = true <-> attributeAt doc q CHECKED_ATTR = Some "1".
Proof. unfold markedAt. apply bool_decide_eq_true. Qed.

Lemma markedAt_node (doc : Element) (q : list nat) (e : Element) :
  nodeAt q doc = Some e -> markedAt doc q = isMarkedb e.
Proof. intros H. unfold markedAt, attributeAt, isMarkedb. by rewrite H. Qed.

Section Added.

Variables doc doc' : Element.
Hypothesis R : marksAdded doc doc'.

Lemma marksAdded_node (q : list nat) (e' : Element) :
  nodeAt q doc' = Some e' ->
  exists e, nodeAt q doc = Some e /\ tagOf e' = tagOf e
            /\ forall name, name <> CHECKED_ATTR ->
                 getAttribute name e' = getAttribute name e.
Proof.
  intros He'. destruct R as [_ Hq]. destruct (Hq q) as (Ht & Ha & _).
  unfold attributeAt in Ha. rewrite He' in Ht, Ha.
  destruct (nodeAt q doc) as [e|]; [|discriminate].
  exists e. simpl in *. split; [done|]. split; [congruence|].
  intros name Hn. by apply Ha.
Qed.

Lemma marksAdded_node_back (q : list nat) (e : Element) :
  nodeAt q doc = Some e -> exists e', nodeAt q doc' = Some e'.
Proof.
  intros He. destruct R as [_ Hq]. destruct (Hq q) as (Ht & _).
  rewrite He in Ht. destruct (nodeAt q doc') as [e'|]; [eauto|discriminate].
Qed.

Lemma marksAdded_matchAt (sel : Selector) (q : list nat) :
  selectorAttribute sel <> Some CHECKED_ATTR ->
  matchAt sel doc' q = matchAt sel doc q.
Proof.
  intros Hs. unfold matchAt.
  destruct (nodeAt q doc') as [e'|] eqn:He'.
  - destruct (marksAdded_node q e' He') as (e & -> & Ht & Ha).
    by apply matchesSelector_agree.
  - destruct (nodeAt q doc) as [e|] eqn:He; [|done].
    destruct (marksAdded_node_back q e He) as [e' He'']. congruence.
Qed.

Lemma marksAdded_rowAt (q : list nat) : rowAt doc' q = rowAt doc q.
Proof.
  unfold rowAt. destruct (nodeAt q doc') as [e'|] eqn:He'.
  - destruct (marksAdded_node q e' He') as (e & -> & Ht & Ha).
    by apply isRow_agree.
  - destruct (nodeAt q doc) as [e|] eqn:He; [|done].
    destruct (marksAdded_node_back q e He) as [e' He'']. congruence.
Qed.

Lemma marksAdded_markedAt (q : list nat) :
  markedAt doc q = true -> markedAt doc' q = true.
Proof.
  rewrite !markedAt_spec. destruct R as [_ Hq].
  destruct (Hq q) as (_ & _ & [->|(_ & _ & ->)]); done.
Qed.

End Added.

Lemma marksAdded_refl (doc : Element) : marksAdded doc doc.
Proof. split; [done|]. intros q. split; [done|]. split; [done|]. by left. Qed.

Lemma marksAdded_trans (doc doc1 doc2 : Element) :
  marksAdded doc doc1 -> marksAdded doc1 doc2 -> marksAdded doc doc2.
Proof.
  intros R1 R2. pose proof R1 as [P1 Q1]. pose proof R2 as [P2 Q2].
  split; [congruence|]. intros q.
  destruct (Q1 q) as (T1 & A1 & C1). destruct (Q2 q) as (T2 & A2 & C2).
  split; [congruence|]. split.
  { intros name Hn. rewrite A2, A1; done. }
  destruct C2 as [E2|(Hr & Hm & E2)].
  - destruct C1 as [E1|(Hr & Hm & E1)]; [left; congruence|].
    right. split; [done|]. split; [done|]. congruence.
  - destruct C1 as [E1|(Hr1 & Hm1 & E1)].
    + right. rewrite <- (marksAdded_rowAt _ _ R1). split; [done|].
      split; [|done]. unfold markedAt in *. by rewrite <- E1.
    + right. done.
Qed.

(** Setting the mark on the element at [p]. *)
Lemma marksAdded_mark (doc : Element) (p : list nat) (host : Element) :
  nodeAt p doc = Some host ->
  isRow host = true -> isMarkedb host = false ->
  marksAdded doc (updateAt p (setAttribute CHECKED_ATTR "1") doc).
Proof.
  intros Hp Hrow Hm.
  assert (Hc : forall x, nodeAt p doc = Some x ->
                 childrenOf (setAttribute CHECKED_ATTR "1" x) = childrenOf x).
  { intros [t a cs] _. done. }
  split; [by apply allPaths_updateAt|]. intros q.
  destruct (decide (q = p)) as [->|Hne].
  - unfold attributeAt. rewrite nodeAt_updateAt_same, Hp. simpl.
    split; [by destruct host|]. split.
    + intros name Hn. rewrite getAttribute_setAttribute.
      by rewrite decide_False.
    + right. unfold rowAt. rewrite Hp. split; [done|].
      split; [by rewrite (markedAt_node _ _ _ Hp)|].
      rewrite getAttribute_setAttribute. by rewrite decide_True.
  - pose proof (nodeAt_updateAt_other p q _ doc Hc Hne) as Hs.
    unfold attributeAt.
    destruct (nodeAt q (updateAt p _ doc)) as [[t' a' cs']|],
             (nodeAt q doc) as [[t a cs]|]; simpl in Hs; try discriminate.
    + injection Hs as -> ->. split; [done|]. split; [done|]. by left.
    + split; [done|]. split; [done|]. by left.
Qed.

End Marks.

Section Scan.

Variable resolveHref : string -> string.

(** Changing the test at one place of a list without repetition. *)
Lemma filter_length_flip {A} (l : list A) (P Q : A -> bool) (x : A) :
  NoDup l -> In x l -> P x = true -> Q x = false ->
  (forall y, y <> x -> Q y = P y) ->
  (length (List.filter Q l) + 1 = length (List.filter P l))%nat.
Proof.
  intros Hnd. induction Hnd as [|y l Hy Hnd IH]; intros Hin HP HQ Hother.
  - done.
  - destruct Hin as [->|Hin]; simpl.
    + rewrite HP, HQ. simpl.
      rewrite (List.filter_ext_in Q P); [lia|].
      intros z Hz. apply Hother. intros ->. by apply Hy, list_elem_of_In.
    + rewrite (Hother y).
      2:{ intros ->. by apply Hy, list_elem_of_In. }
      specialize (IH Hin HP HQ Hother). destruct (P y); simpl; lia.
Qed.

Lemma unprocessedRows_mark (doc : Element) (p : list nat) (host : Element) :
  nodeAt p doc = Some host ->
  isRow host = true -> isMarkedb host = false ->
  (length (unprocessedRows (updateAt p (setAttribute CHECKED_ATTR "1") doc)) + 1
   = length (unprocessedRows doc))%nat.
Proof.
  intros Hp Hrow Hm. unfold unprocessedRows.
  pose proof (marksAdded_mark doc p host Hp Hrow Hm) as R.
  destruct R as [-> Hq].
  apply filter_length_flip with (x := p).
  - apply NoDup_allPaths.
  - apply In_allPaths. by rewrite Hp.
  - by rewrite Hp, Hrow, Hm.
  - rewrite nodeAt_updateAt_same, Hp. simpl.
    apply andb_false_iff. right. apply negb_false_iff.
    unfold isMarkedb. apply bool_decide_eq_true.
    rewrite getAttribute_setAttribute. by rewrite decide_True.
  - intros q Hne.
    assert (Hc : forall x, nodeAt p doc = Some x ->
                   childrenOf (setAttribute CHECKED_ATTR "1" x) = childrenOf x).
    { intros [t a cs] _. done. }
    pose proof (nodeAt_updateAt_other p q _ doc Hc Hne) as Hs.
    destruct (nodeAt q (updateAt p _ doc)) as [[t' a' cs']|],
             (nodeAt q doc) as [[t a cs]|]; simpl in Hs; try discriminate;
      [|done].
    by injection Hs as -> ->.
Qed.

(** What one visit does: nothing on a marked element; on an unmarked one,
    one run of [processTrackRow], which sets the mark. *)
Lemma visitRow_spec (doc : Element) (w : Pipeline) (p : list nat)
    (host : Element) :
  nodeAt p doc = Some host ->
  visitRow resolveHref (doc, w) p
  = if isMarkedb host then (doc, w)
    else (updateAt p (setAttribute CHECKED_ATTR "1") doc,
          snd (processTrackRow resolveHref host w)).
Proof.
  intros Hp. unfold visitRow, isMarkedb. rewrite Hp.
  case_bool_decide as Hm; [done|].
  destruct (processTrackRow resolveHref host w) as [host' w'] eqn:E.
  simpl. f_equal. apply updateAt_ext. intros x Hx.
  assert (x = host) by congruence. subst x.
  change host' with (fst (host', w')). rewrite <- E.
  rewrite processTrackRow_unmarked by done. by destruct (truthyString _).
Qed.

(** The loop over the elements a selector found. *)
Lemma foldl_visitRow (ps : list (list nat)) (doc : Element) (w : Pipeline) :
  (forall p, In p ps -> rowAt doc p = true) ->
  let r := foldl (visitRow resolveHref) (doc, w) ps in
  marksAdded doc (fst r)
  /\ (forall p, In p ps -> markedAt (fst r) p = true)
  /\ (extractions (snd r) + length (unprocessedRows (fst r))
      = extractions w + length (unprocessedRows doc))%nat
  /\ (resolverCalls (snd r) + length (unprocessedRows (fst r))
      <= resolverCalls w + length (unprocessedRows doc))%nat.
Proof.
  revert doc w. induction ps as [|p ps IH]; intros doc w Hrows;
    cbv zeta; cbn [foldl].
  - split; [apply marksAdded_refl|]. split; [by intros p []|done].
  - assert (Hp : exists host, nodeAt p doc = Some host /\ isRow host = true).
    { specialize (Hrows p (or_introl eq_refl)). unfold rowAt in Hrows.
      destruct (nodeAt p doc) as [host|]; [eauto|discriminate]. }
    destruct Hp as (host & Hp & Hrow).
    rewrite (visitRow_spec doc w p host Hp).
    destruct (isMarkedb host) eqn:Hm.
    + assert (Hrest : forall q, In q ps -> rowAt doc q = true)
        by (intros q Hq; apply Hrows; by right).
      destruct (IH doc w Hrest) as (R & Hmarks & Hcount & Hcalls).
      split; [done|]. split; [|done].
      intros q [<-|Hq]; [|auto].
      apply (marksAdded_markedAt _ _ R).
      by rewrite (markedAt_node _ _ _ Hp).
    + set (doc1 := updateAt p (setAttribute CHECKED_ATTR "1") doc).
      set (w1 := snd (processTrackRow resolveHref host w)).
      pose proof (marksAdded_mark doc p host Hp Hrow Hm) as R1.
      fold doc1 in R1.
      assert (Hrest : forall q, In q ps -> rowAt doc1 q = true).
      { intros q Hq. rewrite (marksAdded_rowAt _ _ R1). apply Hrows. by right. }
      destruct (IH doc1 w1 Hrest) as (R & Hmarks & Hcount & Hcalls).
      split; [by eapply marksAdded_trans|]. split.
      * intros q [<-|Hq]; [|auto].
        apply (marksAdded_markedAt _ _ R). apply markedAt_spec.
        unfold attributeAt, doc1. rewrite nodeAt_updateAt_same, Hp. simpl.
        rewrite getAttribute_setAttribute. by rewrite decide_True.
      * pose proof (unprocessedRows_mark doc p host Hp Hrow Hm) as Hu.
        fold doc1 in Hu.
        destruct (effects_count resolveHref w host) as [He Hc].
        fold w1 in He, Hc.
        assert (Hnm : ~ isMarked host).
        { unfold isMarked. unfold isMarkedb in Hm.
          by apply bool_decide_eq_false in Hm. }
        rewrite decide_False in He, Hc by done.
        split; [lia|]. destruct (truthyString _); lia.
Qed.

Lemma scanSelector_spec (sel : Selector) (doc : Element) (w : Pipeline) :
  In sel rowSelectors ->
  let r := scanSelector resolveHref (doc, w) sel in
  marksAdded doc (fst r)
  /\ (forall q, matchAt sel (fst r) q = true -> markedAt (fst r) q = true)
  /\ (extractions (snd r) + length (unprocessedRows (fst r))
      = extractions w + length (unprocessedRows doc))%nat
  /\ (resolverCalls (snd r) + length (unprocessedRows (fst r))
      <= resolverCalls w + length (unprocessedRows doc))%nat.
Proof.
  intros Hsel r. subst r. unfold scanSelector. simpl fst at 1.
  assert (Hattr : selectorAttribute sel <> Some CHECKED_ATTR).
  { pose proof rowSelectors_attributes as H. rewrite List.Forall_forall in H.
    by apply H. }
  assert (Hfound : forall p, In p (querySelectorAll sel doc) <->
                     matchAt sel doc p = true).
  { intros p. unfold querySelectorAll, matchAt. rewrite filter_In, In_allPaths.
    split; [by intros [_ H]|]. intros H. split; [|done].
    destruct (nodeAt p doc); [by eexists|discriminate]. }
  assert (Hrows : forall p, In p (querySelectorAll sel doc) ->
                    rowAt doc p = true).
  { intros p Hp. apply Hfound in Hp. unfold matchAt, rowAt in *.
    destruct (nodeAt p doc) as [e|]; [|discriminate].
    by eapply isRow_matches. }
  destruct (foldl_visitRow (querySelectorAll sel doc) doc w Hrows)
    as (R & Hmarks & Hcount & Hcalls).
  split; [done|]. split; [|done].
  intros q Hq. apply Hmarks, Hfound.
  by rewrite <- (marksAdded_matchAt _ _ R sel q Hattr).
Qed.

Lemma foldl_scanSelector (sels : list Selector) (doc : Element) (w : Pipeline) :
  (forall sel, In sel sels -> In sel rowSelectors) ->
  let r := foldl (scanSelector resolveHref) (doc, w) sels in
  marksAdded doc (fst r)
  /\ (forall sel q, In sel sels -> matchAt sel (fst r) q = true ->
        markedAt (fst r) q = true)
  /\ (extractions (snd r) + length (unprocessedRows (fst r))
      = extractions w + length (unprocessedRows doc))%nat
  /\ (resolverCalls (snd r) + length (unprocessedRows (fst r))
      <= resolverCalls w + length (unprocessedRows doc))%nat.
Proof.
  revert doc w. induction sels as [|sel sels IH]; intros doc w Hin; simpl.
  - split; [apply marksAdded_refl|]. split; [by intros sel q []|done].
  - destruct (scanSelector_spec sel doc w (Hin sel (or_introl eq_refl)))
      as (R1 & M1 & C1 & D1).
    destruct (scanSelector resolveHref (doc, w) sel) as [doc1 w1] eqn:E.
    simpl in R1, M1, C1, D1.
    destruct (IH doc1 w1 (fun s Hs => Hin s (or_intror Hs)))
      as (R & M & C & D).
    split; [by eapply marksAdded_trans|]. split; [|lia].
    intros s q [<-|Hs] Hq; [|by eapply M].
    apply (marksAdded_markedAt _ _ R), M1.
    rewrite <- (marksAdded_matchAt _ _ R sel q); [done|].
    pose proof rowSelectors_attributes as H. rewrite List.Forall_forall in H.
    apply H, Hin. by left.
Qed.

(** The scan as a whole. *)
Lemma scanRowsOnce_spec (doc : Element) (w : Pipeline) :
  let r := scanRowsOnce resolveHref doc w in
  marksAdded doc (fst r)
  /\ (forall q, rowAt (fst r) q = true -> markedAt (fst r) q = true)
  /\ (extractions (snd r) + length (unprocessedRows (fst r))
      = extractions w + length (unprocessedRows doc))%nat
  /\ (resolverCalls (snd r) + length (unprocessedRows (fst r))
      <= resolverCalls w + length (unprocessedRows doc))%nat.
Proof.
  destruct (foldl_scanSelector rowSelectors doc w (fun s Hs => Hs))
    as (R & M & C & D).
  split; [done|]. split; [|done].
  intros q Hq. unfold rowAt in Hq.
  destruct (nodeAt q (fst (scanRowsOnce resolveHref doc w))) as [e|] eqn:He;
    [|discriminate].
  apply existsb_exists in Hq as (sel & Hsel & Hm).
  apply (M sel q Hsel). unfold matchAt. fold (scanRowsOnce resolveHref doc w).
  by rewrite He.
Qed.

(** A document without unprocessed rows is left alone. *)
Lemma scan_nothing_to_do (sels : list Selector) (doc : Element) (w : Pipeline) :
  (forall sel, In sel sels -> In sel rowSelectors) ->
  (forall q, rowAt doc q = true -> markedAt doc q = true) ->
  foldl (scanSelector resolveHref) (doc, w) sels = (doc, w).
Proof.
  intros Hin Hall. induction sels as [|sel sels IH]; simpl; [done|].
  assert (E : scanSelector resolveHref (doc, w) sel = (doc, w)).
  { unfold scanSelector. cbn [fst].
    assert (Hps : forall p, In p (querySelectorAll sel doc) ->
                    visitRow resolveHref (doc, w) p = (doc, w)).
    { intros p Hp. unfold querySelectorAll in Hp.
      apply filter_In in Hp as [_ Hp].
      destruct (nodeAt p doc) as [host|] eqn:Hh; [|discriminate].
      rewrite (visitRow_spec doc w p host Hh).
      rewrite <- (markedAt_node doc p host Hh), Hall; [done|].
      unfold rowAt. rewrite Hh. apply (isRow_matches host sel); [|done].
      apply Hin. by left. }
    induction (querySelectorAll sel doc) as [|p ps IHps]; cbn [foldl]; [done|].
    rewrite Hps by (by left). apply IHps. intros q Hq. apply Hps. by right. }
  rewrite E. apply IH. intros s Hs. apply Hin. by right.
Qed.

End Scan.

Section ScanResult.

Lemma unprocessedRows_none (doc : Element) :
  (forall q, rowAt doc q = true -> markedAt doc q = true) ->
  unprocessedRows doc = [].
Proof.
  intros H. unfold unprocessedRows.
  assert (Hf : forall q,
            match nodeAt q doc with
            | Some e => isRow e && negb (isMarkedb e)
            | None => false
            end = false).
  { intros q. specialize (H q). unfold rowAt in H.
    destruct (nodeAt q doc) as [e|] eqn:He; [|done].
    rewrite (markedAt_node _ _ _ He) in H.
    destruct (isRow e); [|done]. by rewrite H. }
  induction (allPaths doc) as [|q l IH]; simpl; [done|]. by rewrite Hf.
Qed.

End ScanResult.

(** X18: a scan leaves the document with the same
    elements at the same places, each with its tag and all its attributes
    but the mark as before; every element that matches one of the eight
    row selectors is marked afterwards, and an element that matches none
    keeps whatever [data-ml-playlist-checked] it had. *)
Theorem scan_marks_rows_only :
  forall (resolveHref : string -> string) (doc : Element) (w : Pipeline),
    let doc' := fst (scanRowsOnce resolveHref doc w) in
    allPaths doc' = allPaths doc
    /\ forall q e,
         nodeAt q doc = Some e ->
         exists e',
           nodeAt q doc' = Some e'
           /\ tagOf e' = tagOf e
           /\ (forall name, name <> CHECKED_ATTR ->
                 getAttribute name e' = getAttribute name e)
           /\ (if isRow e then isMarked e'
               else getAttribute CHECKED_ATTR e' = getAttribute CHECKED_ATTR e).
Proof.
  intros resolveHref doc w doc'.
  destruct (scanRowsOnce_spec resolveHref doc w) as (R & M & _).
  fold doc' in R, M. split; [apply R|]. intros q e He.
  destruct (marksAdded_node_back _ _ R q e He) as [e' He'].
  destruct (marksAdded_node _ _ R q e' He') as (e0 & He0 & Ht & Ha).
  assert (e0 = e) by congruence. subst e0.
  exists e'. split; [done|]. split; [done|]. split; [done|].
  destruct (isRow e) eqn:Hrow.
  - assert (Hr : rowAt doc' q = true).
    { rewrite (marksAdded_rowAt _ _ R). unfold rowAt. by rewrite He. }
    specialize (M q Hr). rewrite (markedAt_node _ _ _ He') in M.
    unfold isMarkedb in M. by apply bool_decide_eq_true in M.
  - destruct R as [_ Hq]. destruct (Hq q) as (_ & _ & [E|(Hr & _)]).
    + unfold attributeAt in E. by rewrite He, He' in E.
    + unfold rowAt in Hr. rewrite He in Hr. congruence.
Qed.

Lemma scan_marks_rows_only_witness :
  exists e',
    nodeAt [0; 0]%nat (fst (scanRowsOnce (fun s => s) sampleDocument initialPipeline))
    = Some e'
    /\ tagOf e' = tagOf sampleTableRow
    /\ (forall name, name <> CHECKED_ATTR ->
          getAttribute name e' = getAttribute name sampleTableRow)
    /\ (if isRow sampleTableRow then isMarked e'
        else getAttribute CHECKED_ATTR e'
             = getAttribute CHECKED_ATTR sampleTableRow).
Proof.
  exact (proj2 (scan_marks_rows_only (fun s => s) sampleDocument initialPipeline)
           [0; 0]%nat sampleTableRow eq_refl).
Defined.

(** X19: a scan of a document that a scan has left, in
    whatever state the resolver is by then, changes nothing: no row is
    extracted again and the resolver is not called, which is what makes the
    periodic scan harmless while the document stays as it is. *)
Theorem scan_is_idempotent :
  forall (resolveHref : string -> string) (doc : Element) (w w' : Pipeline),
    let doc' := fst (scanRowsOnce resolveHref doc w) in
    scanRowsOnce resolveHref doc' w' = (doc', w')
    /\ scanRowsOnce resolveHref doc' (snd (scanRowsOnce resolveHref doc w))
       = scanRowsOnce resolveHref doc w.
Proof.
  intros resolveHref doc w w' doc'.
  destruct (scanRowsOnce_spec resolveHref doc w) as (_ & M & _).
  fold doc' in M.
  assert (H : forall w0, scanRowsOnce resolveHref doc' w0 = (doc', w0)).
  { intros w0. apply scan_nothing_to_do; [auto|done]. }
  split; [apply H|]. rewrite H. subst doc'.
  by destruct (scanRowsOnce resolveHref doc w).
Qed.

(** X20: a scan runs the extraction exactly once
    for every element that matches a row selector and is not marked yet,
    however many of the selectors it matches, calls the resolver at most
    once for each of them, and leaves no such element behind. *)
Theorem scan_processes_each_row_once :
  forall (resolveHref : string -> string) (doc : Element) (w : Pipeline),
    let r := scanRowsOnce resolveHref doc w in
    extractions (snd r) = (extractions w + length (unprocessedRows doc))%nat
    /\ (resolverCalls (snd r)
        <= resolverCalls w + length (unprocessedRows doc))%nat
    /\ unprocessedRows (fst r) = [].
Proof.
  intros resolveHref doc w r.
  destruct (scanRowsOnce_spec resolveHref doc w) as (_ & M & C & D).
  fold r in M, C, D.
  pose proof (unprocessedRows_none (fst r) M) as E.
  rewrite E in C, D. cbn [length] in C, D. split; [lia|]. split; [lia|done].
Qed.

Section ScanLookups.

Variable resolveHref : string -> string.
Variable T : string.

Lemma afterRequests_refl (r : Resolver) : afterRequests T r r.
Proof. split; [done|]. split; [done|]. by left. Qed.

Lemma afterRequests_getMembership (r0 r : Resolver) (T' : string) :
  afterRequests T r0 r ->
  afterRequests T r0 (snd (getMembership T' r)).
Proof.
  intros (Hc & Hf & Hl).
  destruct (getMembership_cases T' r)
    as [(res & _ & ->)|[(j0 & _ & _ & ->)|[Hc' Hi]]]; try done.
  rewrite (getMembership_new T' r Hc' Hi). cbn [snd].
  assert (Hkeep : is_Some (membershipInFlight r !! T) ->
            is_Some (<[T' := length (jobs r)]> (membershipInFlight r) !! T)).
  { intros [j Hj]. destruct (decide (T' = T)) as [->|Hne].
    - rewrite lookup_insert_eq. eauto.
    - rewrite lookup_insert_ne by done. eauto. }
  assert (Hother : is_Some (membershipInFlight r !! T) -> T' <> T).
  { intros [j Hj] ->. congruence. }
  unfold afterRequests, lookupCount in *.
  destruct (inFlightCount r <? MAX_CONCURRENT_MEMBERSHIP)%Z;
    cbn [membershipResultCache membershipInFlight lookups].
  - split; [done|]. split; [auto|].
    rewrite lookupCount_snoc.
    destruct Hl as [Hl|(Hl & H1 & H2 & H3)].
    + destruct (decide (T' = T)) as [->|Hne].
      * right. split; [lia|]. rewrite <- Hc. split; [done|]. split.
        -- destruct (membershipInFlight r0 !! T) as [j|] eqn:E; [|done].
           destruct (Hf ltac:(eauto)) as [j' Hj']. congruence.
        -- rewrite lookup_insert_eq. eauto.
      * left. lia.
    + right. rewrite decide_False by auto.
      split; [lia|]. split; [done|]. split; [done|]. auto.
  - split; [done|]. split; [auto|].
    destruct Hl as [Hl|(Hl & H1 & H2 & H3)]; [by left|].
    right. split; [done|]. split; [done|]. split; [done|]. auto.
Qed.

Lemma afterRequests_processTrackRow (r0 : Resolver) (row : Element)
    (w : Pipeline) :
  afterRequests T r0 (pipe_resolver w) ->
  afterRequests T r0 (pipe_resolver (snd (processTrackRow resolveHref row w))).
Proof.
  intros H. destruct (decide (isMarked row)) as [Hm|Hm].
  - by rewrite processTrackRow_marked.
  - rewrite processTrackRow_unmarked by done.
    destruct (truthyString (getTrackIdFromRow resolveHref row)) as [t|];
      cbn [snd pipe_resolver]; [|done].
    by apply afterRequests_getMembership.
Qed.

Lemma afterRequests_visitRow (r0 : Resolver) (acc : Element * Pipeline)
    (p : list nat) :
  afterRequests T r0 (pipe_resolver (snd acc)) ->
  afterRequests T r0 (pipe_resolver (snd (visitRow resolveHref acc p))).
Proof.
  intros H. destruct acc as [doc w]. unfold visitRow.
  destruct (nodeAt p doc) as [host|]; [|done].
  case_bool_decide as Hb; [done|].
  pose proof (afterRequests_processTrackRow r0 host w H) as H'.
  by destruct (processTrackRow resolveHref host w).
Qed.

Lemma afterRequests_foldl_visitRow (r0 : Resolver) (ps : list (list nat))
    (acc : Element * Pipeline) :
  afterRequests T r0 (pipe_resolver (snd acc)) ->
  afterRequests T r0
    (pipe_resolver (snd (foldl (visitRow resolveHref) acc ps))).
Proof.
  revert acc. induction ps as [|p ps IH]; intros acc H; cbn [foldl]; [done|].
  apply IH. by apply afterRequests_visitRow.
Qed.

Lemma afterRequests_scan (r0 : Resolver) (sels : list Selector)
    (acc : Element * Pipeline) :
  afterRequests T r0 (pipe_resolver (snd acc)) ->
  afterRequests T r0
    (pipe_resolver (snd (foldl (scanSelector resolveHref) acc sels))).
Proof.
  revert acc. induction sels as [|sel sels IH]; intros acc H; cbn [foldl];
    [done|].
  apply IH. unfold scanSelector. by apply afterRequests_foldl_visitRow.
Qed.

End ScanLookups.

(** X21: however many rows of the document show
    a track, one scan calls the lookup for it at most once; it calls it not
    at all when the resolver holds a cached result for the track or a
    computation for it is in flight; and the scan leaves the cache as it
    was. *)
Theorem scan_starts_one_lookup_per_track :
  forall (resolveHref : string -> string) (doc : Element) (w : Pipeline)
         (T : string),
    let r := pipe_resolver (snd (scanRowsOnce resolveHref doc w)) in
    (lookupCount T (pipe_resolver w) <= lookupCount T r
       <= S (lookupCount T (pipe_resolver w)))%nat
    /\ (is_Some (membershipResultCache (pipe_resolver w) !! T)
        \/ is_Some (membershipInFlight (pipe_resolver w) !! T) ->
        lookupCount T r = lookupCount T (pipe_resolver w))
    /\ membershipResultCache r = membershipResultCache (pipe_resolver w).
Proof.
  intros resolveHref doc w T r.
  destruct (afterRequests_scan resolveHref T (pipe_resolver w) rowSelectors
              (doc, w) (afterRequests_refl T _)) as (Hc & Hf & Hl).
  fold (scanRowsOnce resolveHref doc w) in Hc, Hf, Hl. fold r in Hc, Hf, Hl.
  split; [|split; [|done]].
  - destruct Hl as [->|(-> & _)]; lia.
  - intros Hhas. destruct Hl as [Hl|(_ & H1 & H2 & _)]; [done|].
    rewrite H1, H2 in Hhas. by destruct Hhas as [[? ?]|[? ?]].
Qed.

(** ** The selector observer *)

#[local] Set Warnings "-clear-no-such-hyp".

Section ObserveFacts.

Context {St : Type}.
Variable onAdd : nat -> St -> St.

(** The callback handles a batch like one list of elements. *)
Lemma onAddedNode_process (st : gset nat * St) (n : AddedNode) :
  onAddedNode onAdd st n = process onAdd (reportedByNode n) st.
Proof.
  unfold onAddedNode, reportedByNode, process.
  destruct (negb (an_nodeType n =? 1)%Z); [done|].
  rewrite foldl_app.
  destruct (an_matches n) as [[]|], (an_querySelectorAll n); done.
Qed.

Lemma foldl_onAddedNode (st : gset nat * St) (l : list AddedNode) :
  foldl (onAddedNode onAdd) st l
  = process onAdd (flat_map reportedByNode l) st.
Proof.
  revert st. induction l as [|n l IH]; intros st; simpl; [done|].
  unfold process in *. by rewrite foldl_app, IH, onAddedNode_process.
Qed.

Lemma onMutations_process (st : gset nat * St) (mutations : list MutationRecord) :
  onMutations onAdd st mutations = process onAdd (reportedBy mutations) st.
Proof.
  unfold onMutations, reportedBy, process. revert st.
  induction mutations as [|m l IH]; intros st; simpl; [done|].
  rewrite foldl_app, IH. f_equal.
  destruct (negb (mr_type m =? "childList")%string); [done|].
  apply foldl_onAddedNode.
Qed.

Lemma addOnce_calledOnce (s : St) (st : gset nat * St) (calls : list nat)
    (el : nat) :
  calledOnce onAdd s st calls ->
  exists more,
    calledOnce onAdd s (addOnce onAdd st el) (calls ++ more)
    /\ (forall x, x ∈ more <-> x = el /\ el ∉ st.1).
Proof.
  intros (Hnd & Hset & Hst). unfold addOnce.
  destruct (decide (el ∈ st.1)) as [Hin|Hnin].
  - exists []. rewrite app_nil_r. split; [done|].
    intros x. rewrite elem_of_nil. tauto.
  - exists [el]. split.
    + split; [|split]; simpl.
      * apply NoDup_app. split; [done|]. split.
        -- intros x Hx Hx'. apply list_elem_of_singleton in Hx'. subst x.
           apply Hnin. rewrite Hset. by apply elem_of_list_to_set.
        -- apply NoDup_singleton.
      * rewrite Hset, list_to_set_app_L. simpl. set_solver.
      * unfold callsOf. rewrite foldl_app. simpl. by rewrite Hst.
    + intros x. rewrite list_elem_of_singleton. tauto.
Qed.

Lemma addOnce_processed (st : gset nat * St) (el : nat) :
  (addOnce onAdd st el).1 = {[el]} ∪ st.1.
Proof.
  unfold addOnce. destruct (decide (el ∈ st.1)); simpl; [|done].
  set_solver.
Qed.

Lemma process_calledOnce (nodes : list nat) (s : St) (st : gset nat * St)
    (calls : list nat) :
  calledOnce onAdd s st calls ->
  exists more,
    calledOnce onAdd s (process onAdd nodes st) (calls ++ more)
    /\ (forall x, x ∈ more <-> x ∈ nodes /\ x ∉ st.1).
Proof.
  unfold process. revert st calls.
  induction nodes as [|el nodes IH]; intros st calls H; simpl.
  - exists []. rewrite app_nil_r. split; [done|].
    intros x. rewrite !elem_of_nil. tauto.
  - destruct (addOnce_calledOnce s st calls el H) as (m1 & H1 & Hm1).
    destruct (IH _ _ H1) as (m2 & H2 & Hm2).
    exists (m1 ++ m2). rewrite app_assoc. split; [done|].
    intros x. rewrite elem_of_app, Hm1, Hm2, elem_of_cons.
    rewrite addOnce_processed, elem_of_union, elem_of_singleton.
    destruct (decide (x = el)) as [->|Hne]; tauto.
Qed.

Lemma calledOnce_initial (s : St) : calledOnce onAdd s (∅, s) [].
Proof. split; [constructor|]. done. Qed.

(** The state after the initial pass and any number of batches. *)
Lemma observer_calledOnce (documentMatches : list nat) (s : St)
    (batches : list (list MutationRecord)) :
  exists calls,
    calledOnce onAdd s
      (foldl (onMutations onAdd) (observe onAdd documentMatches s) batches)
      calls
    /\ (forall x, x ∈ calls
                  <-> x ∈ documentMatches
                      \/ exists batch, batch ∈ batches /\ x ∈ reportedBy batch).
Proof.
  unfold observe.
  destruct (process_calledOnce documentMatches s (∅, s) []
              (calledOnce_initial s)) as (c0 & H0 & Hc0).
  simpl in H0, Hc0.
  assert (G : forall batches st calls,
            calledOnce onAdd s st calls ->
            exists more,
              calledOnce onAdd s (foldl (onMutations onAdd) st batches)
                (calls ++ more)
              /\ (forall x, x ∈ calls ++ more
                    <-> x ∈ calls
                        \/ exists batch, batch ∈ batches
                                         /\ x ∈ reportedBy batch)).
  { clear. intros batches.
    induction batches as [|b bs IH]; intros st calls H; simpl.
    - exists []. rewrite app_nil_r. split; [done|].
      intros x. split; [by left|]. intros [?|(b & Hb & _)]; [done|].
      by apply elem_of_nil in Hb.
    - rewrite onMutations_process.
      destruct (process_calledOnce (reportedBy b) s st calls H)
        as (m1 & H1 & Hm1).
      destruct (IH _ _ H1) as (m2 & H2 & Hm2).
      exists (m1 ++ m2). rewrite app_assoc. split; [done|].
      intros x. rewrite Hm2, elem_of_app, Hm1.
      destruct H as (_ & Hset & _). rewrite Hset, elem_of_list_to_set.
      split.
      + intros [[Hx|[Hx _]]|(b' & Hb' & Hx)]; [by left| |].
        * right. exists b. split; [by left|done].
        * right. exists b'. split; [by right|done].
      + intros [Hx|(b' & Hb' & Hx)]; [by left; left|].
        apply elem_of_cons in Hb' as [->|Hb'].
        * destruct (decide (x ∈ calls)); [by left; left|].
          left. right. done.
        * right. by exists b'. }
  destruct (G batches _ _ H0) as (more & H & Hmore).
  exists (c0 ++ more). split; [done|].
  intros x. rewrite Hmore, Hc0. set_solver.
Qed.

End ObserveFacts.

(** X22: over the whole life of an
    [observe] call, whatever the document holds at the start and whatever
    batches of mutation records arrive, [onAdd] is called at most once for
    each element: the state is the result of calling [onAdd] once for each
    element of a list without repetition, and the [WeakSet] holds exactly
    these elements. *)
Theorem observer_adds_each_element_once :
  forall (St : Type) (onAdd : nat -> St -> St) (documentMatches : list nat)
         (s : St) (batches : list (list MutationRecord)),
    let st := foldl (onMutations onAdd) (observe onAdd documentMatches s) batches in
    exists calls,
      NoDup calls
      /\ st.2 = callsOf onAdd s calls
      /\ (forall el, el ∈ st.1 <-> el ∈ calls).
Proof.
  intros St onAdd documentMatches s batches st.
  destruct (observer_calledOnce onAdd documentMatches s batches)
    as (calls & (Hnd & Hset & Hst) & _).
  fold st in Hset, Hst. exists calls. split; [done|]. split; [done|].
  intros el. rewrite Hset. apply elem_of_list_to_set.
Qed.

(** X23: the elements handed to [onAdd] are
    exactly those that match in the document when [observe] is called and
    those that a record of type [childList] brings: an added element node
    that matches, and the matching descendants of an added element node.
    Records of other types (a changed attribute, say) and nodes that are no
    elements bring nothing, so an element that comes to match only by a
    change of its attributes is not handed to [onAdd]. *)
Theorem observer_covers_added_elements :
  forall (St : Type) (onAdd : nat -> St -> St) (documentMatches : list nat)
         (s : St) (batches : list (list MutationRecord)),
    let st := foldl (onMutations onAdd) (observe onAdd documentMatches s) batches in
    (forall el,
        el ∈ st.1
        <-> el ∈ documentMatches
            \/ exists batch m n,
                 batch ∈ batches /\ m ∈ batch /\ mr_type m = "childList"
                 /\ n ∈ mr_addedNodes m /\ an_nodeType n = 1%Z
                 /\ ((an_matches n = Some true /\ el = an_element n)
                     \/ exists children,
                          an_querySelectorAll n = Some children
                          /\ el ∈ children))
    /\ (forall st0 batch,
          Forall (fun m => mr_type m <> "childList"
                           \/ Forall (fun n => an_nodeType n <> 1%Z)
                                (mr_addedNodes m)) batch ->
          onMutations onAdd st0 batch = st0).
Proof.
  intros St onAdd documentMatches s batches st.
  assert (Hrep : forall batch el,
            el ∈ reportedBy batch
            <-> exists m n,
                  m ∈ batch /\ mr_type m = "childList"
                  /\ n ∈ mr_addedNodes m /\ an_nodeType n = 1%Z
                  /\ ((an_matches n = Some true /\ el = an_element n)
                      \/ exists children,
                           an_querySelectorAll n = Some children
                           /\ el ∈ children)).
  { intros batch el. unfold reportedBy.
    rewrite list_elem_of_In, in_flat_map. split.
    - intros (m & Hm & Hel). apply list_elem_of_In in Hm.
      destruct (String.eqb_spec (mr_type m) "childList") as [Ht|Ht];
        simpl in Hel; [|done].
      apply in_flat_map in Hel as (n & Hn & Hel).
      apply list_elem_of_In in Hn. unfold reportedByNode in Hel.
      destruct (Z.eqb_spec (an_nodeType n) 1) as [Hty|Hty]; simpl in Hel;
        [|done].
      exists m, n. split; [done|]. split; [done|]. split; [done|].
      split; [done|]. apply in_app_or in Hel as [Hel|Hel].
      + left. destruct (an_matches n) as [[]|]; simpl in Hel; try done.
        destruct Hel as [<-|[]]. done.
      + right. destruct (an_querySelectorAll n) as [children|]; [|done].
        exists children. split; [done|]. by apply list_elem_of_In.
    - intros (m & n & Hm & Ht & Hn & Hty & Hel).
      exists m. split; [by apply list_elem_of_In|].
      rewrite Ht. simpl. apply in_flat_map. exists n.
      split; [by apply list_elem_of_In|]. unfold reportedByNode.
      rewrite Hty. simpl. apply in_or_app.
      destruct Hel as [[-> ->]|(children & -> & Hel)].
      + left. by left.
      + right. by apply list_elem_of_In. }
  split.
  - destruct (observer_calledOnce onAdd documentMatches s batches)
      as (calls & (_ & Hset & _) & Hcalls).
    fold st in Hset. intros el. rewrite Hset, elem_of_list_to_set, Hcalls.
    split.
    + intros [H|(batch & Hb & Hel)]; [by left|]. right.
      apply Hrep in Hel as (m & n & H). exists batch, m, n. tauto.
    + intros [H|(batch & m & n & Hb & H)]; [by left|]. right.
      exists batch. split; [done|]. apply Hrep. exists m, n. done.
  - intros st0 batch Hall. rewrite onMutations_process.
    assert (E : reportedBy batch = []); [|by rewrite E].
    destruct (reportedBy batch) as [|el l] eqn:E; [done|]. exfalso.
    assert (Hel : el ∈ reportedBy batch) by (rewrite E; apply list_elem_of_here).
    apply Hrep in Hel as (m & n & Hm & Ht & Hn & Hty & _).
    rewrite Forall_forall in Hall. destruct (Hall m Hm) as [H|H]; [done|].
    rewrite Forall_forall in H. by apply (H n Hn).
Qed.

Lemma observer_covers_added_elements_witness :
  onMutations (fun el s => s ++ [el]) ({[4%nat]}, [4%nat])
    [ {| mr_type := "attributes";
         mr_addedNodes :=
           [ {| an_nodeType := 1; an_element := 6; an_matches := Some true;
                an_querySelectorAll := Some [] |} ] |} ]
  = ({[4%nat]}, [4%nat]).
Proof.
  apply (observer_covers_added_elements (list nat) (fun el s => s ++ [el])
           [4%nat] [] []).
  repeat constructor. discriminate.
Defined.

(** ** The list of the modal *)

Section ModalFacts.

Variable env : ModalEnv.

Lemma strict_eq_refl (v : Js.value) : Js.strict_eq v v = true.
Proof.
  destruct v as [| |b|n|s]; simpl; try done.
  - by destruct b.
  - apply Z.eqb_refl.
  - apply String.eqb_refl.
Qed.

Lemma shownFromStore_spec (uid : Js.value) (pl : option ListedPlaylist) :
  shownFromStore uid pl = true
  <-> exists p, pl = Some p /\ lp_type p = Js.Str "USER"
                /\ Js.truthy uid = true /\ lp_creator_id p = uid.
Proof.
  unfold shownFromStore. destruct pl as [p|].
  2:{ split; [discriminate|]. by intros (p & H & _). }
  split.
  - destruct (Js.strict_eq (lp_type p) (Js.Str "USER")) eqn:Ht;
      [|discriminate].
    destruct (Js.truthy uid) eqn:Hu; [|discriminate]. simpl.
    intros Hc. exists p. apply strict_eq_true in Ht, Hc. done.
  - intros (q & [= <-] & Ht & Hu & Hc). rewrite Ht, Hu, Hc. simpl.
    apply strict_eq_refl.
Qed.





End ModalFacts.



(** X25: the list that
    [populatePlaylistListFromRedux] renders holds exactly the playlists of
    the store that have type [USER] and were created by the current
    user; there is no fallback to unfiltered
    playlists here, and when the current user is unknown the list is
    empty. *)
Theorem redux_list_shows_own_playlists_only :
  forall (container : bool) (env : ModalEnv) (rows : list ListRow),
    populatePlaylistListFromRedux container env = ViewRows rows ->
    exists state,
      env_store env = Js.Normal (Some state)
      /\ (Js.truthy (ms_user_meta_id state) = false -> rows = [])
      /\ forall row,
           row ∈ rows
           <-> exists key playlist,
                 (key, Some playlist) ∈ default [] (ms_playlists state)
                 /\ lp_type playlist = Js.Str "USER"
                 /\ Js.truthy (ms_user_meta_id state) = true
                 /\ lp_creator_id playlist = ms_user_meta_id state
                 /\ row = renderStored (envInSet env) playlist.
Proof.
  intros container env rows. unfold populatePlaylistListFromRedux.
  destruct (negb container); [discriminate|].
  destruct (env_store env) as [[state|]|]; try discriminate.
  destruct (length _ =? 0)%nat; [discriminate|].
  destruct (_ && _ && _); [discriminate|].
  intros [= <-]. exists state. split; [done|].
  assert (Hrow : forall row,
    row ∈ map (renderStored (envInSet env))
            (omap id (List.filter (shownFromStore (ms_user_meta_id state))
                        (map snd (default [] (ms_playlists state)))))
    <-> exists key playlist,
          (key, Some playlist) ∈ default [] (ms_playlists state)
          /\ lp_type playlist = Js.Str "USER"
          /\ Js.truthy (ms_user_meta_id state) = true
          /\ lp_creator_id playlist = ms_user_meta_id state
          /\ row = renderStored (envInSet env) playlist).
  { intros row. rewrite elem_of_map. split.
    - intros (pl & -> & Hpl). apply list_elem_of_omap in Hpl as (o & Ho & E).
      simpl in E. subst o.
      apply list_elem_of_In, filter_In in Ho as [Ho Hshown].
      apply in_map_iff in Ho as ([key o] & E & Hin). simpl in E. subst o.
      apply shownFromStore_spec in Hshown as (p & [= <-] & Ht & Hu & Hc).
      exists key, pl. by apply list_elem_of_In in Hin.
    - intros (key & pl & Hin & Ht & Hu & Hc & ->). exists pl. split; [done|].
      apply list_elem_of_omap. exists (Some pl). split; [|done].
      apply list_elem_of_In, filter_In. split.
      + apply in_map_iff. exists (key, Some pl). split; [done|].
        by apply list_elem_of_In.
      + apply shownFromStore_spec. by exists pl. }
  split; [|done].
  intros Hu.
  destruct (map _ _) as [|row l] eqn:E; [done|]. exfalso.
  assert (Hin : row ∈ row :: l) by apply list_elem_of_here.
  apply Hrow in Hin as (_ & _ & _ & _ & Hu' & _). congruence.
Qed.

Lemma redux_list_shows_own_playlists_only_witness :
  exists state,
    env_store sampleModalEnvRedux = Js.Normal (Some state)
    /\ (Js.truthy (ms_user_meta_id state) = false ->
        [renderStored (envInSet sampleModalEnvRedux) (listedPlaylist "A" 7)] = [])
    /\ forall row,
         row ∈ [renderStored (envInSet sampleModalEnvRedux) (listedPlaylist "A" 7)]
         <-> exists key playlist,
               (key, Some playlist) ∈ default [] (ms_playlists state)
               /\ lp_type playlist = Js.Str "USER"
               /\ Js.truthy (ms_user_meta_id state) = true
               /\ lp_creator_id playlist = ms_user_meta_id state
               /\ row = renderStored (envInSet sampleModalEnvRedux) playlist.
Proof.
  apply (redux_list_shows_own_playlists_only true sampleModalEnvRedux
           [renderStored (envInSet sampleModalEnvRedux) (listedPlaylist "A" 7)]).
  reflexivity.
Defined.
